(** * The live-room relay and the HTTP API of [server.js]

    A shallow embedding of the WebSocket "live room" of [server.js]
    (lines 19-57) and of its route handlers (lines 97-282), together with
    the two ECMAScript builtins the relay calls on every payload,
    [JSON.parse] and [JSON.stringify].

    The file has two parts: the definitions (the runtime builtins, the
    transport, the four event handlers, the event loop and the route
    handlers), then the properties proved about them. *)

From Stdlib Require Import String Ascii ZArith List Bool Lia.
From Stdlib Require Import Floats.SpecFloat.
Import ListNotations.

Set Warnings "-register-all".
Local Open Scope Z_scope.

(* ================================================================== *)
(** * Part I.  Definitions *)
(* ================================================================== *)

(** ** ECMAScript values

    A JavaScript String is a sequence of 16-bit code units; a Number is an
    IEEE 754 binary64 value.  The values [JSON.parse] can produce are
    [null], booleans, numbers, strings, arrays and plain objects; an object
    is kept as the list of its own properties in the order
    [OrdinaryOwnPropertyKeys] enumerates them. *)

Definition CodeUnit := Z.
Definition JSString := list CodeUnit.
Definition Number := spec_float.

Inductive JSValue : Type :=
| JSNull
| JSBoolean (b : bool)
| JSNumber (x : Number)
| JSStr (s : JSString)
| JSArray (elements : list JSValue)
| JSObject (properties : list (JSString * JSValue)).

(** An ASCII literal as a JavaScript string. *)
Fixpoint lit (s : string) : JSString :=
  match s with
  | EmptyString => []
  | String a s' => Z.of_nat (nat_of_ascii a) :: lit s'
  end.

Fixpoint JSString_eqb (a b : JSString) : bool :=
  match a, b with
  | [], [] => true
  | x :: a', y :: b' => (x =? y) && JSString_eqb a' b'
  | _, _ => false
  end.

(** ** Numbers

    Decimal literals to binary64 and back: the conversion [JSON.parse]
    applies to a number, and [Number::toString], which [JSON.stringify]
    applies to a finite one. *)

Module Num.

(** binary64: 53 bits of precision, exponent of the infinities 1024. *)
Definition prec : Z := 53.
Definition emax : Z := 1024.

(** The Number nearest to [m * 10^e] (ties to even), negated when
    [neg]: the value of a decimal literal with digits [m] and decimal
    exponent [e].  A zero keeps its sign. *)
Definition of_decimal (neg : bool) (m e : Z) : Number :=
  match m with
  | Zpos p =>
      if 0 <=? e
      then binary_round prec emax neg (Pos.mul p (Z.to_pos (10 ^ e))) 0
      else
        let '(mz, ez, lz) :=
          SFdiv_core_binary prec emax (Zpos p) 0 (10 ^ (- e)) 0 in
        binary_round_aux prec emax neg mz ez lz
  | _ => S754_zero neg
  end.

Definition eqb (x y : Number) : bool :=
  match x, y with
  | S754_zero a, S754_zero b => Bool.eqb a b
  | S754_infinity a, S754_infinity b => Bool.eqb a b
  | S754_nan, S754_nan => true
  | S754_finite a m e, S754_finite b n f =>
      Bool.eqb a b && Pos.eqb m n && (e =? f)
  | _, _ => false
  end.

Definition is_finite (x : Number) : bool :=
  match x with
  | S754_zero _ | S754_finite _ _ _ => true
  | _ => false
  end.

(** The decimal digits of a non-negative integer. *)
Fixpoint digits_fuel (fuel : nat) (z : Z) (acc : JSString) : JSString :=
  match fuel with
  | O => acc
  | S fuel' =>
      if z <? 10 then (48 + z) :: acc
      else digits_fuel fuel' (z / 10) (48 + z mod 10 :: acc)
  end.

Definition decimal (z : Z) : JSString :=
  digits_fuel (S (Z.to_nat (Z.log2 z))) z [].

(** [p / q] scaled by [10^d], as a fraction. *)
Definition scale10 (p q d : Z) : Z * Z :=
  if 0 <=? d then (p * 10 ^ d, q) else (p, q * 10 ^ (- d)).

(** The least [n' >= n] with [a / b < 10^(n' - n)]. *)
Fixpoint magnitude (fuel : nat) (a b n : Z) : Z :=
  match fuel with
  | O => n
  | S fuel' => if a <? b then n else magnitude fuel' a (b * 10) (n + 1)
  end.

(** Step 5 of [Number::toString]: integers [s], [k], [n] with
    [10^(k-1) <= s < 10^k], the Number nearest [s * 10^(n-k)] being [x],
    and [k] as small as possible; of the candidates with that [k] the one
    nearest to [x], the even one on a tie.  [p / q] is the exact value of
    [x] and [10^(n-1) <= p / q < 10^n]. *)
Fixpoint shortest (fuel : nat) (x : Number) (p q n k : Z) : Z * Z * Z :=
  let '(a, b) := scale10 p q (k - n) in
  let lo := a / b in
  let hi := lo + 1 in
  match fuel with
  | O => (lo, k, n)
  | S fuel' =>
      let oklo := eqb (of_decimal false lo (n - k)) x in
      let okhi := eqb (of_decimal false hi (n - k)) x in
      let pick (s : Z) := if s =? 10 ^ k then (1, 1, n + 1) else (s, k, n) in
      if oklo && okhi then
        match 2 * a ?= (2 * lo + 1) * b with
        | Lt => pick lo
        | Gt => pick hi
        | Eq => if Z.even lo then pick lo else pick hi
        end
      else if oklo then pick lo
      else if okhi then pick hi
      else shortest fuel' x p q n (k + 1)
  end.

Definition zeros (n : Z) : JSString := repeat 48 (Z.to_nat n).

(** Steps 6 to 11 of [Number::toString] in radix 10. *)
Definition format (s k n : Z) : JSString :=
  let ds := decimal s in
  if (-5 <=? n) && (n <=? 21) then
    if k <=? n then ds ++ zeros (n - k)
    else if 0 <? n then
      firstn (Z.to_nat n) ds ++ [46] ++ skipn (Z.to_nat n) ds
    else [48; 46] ++ zeros (- n) ++ ds
  else
    let sign := if n <? 0 then 45 else 43 in
    let ex := decimal (Z.abs (n - 1)) in
    if k =? 1 then ds ++ [101; sign] ++ ex
    else firstn 1 ds ++ [46] ++ skipn 1 ds ++ [101; sign] ++ ex.

(** [Number::toString(x, 10)]. *)
Definition toString (x : Number) : JSString :=
  match x with
  | S754_nan => lit "NaN"
  | S754_zero _ => lit "0"
  | S754_infinity neg => (if neg then [45] else []) ++ lit "Infinity"
  | S754_finite neg m e =>
      let '(p, q) := if 0 <=? e then (Zpos m * 2 ^ e, 1) else (Zpos m, 2 ^ (- e)) in
      let n := magnitude 800 (p * 10 ^ 400) q (-400) in
      let '(s, k, n') := shortest 20 (S754_finite false m e) p q n 1 in
      (if neg then [45] else []) ++ format s k n'
  end.

End Num.

(** ** [JSON.parse]

    The JSON grammar of ECMA-262 (section 25.5.1): white space is tab,
    line feed, carriage return and space; a value is [null], [true],
    [false], a number, a string, an array or an object.  [None] stands
    for the [SyntaxError] the builtin throws. *)

Module JSON.

Definition is_ws (c : CodeUnit) : bool :=
  (c =? 9) || (c =? 10) || (c =? 13) || (c =? 32).

Fixpoint skip_ws (s : JSString) : JSString :=
  match s with
  | c :: r => if is_ws c then skip_ws r else s
  | [] => []
  end.

Definition is_digit (c : CodeUnit) : bool := (48 <=? c) && (c <=? 57).

Definition hex_value (c : CodeUnit) : option Z :=
  if is_digit c then Some (c - 48)
  else if (97 <=? c) && (c <=? 102) then Some (c - 87)
  else if (65 <=? c) && (c <=? 70) then Some (c - 55)
  else None.

(** The characters of a string literal after its opening quote, up to
    and including the closing quote; [acc] holds the code units read so
    far, last first. *)
Fixpoint parse_string_chars (s acc : JSString) : option (JSString * JSString) :=
  match s with
  | [] => None
  | c :: r =>
      if c =? 34 then Some (rev acc, r)
      else if c <? 32 then None
      else if c =? 92 then
        match r with
        | [] => None
        | e :: r1 =>
            if e =? 117 then
              match r1 with
              | h1 :: h2 :: h3 :: h4 :: r2 =>
                  match hex_value h1, hex_value h2, hex_value h3, hex_value h4 with
                  | Some a, Some b, Some c', Some d =>
                      parse_string_chars r2 (((a * 16 + b) * 16 + c') * 16 + d :: acc)
                  | _, _, _, _ => None
                  end
              | _ => None
              end
            else if e =? 34 then parse_string_chars r1 (34 :: acc)
            else if e =? 92 then parse_string_chars r1 (92 :: acc)
            else if e =? 47 then parse_string_chars r1 (47 :: acc)
            else if e =? 98 then parse_string_chars r1 (8 :: acc)
            else if e =? 102 then parse_string_chars r1 (12 :: acc)
            else if e =? 110 then parse_string_chars r1 (10 :: acc)
            else if e =? 114 then parse_string_chars r1 (13 :: acc)
            else if e =? 116 then parse_string_chars r1 (9 :: acc)
            else None
        end
      else parse_string_chars r (c :: acc)
  end.

(** A run of decimal digits: their value on top of [acc], how many
    there were, and the rest of the input. *)
Fixpoint take_digits (s : JSString) (acc count : Z) : Z * Z * JSString :=
  match s with
  | c :: r => if is_digit c then take_digits r (acc * 10 + (c - 48)) (count + 1)
              else (acc, count, s)
  | [] => (acc, count, s)
  end.

(** The integer part of a number: a single [0], or a non-zero digit
    followed by digits. *)
Definition parse_int_part (s : JSString) : option (Z * JSString) :=
  match s with
  | c :: r =>
      if c =? 48 then Some (0, r)
      else if is_digit c then
        let '(m, _, r') := take_digits r (c - 48) 1 in Some (m, r')
      else None
  | [] => None
  end.

(** The optional fraction: the digits appended to the mantissa [m] and
    how many there were. *)
Definition parse_frac_part (m : Z) (s : JSString) : option (Z * Z * JSString) :=
  match s with
  | c :: r =>
      if c =? 46 then
        let '(m', n, r') := take_digits r m 0 in
        if n =? 0 then None else Some (m', n, r')
      else Some (m, 0, s)
  | [] => Some (m, 0, s)
  end.

(** The optional exponent part. *)
Definition parse_exp_part (s : JSString) : option (Z * JSString) :=
  match s with
  | c :: r =>
      if (c =? 101) || (c =? 69) then
        let '(neg, r1) :=
          match r with
          | g :: r0 => if g =? 45 then (true, r0)
                       else if g =? 43 then (false, r0) else (false, r)
          | [] => (false, r)
          end in
        let '(x, n, r2) := take_digits r1 0 0 in
        if n =? 0 then None else Some (if neg then - x else x, r2)
      else Some (0, s)
  | [] => Some (0, s)
  end.

Definition parse_number (s : JSString) : option (Number * JSString) :=
  let '(neg, s1) :=
    match s with
    | c :: r => if c =? 45 then (true, r) else (false, s)
    | [] => (false, s)
    end in
  match parse_int_part s1 with
  | None => None
  | Some (m, s2) =>
      match parse_frac_part m s2 with
      | None => None
      | Some (m', nfrac, s3) =>
          match parse_exp_part s3 with
          | None => None
          | Some (x, s4) => Some (Num.of_decimal neg m' (x - nfrac), s4)
          end
      end
  end.

(** [s] begins with the code units of [word]: what is left after it. *)
Fixpoint expect (word s : JSString) : option JSString :=
  match word, s with
  | [], _ => Some s
  | w :: word', c :: r => if w =? c then expect word' r else None
  | _ :: _, [] => None
  end.

(** An array index: a canonical numeric string (no sign, no leading zero)
    whose value is at most 2^32 - 2. *)
Definition array_index (k : JSString) : option Z :=
  match k with
  | [] => None
  | c :: r =>
      if negb (forallb is_digit k) then None
      else if (c =? 48) && negb (Nat.eqb (length r) 0) then None
      else if Nat.ltb 10 (length k) then None
      else
        let '(v, _, _) := take_digits k 0 0 in
        if v <=? 4294967294 then Some v else None
  end.

(** Where a new own property goes: array indices first, in ascending
    numeric order, then the other keys in creation order. *)
Fixpoint insert_index (i : Z) (k : JSString) (v : JSValue)
    (props : list (JSString * JSValue)) : list (JSString * JSValue) :=
  match props with
  | [] => [(k, v)]
  | (k', v') :: rest =>
      match array_index k' with
      | Some j => if j <? i then (k', v') :: insert_index i k v rest
                  else (k, v) :: props
      | None => (k, v) :: props
      end
  end.

Fixpoint has_property (k : JSString) (props : list (JSString * JSValue)) : bool :=
  match props with
  | [] => false
  | (k', _) :: rest => JSString_eqb k k' || has_property k rest
  end.

Fixpoint set_property (k : JSString) (v : JSValue)
    (props : list (JSString * JSValue)) : list (JSString * JSValue) :=
  match props with
  | [] => []
  | (k', v') :: rest =>
      if JSString_eqb k k' then (k', v) :: rest
      else (k', v') :: set_property k v rest
  end.

(** [CreateDataProperty]: an existing key keeps its place and takes the
    new value (so the last of several members with one name wins); a new
    key is added. *)
Definition CreateDataProperty (props : list (JSString * JSValue))
    (k : JSString) (v : JSValue) : list (JSString * JSValue) :=
  if has_property k props then set_property k v props
  else match array_index k with
       | Some i => insert_index i k v props
       | None => props ++ [(k, v)]
       end.

(** The recursive descent.  Every call that takes a unit of [fuel] is
    followed by the consumption of at least one code unit before the next
    such call but one, so the [2 * length text + 2] units [parse] gives
    are never used up ([parse_fuel_independent] below). *)
Fixpoint parse_value (fuel : nat) (s : JSString) {struct fuel}
    : option (JSValue * JSString) :=
  match fuel with
  | O => None
  | S fuel' =>
      match skip_ws s with
      | [] => None
      | c :: r =>
          if c =? 123 then
            match skip_ws r with
            | c1 :: r1 =>
                if c1 =? 125 then Some (JSObject [], r1)
                else parse_members fuel' (skip_ws r) []
            | [] => None
            end
          else if c =? 91 then
            match skip_ws r with
            | c1 :: r1 =>
                if c1 =? 93 then Some (JSArray [], r1)
                else parse_elements fuel' (skip_ws r) []
            | [] => None
            end
          else if c =? 34 then
            match parse_string_chars r [] with
            | Some (str, r') => Some (JSStr str, r')
            | None => None
            end
          else if c =? 110 then
            match expect (lit "null") (c :: r) with
            | Some r' => Some (JSNull, r')
            | None => None
            end
          else if c =? 116 then
            match expect (lit "true") (c :: r) with
            | Some r' => Some (JSBoolean true, r')
            | None => None
            end
          else if c =? 102 then
            match expect (lit "false") (c :: r) with
            | Some r' => Some (JSBoolean false, r')
            | None => None
            end
          else if (c =? 45) || is_digit c then
            match parse_number (c :: r) with
            | Some (x, r') => Some (JSNumber x, r')
            | None => None
            end
          else None
      end
  end

(** The elements of a non-empty array, after [[] or [,]; [acc] holds the
    elements read so far, last first. *)
with parse_elements (fuel : nat) (s : JSString) (acc : list JSValue) {struct fuel}
    : option (JSValue * JSString) :=
  match fuel with
  | O => None
  | S fuel' =>
      match parse_value fuel' s with
      | None => None
      | Some (v, r) =>
          match skip_ws r with
          | c :: r1 =>
              if c =? 44 then parse_elements fuel' r1 (v :: acc)
              else if c =? 93 then Some (JSArray (rev (v :: acc)), r1)
              else None
          | [] => None
          end
      end
  end

(** The members of a non-empty object, after [{] or [,] and the white
    space that follows; [props] is the object built so far. *)
with parse_members (fuel : nat) (s : JSString) (props : list (JSString * JSValue))
    {struct fuel} : option (JSValue * JSString) :=
  match fuel with
  | O => None
  | S fuel' =>
      match s with
      | q :: r =>
          if q =? 34 then
            match parse_string_chars r [] with
            | None => None
            | Some (k, r1) =>
                match skip_ws r1 with
                | c :: r2 =>
                    if c =? 58 then
                      match parse_value fuel' r2 with
                      | None => None
                      | Some (v, r3) =>
                          let props' := CreateDataProperty props k v in
                          match skip_ws r3 with
                          | c' :: r4 =>
                              if c' =? 44 then parse_members fuel' (skip_ws r4) props'
                              else if c' =? 125 then Some (JSObject props', r4)
                              else None
                          | [] => None
                          end
                      end
                    else None
                | [] => None
                end
            end
          else None
      | [] => None
      end
  end.

(** [JSON.parse(text)] without a reviver: one value, with white space
    allowed around it and nothing else. *)
Definition parse (text : JSString) : option JSValue :=
  match parse_value (2 * length text + 2) text with
  | Some (v, rest) =>
      match skip_ws rest with
      | [] => Some v
      | _ :: _ => None
      end
  | None => None
  end.

(** ** [JSON.stringify] *)

Definition hex_digit (d : Z) : CodeUnit := if d <? 10 then 48 + d else 87 + d.

(** [UnicodeEscape]: a backslash, [u] and four lowercase hexadecimal
    digits. *)
Definition UnicodeEscape (c : CodeUnit) : JSString :=
  [92; 117; hex_digit (c / 4096 mod 16); hex_digit (c / 256 mod 16);
   hex_digit (c / 16 mod 16); hex_digit (c mod 16)].

Definition is_high_surrogate (c : CodeUnit) : bool := (55296 <=? c) && (c <=? 56319).
Definition is_low_surrogate (c : CodeUnit) : bool := (56320 <=? c) && (c <=? 57343).

(** The body of [QuoteJSONString]: the short escapes of the table, a
    [UnicodeEscape] for the other control characters and for a surrogate
    that is not part of a pair, every other code point as it is. *)
Fixpoint quote_chars (s : JSString) : JSString :=
  match s with
  | [] => []
  | c :: r =>
      if is_high_surrogate c then
        match r with
        | d :: r' =>
            if is_low_surrogate d then c :: d :: quote_chars r'
            else UnicodeEscape c ++ quote_chars r
        | [] => UnicodeEscape c
        end
      else if is_low_surrogate c then UnicodeEscape c ++ quote_chars r
      else if c =? 8 then [92; 98] ++ quote_chars r
      else if c =? 9 then [92; 116] ++ quote_chars r
      else if c =? 10 then [92; 110] ++ quote_chars r
      else if c =? 12 then [92; 102] ++ quote_chars r
      else if c =? 13 then [92; 114] ++ quote_chars r
      else if c =? 34 then [92; 34] ++ quote_chars r
      else if c =? 92 then [92; 92] ++ quote_chars r
      else if c <? 32 then UnicodeEscape c ++ quote_chars r
      else c :: quote_chars r
  end.

Definition QuoteJSONString (s : JSString) : JSString := [34] ++ quote_chars s ++ [34].

Fixpoint join (parts : list JSString) : JSString :=
  match parts with
  | [] => []
  | [x] => x
  | x :: rest => x ++ [44] ++ join rest
  end.

(** [SerializeJSONProperty] without replacer and without indentation, on
    the values [JSON.parse] returns (none of them has a callable
    [toJSON]): a Number that is not finite is written [null].  This is
    the text a call of [JSON.stringify] returns when it returns; whether
    it does is [stringify_in], below. *)
Fixpoint stringify (v : JSValue) : JSString :=
  match v with
  | JSNull => lit "null"
  | JSBoolean true => lit "true"
  | JSBoolean false => lit "false"
  | JSNumber x => if Num.is_finite x then Num.toString x else lit "null"
  | JSStr s => QuoteJSONString s
  | JSArray elements => [91] ++ join (map stringify elements) ++ [93]
  | JSObject properties =>
      [123]
      ++ join (map (fun kv => QuoteJSONString (fst kv) ++ [58] ++ stringify (snd kv))
                   properties)
      ++ [125]
  end.

(** How deep the arrays and objects of a value are nested: [0] for a
    value that is neither, [1] for an array or an object that holds
    neither. *)
Fixpoint depth (v : JSValue) : nat :=
  match v with
  | JSArray elements => S (list_max (map depth elements))
  | JSObject properties => S (list_max (map (fun kv => depth (snd kv)) properties))
  | _ => O
  end.

(** [JSON.stringify(v)] as an engine runs it.  [SerializeJSONProperty]
    calls itself for every element and member, and the engine answers a
    recursion its stack has no room for with a [RangeError]: [None] here.
    [room] is the number of levels the recursion can go below the first;
    a value with no array or object inside another is always written. *)
Definition stringify_in (room : nat) (v : JSValue) : option JSString :=
  if (depth v <=? S room)%nat then Some (stringify v) else None.

End JSON.

(** ** Values that are JavaScript values

    The vocabulary of the round trip through [JSON.stringify] and
    [JSON.parse]. *)

Import JSON.

(** A code unit is a 16-bit number. *)
Definition code_unit (c : Z) : Prop := 0 <= c < 65536.

(** What can follow a value in the output of [stringify]: nothing, a comma,
    or a closing bracket or brace. *)
Definition delimited (rest : JSString) : Prop :=
  match rest with
  | [] => True
  | c :: _ => c = 44 \/ c = 93 \/ c = 125
  end.

(** The Number [x] is finite and, written by [Number::toString] and read
    back as a JSON number, is [x] again. *)
Definition number_survives (x : Number) : Prop :=
  Num.is_finite x = true
  /\ forall rest, delimited rest ->
       parse_number (Num.toString x ++ rest) = Some (x, rest).

(** A binary64 value: the mantissa and the exponent of a finite one are
    in range and normalised. *)
Definition binary64 (x : Number) : Prop := valid_binary 53 1024 x = true.

(** A Number that is finite and is not negative zero. *)
Definition plain_number (x : Number) : Prop :=
  Num.is_finite x = true /\ x <> S754_zero true.

(** The key [a] is enumerated before the key [x]. *)
Definition key_before (a x : JSString) : Prop :=
  a <> x
  /\ forall j, array_index x = Some j -> exists i, array_index a = Some i /\ i < j.

(** Own keys as [OrdinaryOwnPropertyKeys] lists them: each once, array
    indices first in ascending order. *)
Fixpoint keys_ordered (ks : list JSString) : Prop :=
  match ks with
  | [] => True
  | a :: ks' => Forall (key_before a) ks' /\ keys_ordered ks'
  end.

(** A new key [k] is enumerated after the keys [ks]: it is not among them,
    and when it is an array index they all are smaller array indices. *)
Definition key_goes_last (ks : list JSString) (k : JSString) : Prop :=
  ~ In k ks
  /\ match array_index k with
     | Some i => forall k', In k' ks -> exists j, array_index k' = Some j /\ j < i
     | None => True
     end.

(** The values of the embedding that stand for JavaScript values: strings
    and keys are made of code units, the keys of an object are in
    enumeration order; [N] is what is asked of the numbers. *)
Fixpoint shaped (N : Number -> Prop) (v : JSValue) : Prop :=
  match v with
  | JSNull | JSBoolean _ => True
  | JSNumber x => N x
  | JSStr s => Forall code_unit s
  | JSArray elements =>
      (fix all (l : list JSValue) : Prop :=
         match l with
         | [] => True
         | e :: l' => shaped N e /\ all l'
         end) elements
  | JSObject properties =>
      keys_ordered (map fst properties)
      /\ (fix all (l : list (JSString * JSValue)) : Prop :=
            match l with
            | [] => True
            | kv :: l' => (Forall code_unit (fst kv) /\ shaped N (snd kv)) /\ all l'
            end) properties
  end.

(** The properties of a well-formed object. *)
Definition props_shaped (N : Number -> Prop) (props : list (JSString * JSValue)) : Prop :=
  keys_ordered (map fst props)
  /\ Forall (fun kv => Forall code_unit (fst kv) /\ shaped N (snd kv)) props.

(** Nothing asked of the numbers. *)
Definition any_number : Number -> Prop := fun _ => True.

(** A value all of whose numbers survive. *)
Definition canonical : JSValue -> Prop := shaped number_survives.

(** The numbers that occur in a value. *)
Fixpoint numbers_of (v : JSValue) : list Number :=
  match v with
  | JSNumber x => [x]
  | JSArray elements => flat_map numbers_of elements
  | JSObject properties => flat_map (fun kv => numbers_of (snd kv)) properties
  | _ => []
  end.

(** The fuel [parse_elements] and [parse_members] use on items that need
    [ns]. *)
Fixpoint chain (ns : list nat) : nat :=
  match ns with
  | [] => O
  | n :: ns' => S (Nat.max n (chain ns'))
  end.

(** The fuel [parse_value] uses on the text of [v]. *)
Fixpoint need (v : JSValue) : nat :=
  match v with
  | JSArray elements => S (chain (map need elements))
  | JSObject properties => S (chain (map (fun kv => need (snd kv)) properties))
  | _ => 1%nat
  end.

(** The code units a JSON value can begin with. *)
Definition value_start (c : CodeUnit) : bool :=
  (c =? 123) || (c =? 91) || (c =? 34) || (c =? 110) || (c =? 116) || (c =? 102)
  || (c =? 45) || is_digit c.

(** A member as [stringify] writes it. *)
Definition member_text (kv : JSString * JSValue) : JSString :=
  QuoteJSONString (fst kv) ++ [58] ++ stringify (snd kv).

(** Reading the text of [v] gives [v] and leaves what follows. *)
Definition roundtrips (v : JSValue) : Prop :=
  canonical v ->
  forall fuel rest, (need v <= fuel)%nat -> delimited rest ->
    parse_value fuel (stringify v ++ rest) = Some (v, rest).

(** The number a string of digits denotes. *)
Definition digit_value (c : CodeUnit) : Z := c - 48.

Definition decimal_value (k : JSString) : Z :=
  fold_left (fun a c => a * 10 + digit_value c) k 0.

(** Induction over values, through the lists they are nested in. *)
Section JSValue_induction.
Variable P : JSValue -> Prop.
Hypothesis Hnull : P JSNull.
Hypothesis Hbool : forall b, P (JSBoolean b).
Hypothesis Hnum : forall x, P (JSNumber x).
Hypothesis Hstr : forall s, P (JSStr s).
Hypothesis Harr : forall elements, Forall P elements -> P (JSArray elements).
Hypothesis Hobj : forall properties,
    Forall (fun kv => P (snd kv)) properties -> P (JSObject properties).

Fixpoint JSValue_nested_ind (v : JSValue) : P v :=
  match v with
  | JSNull => Hnull
  | JSBoolean b => Hbool b
  | JSNumber x => Hnum x
  | JSStr s => Hstr s
  | JSArray elements =>
      Harr elements
        ((fix go (l : list JSValue) : Forall P l :=
            match l with
            | [] => Forall_nil P
            | e :: l' => Forall_cons e (JSValue_nested_ind e) (go l')
            end) elements)
  | JSObject properties =>
      Hobj properties
        ((fix go (l : list (JSString * JSValue)) : Forall (fun kv => P (snd kv)) l :=
            match l with
            | [] => Forall_nil _
            | kv :: l' => Forall_cons kv (JSValue_nested_ind (snd kv)) (go l')
            end) properties)
  end.
End JSValue_induction.

(** ** The arithmetic of decimal literals

    The vocabulary of the proof that [Number::toString] writes a decimal
    that reads back as the Number: fractions for the decimals and the
    binary64 values, and the steps of the rounding of [SpecFloat]. *)

(** The decimal [M * 10^E] as a fraction. *)
Definition dec_num (M E : Z) : Z := if 0 <=? E then M * 10 ^ E else M.
Definition dec_den (E : Z) : Z := if 0 <=? E then 1 else 10 ^ (- E).

(** The binary [m * 2^e] as a fraction, and the fraction with the same
    denominator that is [2^e]. *)
Definition bin_num (m e : Z) : Z := m * 2 ^ (e + Z.max 0 (- e)).
Definition bin_den (e : Z) : Z := 2 ^ Z.max 0 (- e).
Definition bin_ulp (e : Z) : Z := 2 ^ (e + Z.max 0 (- e)).

(** Where [num / den] lies between [num / den] rounded down and the
    next integer. *)
Definition loc_of (num den : Z) : location :=
  if num mod den =? 0 then loc_Exact
  else loc_Inexact (2 * (num mod den) ?= den).

(** [a / b < 2^g]. *)
Definition lt_pow2 (a b g : Z) : Prop :=
  a * 2 ^ Z.max 0 (- g) < b * 2 ^ Z.max 0 g.

(** [2^(g-1) <= a / b < 2^g]. *)
Definition is_mag (g a b : Z) : Prop := lt_pow2 a b g /\ ~ lt_pow2 a b (g - 1).

(** What [binary_round_aux] does after its first shift. *)
Definition finish (sx : bool) (q : Z) (l : location) (E : Z) : Number :=
  let '(mrs, e) := shr_fexp 53 1024 (round_nearest_even q l) E loc_Exact in
  match shr_m mrs with
  | 0 => S754_zero sx
  | Zpos m => if e <=? 1024 - 53 then S754_finite sx m e else S754_infinity sx
  | Zneg _ => S754_nan
  end.

(** The Number nearest to [a / b], whose binary magnitude is [g]. *)
Definition round_frac (sx : bool) (a b g : Z) : Number :=
  let E := fexp 53 1024 g in
  let num := a * 2 ^ Z.max 0 (- E) in
  let den := b * 2 ^ Z.max 0 E in
  finish sx (num / den) (loc_of num den) E.

(** What [shortest] is to return: digits [s], their number [k] and the
    place [n] of the decimal point, with [s * 10^(n-k)] denoting [x]. *)
Definition digits_of (x : Number) (r : Z * Z * Z) : Prop :=
  let '(s, k, n) := r in
  Num.of_decimal false s (n - k) = x
  /\ 1 <= k <= 20
  /\ 10 ^ (k - 1) <= s < 10 ^ k
  /\ -400 <= n <= 401.

(** The digits [Number::toString] writes for a finite Number. *)
Definition toString_digits (m : positive) (e : Z) : Z * Z * Z :=
  let p := bin_num (Zpos m) e in
  let q := bin_den e in
  Num.shortest 20 (S754_finite false m e) p q
    (Num.magnitude 800 (p * 10 ^ 400) q (-400)) 1.

(** A text that does not go on with a digit. *)
Definition no_digit (t : JSString) : Prop :=
  match t with
  | [] => True
  | c :: _ => is_digit c = false
  end.

(** What [binary_round_aux] makes of a rounded mantissa. *)
Definition settle (sx : bool) (m E : Z) : Number :=
  let '(mrs, e) := shr_fexp 53 1024 m E loc_Exact in
  match shr_m mrs with
  | 0 => S754_zero sx
  | Zpos p => if e <=? 1024 - 53 then S754_finite sx p e else S754_infinity sx
  | Zneg _ => S754_nan
  end.

(** ** The transport

    A connection handle is the identity of a [WebSocket] object of the
    [ws] package.  The relay reads one thing from it, [readyState], and
    calls one thing on it, [send]; both belong to the transport, which is
    taken as it is at the time a handler runs.  A call of [send] either
    hands the data over for delivery, or returns without delivering (the
    failure is reported later, through the socket's [error] event), or
    throws.  What else surrounds a handler is the engine it runs in, and
    one thing of it shows: the room its stack leaves to the recursion of
    [JSON.stringify], [stackRoom] levels of nesting below the first. *)

Definition Conn := nat.

Inductive ReadyState := CONNECTING | OPEN | CLOSING | CLOSED.

Definition ReadyState_eqb (a b : ReadyState) : bool :=
  match a, b with
  | CONNECTING, CONNECTING | OPEN, OPEN | CLOSING, CLOSING | CLOSED, CLOSED => true
  | _, _ => false
  end.

Inductive SendOutcome := Delivered | Dropped | Thrown.

Definition SendOutcome_eqb (a b : SendOutcome) : bool :=
  match a, b with
  | Delivered, Delivered | Dropped, Dropped | Thrown, Thrown => true
  | _, _ => false
  end.

Record Transport := {
  readyState : Conn -> ReadyState;
  sendOutcome : Conn -> SendOutcome;
  stackRoom : nat
}.

(** The two places of [server.js] that call [send]: line 27 (the welcome)
    and line 40 (the broadcast). *)
Variant CallSite := WelcomeSend | BroadcastSend.

Record SendCall := {
  site : CallSite;
  target : Conn;
  payload : JSString;
  outcome : SendOutcome
}.

(** The lines the handlers write to the console. *)
Variant LogLine :=
| NewClientConnected
| ReceivedMessage (data : JSValue)
| ErrorParsingMessage
| ClientDisconnected
| WebSocketError.

(** How a handler ends: it returns, or an exception leaves it. *)
Inductive Completion (A : Type) : Type :=
| Normal (a : A)
| Throw (a : A).
Arguments Normal {A} a.
Arguments Throw {A} a.

Definition state_of {A : Type} (c : Completion A) : A :=
  match c with Normal a | Throw a => a end.

(** ** The active set

    [liveConnections] is an ES2015 [Set]: no element twice, iteration in
    insertion order. *)

Module ConnSet.

Definition has (s : list Conn) (c : Conn) : bool := existsb (Nat.eqb c) s.

Definition add (s : list Conn) (c : Conn) : list Conn :=
  if has s c then s else s ++ [c].

Definition delete (s : list Conn) (c : Conn) : list Conn :=
  filter (fun x => negb (Nat.eqb x c)) s.

Definition size (s : list Conn) : nat := length s.

End ConnSet.

(** ** The relay *)

Record Relay := {
  liveConnections : list Conn;
  wire : list SendCall;
  console : list LogLine
}.

(** [const liveConnections = new Set()], nothing sent, nothing logged. *)
Definition init : Relay :=
  {| liveConnections := []; wire := []; console := [] |}.

Definition log (l : LogLine) (r : Relay) : Relay :=
  {| liveConnections := liveConnections r;
     wire := wire r;
     console := console r ++ [l] |}.

Definition with_connections (s : list Conn) (r : Relay) : Relay :=
  {| liveConnections := s; wire := wire r; console := console r |}.

(** [ws.send(data)], called from [from]. *)
Definition send (t : Transport) (from : CallSite) (ws : Conn) (data : JSString)
    (r : Relay) : Completion Relay :=
  let r' := {| liveConnections := liveConnections r;
               wire := wire r ++ [{| site := from; target := ws; payload := data;
                                     outcome := sendOutcome t ws |}];
               console := console r |} in
  match sendOutcome t ws with
  | Thrown => Throw r'
  | _ => Normal r'
  end.

(** The object literal of lines 27-30. *)
Definition welcome : JSValue :=
  JSObject [ (lit "name", JSStr (lit "System"));
             (lit "text", JSStr (lit "Welcome to the Live Room! You are now connected.")) ].

(** [wss.on('connection', (ws) => ...)], lines 22-57: the socket joins the
    set, the welcome is sent, whatever the [readyState], and then the
    three listeners are put on the socket.  Nothing catches an exception
    of the welcome [send].  The welcome has no array or object inside it:
    [JSON.stringify] writes it whatever the room. *)
Definition onConnection (t : Transport) (ws : Conn) (r : Relay) : Completion Relay :=
  let r1 := with_connections (ConnSet.add (liveConnections r) ws) r in
  let r2 := log NewClientConnected r1 in
  send t WelcomeSend ws (JSON.stringify welcome) r2.

(** [liveConnections.forEach((client) => ...)], lines 38-42, over the
    elements [clients] still to visit, in insertion order: for a client
    whose [readyState] is [WebSocket.OPEN], [JSON.stringify(data)] is
    evaluated and the text is sent.  An exception of [JSON.stringify] or
    of [send] leaves the loop. *)
Fixpoint forEach_send (t : Transport) (clients : list Conn) (data : JSValue)
    (r : Relay) : Completion Relay :=
  match clients with
  | [] => Normal r
  | client :: rest =>
      if ReadyState_eqb (readyState t client) OPEN then
        match JSON.stringify_in (stackRoom t) data with
        | None => Throw r
        | Some text =>
            match send t BroadcastSend client text r with
            | Normal r' => forEach_send t rest data r'
            | Throw r' => Throw r'
            end
        end
      else forEach_send t rest data r
  end.

(** [ws.on('message', (message) => ...)], lines 32-46.  [message] is the
    text of the frame, as the string [JSON.parse] works on.  The [try]
    covers the parse and the whole loop; the [catch] logs and the handler
    returns.  The socket [ws] the message came from is not used. *)
Definition onMessage (t : Transport) (ws : Conn) (message : JSString) (r : Relay)
    : Completion Relay :=
  match JSON.parse message with
  | None => Normal (log ErrorParsingMessage r)
  | Some data =>
      let r1 := log (ReceivedMessage data) r in
      match forEach_send t (liveConnections r1) data r1 with
      | Normal r2 => Normal r2
      | Throw r2 => Normal (log ErrorParsingMessage r2)
      end
  end.

(** [ws.on('close', ...)], lines 48-51. *)
Definition onClose (ws : Conn) (r : Relay) : Completion Relay :=
  Normal (log ClientDisconnected
            (with_connections (ConnSet.delete (liveConnections r) ws) r)).

(** [ws.on('error', ...)], lines 53-56. *)
Definition onError (ws : Conn) (r : Relay) : Completion Relay :=
  let r1 := log WebSocketError r in
  Normal (with_connections (ConnSet.delete (liveConnections r1) ws) r1).

(** The [liveConnections] field of the [/api/health] response, line 264. *)
Definition activeCount (r : Relay) : nat := ConnSet.size (liveConnections r).

(** ** The event loop

    One event at a time, each handler run to its end with the transport
    as it is then.  An exception that leaves a handler is not caught
    anywhere in [server.js]: the process ends there. *)

Inductive Event :=
| Connection (ws : Conn)
| Message (ws : Conn) (message : JSString)
| Close (ws : Conn)
| Error (ws : Conn).

Record Tick := { env : Transport; ev : Event }.

Definition dispatch (t : Transport) (e : Event) (r : Relay) : Completion Relay :=
  match e with
  | Connection ws => onConnection t ws r
  | Message ws message => onMessage t ws message r
  | Close ws => onClose ws r
  | Error ws => onError ws r
  end.

Fixpoint run (ticks : list Tick) (r : Relay) : Completion Relay :=
  match ticks with
  | [] => Normal r
  | k :: rest =>
      match dispatch (env k) (ev k) r with
      | Normal r' => run rest r'
      | Throw r' => Throw r'
      end
  end.

(** ** Observations *)

(** The calls of [send] on the socket [c], in order. *)
Definition calls_to (c : Conn) (w : list SendCall) : list SendCall :=
  filter (fun k => Nat.eqb (target k) c) w.

(** What the socket [c] was given for delivery, in order. *)
Definition inbox (c : Conn) (w : list SendCall) : list JSString :=
  map payload
      (filter (fun k => Nat.eqb (target k) c && SendOutcome_eqb (outcome k) Delivered) w).

(** The calls of [send] a complete pass of the loop of lines 38-42 makes
    over [clients] with the text [data]: one per open client, up to and
    including the first one that throws. *)
Fixpoint fanout_calls (t : Transport) (clients : list Conn) (data : JSString)
    : list SendCall :=
  match clients with
  | [] => []
  | client :: rest =>
      if ReadyState_eqb (readyState t client) OPEN then
        {| site := BroadcastSend; target := client; payload := data;
           outcome := sendOutcome t client |}
        :: match sendOutcome t client with
           | Thrown => []
           | _ => fanout_calls t rest data
           end
      else fanout_calls t rest data
  end.

(** The welcome as a call of [send] on [c]. *)
Definition welcome_call (c : Conn) (o : SendOutcome) : SendCall :=
  {| site := WelcomeSend; target := c; payload := JSON.stringify welcome;
     outcome := o |}.

(** In the log [w] the calls on [c] begin with its welcome and go on with
    broadcasts only. *)
Definition welcomed (c : Conn) (w : list SendCall) : Prop :=
  exists o rest,
    calls_to c w = welcome_call c o :: rest
    /\ Forall (fun k => site k = BroadcastSend) rest.

(** What the sockets [seen] so far have been sent: every element of the
    set is among them, each of them has been welcomed, and no other
    socket has been sent anything. *)
Definition welcome_order (seen : list Conn) (r : Relay) : Prop :=
  (forall c, In c (liveConnections r) -> In c seen)
  /\ (forall c, ~ In c seen -> calls_to c (wire r) = [])
  /\ (forall c, In c seen -> welcomed c (wire r)).

Definition seen_after (e : Event) (seen : list Conn) : list Conn :=
  match e with
  | Connection c => c :: seen
  | _ => seen
  end.

(** The sockets of the [connection] events, and those of the [close] and
    [error] events, in order of occurrence. *)
Fixpoint connected (es : list Event) : list Conn :=
  match es with
  | [] => []
  | Connection c :: es' => c :: connected es'
  | _ :: es' => connected es'
  end.

Fixpoint departed (es : list Event) : list Conn :=
  match es with
  | [] => []
  | Close c :: es' | Error c :: es' => c :: departed es'
  | _ :: es' => departed es'
  end.

(** [c] is not among the sockets [gone]. *)
Definition stays (gone : list Conn) (c : Conn) : bool := negb (ConnSet.has gone c).

Definition is_message (e : Event) : bool :=
  match e with Message _ _ => true | _ => false end.

Definition not_message (e : Event) : bool := negb (is_message e).

(** The event sequences the server can see: every [connection] event
    brings a socket object of its own, and the listeners of a socket exist
    only once its [connection] event has been handled. *)
Fixpoint well_formed_from (seen : list Conn) (es : list Event) : bool :=
  match es with
  | [] => true
  | Connection c :: es' => negb (ConnSet.has seen c) && well_formed_from (c :: seen) es'
  | Message c _ :: es' | Close c :: es' | Error c :: es' =>
      ConnSet.has seen c && well_formed_from seen es'
  end.

Definition well_formed (es : list Event) : bool := well_formed_from [] es.

(** The room of the examples: more than their payloads need. *)
Definition ample : nat := 1000.

(** The transport that delivers everything on open sockets. *)
Definition healthy : Transport :=
  {| readyState := fun _ => OPEN; sendOutcome := fun _ => Delivered;
     stackRoom := ample |}.

(** ** Scenarios

    The sockets, transports, payloads and states the examples below are
    evaluated on. *)

(** A JSON text written with apostrophes in place of the double quotes. *)
Fixpoint jlit (s : string) : JSString :=
  match s with
  | EmptyString => []
  | String a s' =>
      (if Nat.eqb (nat_of_ascii a) 39 then 34 else Z.of_nat (nat_of_ascii a)) :: jlit s'
  end.

(** What the relay puts on the wire for a payload, when it parses. *)
Definition reserialised (message : JSString) : option JSString :=
  option_map JSON.stringify (JSON.parse message).

Definition A : Conn := 1%nat.
Definition B : Conn := 2%nat.
Definition C : Conn := 3%nat.

Definition tick (e : Event) : Tick := {| env := healthy; ev := e |}.

(** [A], [B] and [C] have connected, in this order. *)
Definition room_ABC : Relay :=
  state_of (run [tick (Connection A); tick (Connection B); tick (Connection C)] init).

(** The payload of the spec's scenario. *)
Definition hi : JSString := jlit "{'name':'A','text':'hi'}".

Definition hi_data : JSValue :=
  JSObject [ (lit "name", JSStr (lit "A")); (lit "text", JSStr (lit "hi")) ].

(** The text of the welcome, as it goes on the wire. *)
Definition welcome_text : JSString :=
  jlit "{'name':'System','text':'Welcome to the Live Room! You are now connected.'}".

(** [A] and [B] connect; [A] fails, and its socket reports the error and
    then the closure. *)
Definition error_then_close : list Tick :=
  [tick (Connection A); tick (Connection B); tick (Error A); tick (Close A)].

(** The scenario of the spec: [A] connects, [B] connects, [A] says hi,
    [B] leaves, [A] speaks again. *)
Definition scenario : list Tick :=
  [ tick (Connection A); tick (Connection B); tick (Message A hi);
    tick (Close B); tick (Message A (jlit "{'name':'A','text':'hello?'}")) ].

(** All sockets open; [send] throws on [bad] and is accepted elsewhere. *)
Definition throws_on (bad : Conn) : Transport :=
  {| readyState := fun _ => OPEN;
     sendOutcome := fun c => if Nat.eqb c bad then Thrown else Delivered;
     stackRoom := ample |}.

(** All sockets open; [send] on [bad] returns and delivers nothing. *)
Definition drops_on (bad : Conn) : Transport :=
  {| readyState := fun _ => OPEN;
     sendOutcome := fun c => if Nat.eqb c bad then Dropped else Delivered;
     stackRoom := ample |}.

(** [gone] is closing, the others are open; every send is accepted. *)
Definition closing (gone : Conn) : Transport :=
  {| readyState := fun c => if Nat.eqb c gone then CLOSING else OPEN;
     sendOutcome := fun _ => Delivered;
     stackRoom := ample |}.

(** [n + 1] arrays, each in the one before: the value, and its text. *)
Fixpoint deep_value (n : nat) : JSValue :=
  match n with
  | O => JSArray []
  | S n' => JSArray [deep_value n']
  end.

Definition deep_text (n : nat) : JSString := repeat 91 (S n) ++ repeat 93 (S n).

(** The deep payload of the examples: five thousand arrays. *)
Definition deep_payload : JSString := deep_text 4999.

Definition deep_data : JSValue := deep_value 4999.

(** ** More observations of the relay *)

(** The texts the relay puts on the wire for the payloads [messages], in
    order: nothing for one that does not parse, and nothing for one that
    parses to a value [JSON.stringify] has no room for. *)
Fixpoint forwarded (t : Transport) (messages : list JSString) : list JSString :=
  match messages with
  | [] => []
  | message :: rest =>
      match JSON.parse message with
      | Some data =>
          match JSON.stringify_in (stackRoom t) data with
          | Some text => text :: forwarded t rest
          | None => forwarded t rest
          end
      | None => forwarded t rest
      end
  end.

(** Message events, handled one after the other with the transport [t]. *)
Definition message_ticks (t : Transport) (arrivals : list (Conn * JSString)) : list Tick :=
  map (fun a => {| env := t; ev := Message (fst a) (snd a) |}) arrivals.

(** The broadcast of the text [data] as a call of [send] on [c]. *)
Definition broadcast_call (t : Transport) (data : JSString) (c : Conn) : SendCall :=
  {| site := BroadcastSend; target := c; payload := data; outcome := sendOutcome t c |}.

Definition is_open (t : Transport) (c : Conn) : bool :=
  ReadyState_eqb (readyState t c) OPEN.

(** ** The HTTP API

    The route handlers of lines 97-266.  A request body is what
    [express.json()] left in [req.body]; a value of a handler that may be
    [undefined] is an [option], [None] standing for [undefined].  The
    database is the [sqlite3] handle [db]: what it answers to a statement
    is taken from outside, the handlers only decide what to ask and what
    to make of the answer. *)

(** [ToBoolean]. *)
Definition ToBoolean (v : option JSValue) : bool :=
  match v with
  | None => false
  | Some JSNull => false
  | Some (JSBoolean b) => b
  | Some (JSNumber (S754_zero _)) | Some (JSNumber S754_nan) => false
  | Some (JSNumber _) => true
  | Some (JSStr []) => false
  | Some (JSStr (_ :: _)) => true
  | Some (JSArray _) | Some (JSObject _) => true
  end.

Definition is_undefined (v : option JSValue) : bool :=
  match v with None => true | Some _ => false end.

(** [a || b], with [b] defined. *)
Definition or_else (a : option JSValue) (b : JSValue) : JSValue :=
  match a with
  | Some v => if ToBoolean a then v else b
  | None => b
  end.

Fixpoint own_property (k : JSString) (props : list (JSString * JSValue))
    : option JSValue :=
  match props with
  | [] => None
  | (k', v) :: rest => if JSString_eqb k k' then Some v else own_property k rest
  end.

(** [body.k] for the names the handlers take from a body: none of them is
    inherited, an array index or [length], so only an object has them, as
    own properties. *)
Definition field (body : JSValue) (k : JSString) : option JSValue :=
  match body with
  | JSObject props => own_property k props
  | _ => None
  end.

(** The SQL texts of the file. *)
Variant Statement :=
| InsertQuizResult
| InsertWellbeingCheck
| InsertStudySession
| SelectQuizResults
| SelectWellbeingChecks
| SelectStudySessions
| CountQuizResults
| AvgStressLevel
| SumDurationMinutes
| CountWellbeingChecks.

(** A call of [db.run], [db.all] or [db.get]: the statement and the
    values bound to its [?]. *)
Record Query := {
  statement : Statement;
  bound : list (option JSValue)
}.

(** The column of an aggregate row: [NULL] or a number. *)
Variant SqlValue := SqlNull | SqlNumber (x : Number).

Definition column (v : SqlValue) : JSValue :=
  match v with
  | SqlNull => JSNull
  | SqlNumber x => JSNumber x
  end.

(** What the callbacks are called with: an error with its message, or
    [this.lastID], the rows, the row. *)
Variant RunResult := RunFailed (message : JSString) | RunDone (lastID : Number).
Variant AllResult := AllFailed (message : JSString) | AllRows (rows : option JSValue).
Variant GetResult := GetFailed (message : JSString) | GetRow (row : option SqlValue).

Record Database := {
  db_run : Query -> RunResult;
  db_all : Query -> AllResult;
  db_get : Statement -> GetResult
}.

Record Response := {
  status : Z;
  body : JSValue
}.

(** What a route handler does with a request: the queries it makes, in
    order, the messages of the errors it logs, and the response it sends;
    no response when an exception leaves the handler.  What Express does
    with that exception is [express], below. *)
Record Exchange := {
  queries : list Query;
  logged : list JSString;
  response : option Response
}.

Definition zero : Number := S754_zero false.

Definition error_body (message : JSString) : JSValue :=
  JSObject [ (lit "error", JSStr message) ].

(** [return res.status(400).json({ error: 'Missing required fields' })]. *)
Definition missing_fields : Exchange :=
  {| queries := []; logged := [];
     response := Some {| status := 400;
                         body := error_body (lit "Missing required fields") |} |}.

(** The [TypeError] of destructuring [null] or [undefined], on the first
    line of the handler: nothing is asked, logged or sent by the handler
    itself. *)
Definition thrown : Exchange := {| queries := []; logged := []; response := None |}.

(** [db.run(sql, params, function(err) {...})] as the three [POST]
    handlers write it: one insert, then [500] with the message of the
    error, or the success message with [this.lastID]. *)
Definition insert (db : Database) (q : Query) (saved : JSString) : Exchange :=
  match db_run db q with
  | RunFailed message =>
      {| queries := [q]; logged := [message];
         response := Some {| status := 500; body := error_body message |} |}
  | RunDone lastID =>
      {| queries := [q]; logged := [];
         response := Some {| status := 200;
                             body := JSObject [ (lit "message", JSStr saved);
                                                (lit "id", JSNumber lastID) ] |} |}
  end.

(** [app.post('/api/quiz-results', ...)], lines 100-121. *)
Definition postQuizResults (db : Database) (req_body : option JSValue) : Exchange :=
  match req_body with
  | None | Some JSNull => thrown
  | Some b =>
      let studentName := field b (lit "studentName") in
      let score := field b (lit "score") in
      let total := field b (lit "total") in
      let quizType := field b (lit "quizType") in
      if negb (ToBoolean studentName) || is_undefined score || is_undefined total
      then missing_fields
      else insert db
             {| statement := InsertQuizResult;
                bound := [ studentName; score; total;
                           Some (or_else quizType (JSStr (lit "general"))) ] |}
             (lit "Quiz result saved successfully")
  end.

(** [app.post('/api/wellbeing-check', ...)], lines 124-145. *)
Definition postWellbeingCheck (db : Database) (req_body : option JSValue) : Exchange :=
  match req_body with
  | None | Some JSNull => thrown
  | Some b =>
      let studentName := field b (lit "studentName") in
      let mood := field b (lit "mood") in
      let stressLevel := field b (lit "stressLevel") in
      let message := field b (lit "message") in
      if negb (ToBoolean studentName) || negb (ToBoolean mood) || is_undefined stressLevel
      then missing_fields
      else insert db
             {| statement := InsertWellbeingCheck;
                bound := [ studentName; mood; stressLevel;
                           Some (or_else message (JSStr [])) ] |}
             (lit "Wellbeing check saved successfully")
  end.

(** [app.post('/api/study-sessions', ...)], lines 148-169. *)
Definition postStudySessions (db : Database) (req_body : option JSValue) : Exchange :=
  match req_body with
  | None | Some JSNull => thrown
  | Some b =>
      let studentName := field b (lit "studentName") in
      let sessionType := field b (lit "sessionType") in
      let durationMinutes := field b (lit "durationMinutes") in
      if negb (ToBoolean studentName) || negb (ToBoolean sessionType)
         || is_undefined durationMinutes
      then missing_fields
      else insert db
             {| statement := InsertStudySession;
                bound := [ studentName; sessionType; durationMinutes ] |}
             (lit "Study session saved successfully")
  end.

(** [db.all(sql, params, (err, rows) => {...})] as the three list
    handlers write it: [500] with the message of the error, or
    [rows || []]. *)
Definition select (db : Database) (q : Query) : Exchange :=
  match db_all db q with
  | AllFailed message =>
      {| queries := [q]; logged := [message];
         response := Some {| status := 500; body := error_body message |} |}
  | AllRows rows =>
      {| queries := [q]; logged := [];
         response := Some {| status := 200; body := or_else rows (JSArray []) |} |}
  end.

(** [app.get('/api/quiz-results', ...)], lines 172-180. *)
Definition getQuizResults (db : Database) : Exchange :=
  select db {| statement := SelectQuizResults; bound := [] |}.

(** [app.get('/api/wellbeing-checks/:studentName', ...)], lines 183-197. *)
Definition getWellbeingChecks (db : Database) (studentName : JSString) : Exchange :=
  select db {| statement := SelectWellbeingChecks; bound := [Some (JSStr studentName)] |}.

(** [app.get('/api/study-sessions/:studentName', ...)], lines 200-214. *)
Definition getStudySessions (db : Database) (studentName : JSString) : Exchange :=
  select db {| statement := SelectStudySessions; bound := [Some (JSStr studentName)] |}.

(** [Math.round]: the nearest integer, the larger one on a tie; a result
    that is zero keeps the sign of the argument. *)
Definition Math_round (x : Number) : Number :=
  match x with
  | S754_finite s m e =>
      if 0 <=? e then x
      else
        let d := 2 ^ (- e) in
        let n := (2 * (if s then Z.neg m else Z.pos m) + d) / (2 * d) in
        if n =? 0 then S754_zero s else binary_normalize Num.prec Num.emax n 0 false
  | _ => x
  end.

Definition ten : Number := Num.of_decimal false 10 0.

(** [Math.round(x * 10) / 10]. *)
Definition round1 (x : Number) : Number :=
  SFdiv Num.prec Num.emax (Math_round (SFmul Num.prec Num.emax x ten)) ten.

(** [row ? row.column : 0]. *)
Definition column_or_zero (row : option SqlValue) : JSValue :=
  match row with
  | Some v => column v
  | None => JSNumber zero
  end.

(** [row && row.avg_stress ? Math.round(row.avg_stress * 10) / 10 : 0]. *)
Definition average_stress (row : option SqlValue) : JSValue :=
  match row with
  | Some (SqlNumber x) =>
      if ToBoolean (Some (JSNumber x)) then JSNumber (round1 x) else JSNumber zero
  | _ => JSNumber zero
  end.

Definition get_query (s : Statement) : Query := {| statement := s; bound := [] |}.

Definition get_failed (asked : list Statement) (message : JSString) : Exchange :=
  {| queries := map get_query asked; logged := [message];
     response := Some {| status := 500; body := error_body message |} |}.

(** The four statements of the dashboard, in the order of the nesting. *)
Definition dashboard_statements : list Statement :=
  [CountQuizResults; AvgStressLevel; SumDurationMinutes; CountWellbeingChecks].

(** [app.get('/api/dashboard-stats', ...)], lines 217-257: four
    [db.get], each in the callback of the one before. *)
Definition getDashboardStats (db : Database) : Exchange :=
  match db_get db CountQuizResults with
  | GetFailed message => get_failed [CountQuizResults] message
  | GetRow quizzes =>
      match db_get db AvgStressLevel with
      | GetFailed message => get_failed [CountQuizResults; AvgStressLevel] message
      | GetRow stress =>
          match db_get db SumDurationMinutes with
          | GetFailed message =>
              get_failed [CountQuizResults; AvgStressLevel; SumDurationMinutes] message
          | GetRow study =>
              match db_get db CountWellbeingChecks with
              | GetFailed message => get_failed dashboard_statements message
              | GetRow checks =>
                  {| queries := map get_query dashboard_statements;
                     logged := [];
                     response :=
                       Some {| status := 200;
                               body := JSObject
                                 [ (lit "totalQuizzes", column_or_zero quizzes);
                                   (lit "averageStress", average_stress stress);
                                   (lit "totalStudyMinutes", column_or_zero study);
                                   (lit "totalWellbeingChecks", column_or_zero checks) ]
                            |} |}
              end
          end
      end
  end.

(** [app.get('/api/health', ...)], lines 260-266, answered at the time
    whose ISO text is [now]. *)
Definition getHealth (r : Relay) (now : JSString) : Response :=
  {| status := 200;
     body := JSObject [ (lit "status", JSStr (lit "OK"));
                        (lit "timestamp", JSStr now);
                        (lit "liveConnections",
                         JSNumber (Num.of_decimal false (Z.of_nat (activeCount r)) 0)) ] |}.

(** What the console gets from [console.error]: the error of a query,
    logged by the handler that made it, or the exception the error
    middleware was given. *)
Variant ErrorLog :=
| DatabaseError (message : JSString)
| ServerError.

(** A request as it ends: the queries made, what was logged, and the
    response sent. *)
Record Answered := {
  queried : list Query;
  errors : list ErrorLog;
  answer : Response
}.

(** [res.status(500).json({ error: 'Internal server error' })]. *)
Definition internal_server_error : Response :=
  {| status := 500; body := error_body (lit "Internal server error") |}.

(** A route handler under Express.  An exception that leaves the handler
    is given to the error middleware of lines 279-282, which logs it and
    answers [500]; a handler that has answered is left alone. *)
Definition express (ex : Exchange) : Answered :=
  match response ex with
  | Some r =>
      {| queried := queries ex; errors := map DatabaseError (logged ex); answer := r |}
  | None =>
      {| queried := queries ex;
         errors := map DatabaseError (logged ex) ++ [ServerError];
         answer := internal_server_error |}
  end.

(** The exchanges of the handlers that use the database. *)
Inductive served (db : Database) : Exchange -> Prop :=
| served_postQuizResults b : served db (postQuizResults db b)
| served_postWellbeingCheck b : served db (postWellbeingCheck db b)
| served_postStudySessions b : served db (postStudySessions db b)
| served_getQuizResults : served db (getQuizResults db)
| served_getWellbeingChecks name : served db (getWellbeingChecks db name)
| served_getStudySessions name : served db (getStudySessions db name)
| served_getDashboardStats : served db (getDashboardStats db).

(** The exchanges of the three handlers that save. *)
Variant posted (db : Database) : Exchange -> Prop :=
| posted_postQuizResults b : posted db (postQuizResults db b)
| posted_postWellbeingCheck b : posted db (postWellbeingCheck db b)
| posted_postStudySessions b : posted db (postStudySessions db b).

(** The [?] of each SQL text. *)
Definition placeholders (s : Statement) : nat :=
  match s with
  | InsertQuizResult | InsertWellbeingCheck => 4
  | InsertStudySession => 3
  | SelectWellbeingChecks | SelectStudySessions => 1
  | SelectQuizResults
  | CountQuizResults | AvgStressLevel | SumDurationMinutes | CountWellbeingChecks => 0
  end%nat.

Definition is_insert (s : Statement) : bool :=
  match s with
  | InsertQuizResult | InsertWellbeingCheck | InsertStudySession => true
  | _ => false
  end.

(** The message of the error the database answers a query with, if it
    does: inserts go through [db.run], lists through [db.all],
    aggregates through [db.get]. *)
Definition failure (db : Database) (q : Query) : option JSString :=
  match statement q with
  | InsertQuizResult | InsertWellbeingCheck | InsertStudySession =>
      match db_run db q with RunFailed message => Some message | RunDone _ => None end
  | SelectQuizResults | SelectWellbeingChecks | SelectStudySessions =>
      match db_all db q with AllFailed message => Some message | AllRows _ => None end
  | CountQuizResults | AvgStressLevel | SumDurationMinutes | CountWellbeingChecks =>
      match db_get db (statement q) with
      | GetFailed message => Some message
      | GetRow _ => None
      end
  end.

(** What a handler that saves can come to: an exception, the answer
    [400], or one insert with a value for every [?], the first of them
    truthy. *)
Variant post_outcome (db : Database) (ex : Exchange) : Prop :=
| post_thrown : ex = thrown -> post_outcome db ex
| post_missing : ex = missing_fields -> post_outcome db ex
| post_insert q saved :
    ex = insert db q saved ->
    is_insert (statement q) = true ->
    length (bound q) = placeholders (statement q) ->
    Forall (fun p => exists x, p = Some x) (bound q) ->
    (exists name, hd_error (bound q) = Some name /\ ToBoolean name = true) ->
    post_outcome db ex.

(** A database that accepts every insert with the id [7] and whose
    tables are empty. *)
Definition fresh_db : Database :=
  {| db_run := fun _ => RunDone (Num.of_decimal false 7 0);
     db_all := fun _ => AllRows (Some (JSArray []));
     db_get := fun s => match s with
                        | CountQuizResults | CountWellbeingChecks =>
                            GetRow (Some (SqlNumber zero))
                        | _ => GetRow (Some SqlNull)
                        end |}.

(** A database that fails on everything. *)
Definition broken_db : Database :=
  {| db_run := fun _ => RunFailed (lit "disk I/O error");
     db_all := fun _ => AllFailed (lit "disk I/O error");
     db_get := fun _ => GetFailed (lit "disk I/O error") |}.

(** A database whose third aggregate fails. *)
Definition half_broken_db : Database :=
  {| db_run := db_run fresh_db;
     db_all := db_all fresh_db;
     db_get := fun s => match s with
                        | SumDurationMinutes => GetFailed (lit "database is locked")
                        | _ => db_get fresh_db s
                        end |}.

(** A database whose checks average [1e308]. *)
Definition huge_average_db : Database :=
  {| db_run := db_run fresh_db;
     db_all := db_all fresh_db;
     db_get := fun s => match s with
                        | AvgStressLevel =>
                            GetRow (Some (SqlNumber (Num.of_decimal false 1 308)))
                        | _ => db_get fresh_db s
                        end |}.

(** The body of a request, from its text. *)
Definition body_of (text : string) : option JSValue := JSON.parse (jlit text).

(* ================================================================== *)
(** * Part II.  Properties *)
(* ================================================================== *)

(** ** [JSON.parse] after [JSON.stringify] *)

Lemma hex_value_hex_digit (d : Z) : 0 <= d < 16 -> hex_value (hex_digit d) = Some d.
Proof.
  intros H.
  assert (d = 0 \/ d = 1 \/ d = 2 \/ d = 3 \/ d = 4 \/ d = 5 \/ d = 6 \/ d = 7 \/ d = 8
          \/ d = 9 \/ d = 10 \/ d = 11 \/ d = 12 \/ d = 13 \/ d = 14 \/ d = 15) as Hd by lia.
  repeat (destruct Hd as [-> | Hd]; [reflexivity |]). subst. reflexivity.
Qed.

Lemma parse_string_chars_plain (c : CodeUnit) (r acc : JSString) :
  c <> 34 -> 32 <= c -> c <> 92 ->
  parse_string_chars (c :: r) acc = parse_string_chars r (c :: acc).
Proof.
  intros H1 H2 H3. cbn [parse_string_chars].
  apply Z.eqb_neq in H1, H3. rewrite H1, H3.
  assert ((c <? 32) = false) as -> by (apply Z.ltb_ge; lia). reflexivity.
Qed.

Lemma parse_string_chars_escape (c : CodeUnit) (r acc : JSString) :
  code_unit c ->
  parse_string_chars (UnicodeEscape c ++ r) acc = parse_string_chars r (c :: acc).
Proof.
  intros Hc. unfold code_unit in Hc. unfold UnicodeEscape.
  cbn [app parse_string_chars].
  change (92 =? 34) with false. change (92 <? 32) with false.
  change (92 =? 92) with true. change (117 =? 117) with true. cbv iota.
  rewrite !hex_value_hex_digit by (apply Z.mod_pos_bound; lia).
  do 2 f_equal.
  Z.div_mod_to_equations. lia.
Qed.

Lemma quote_chars_roundtrip_bounded (n : nat) :
  forall s, (length s <= n)%nat -> Forall code_unit s ->
  forall acc rest,
    parse_string_chars (quote_chars s ++ 34 :: rest) acc = Some (rev acc ++ s, rest).
Proof.
  induction n as [| n IH]; intros s Hlen Hs acc rest.
  - destruct s; [| simpl in Hlen; lia]. simpl.
    now rewrite app_nil_r.
  - destruct s as [| c r]; [simpl; now rewrite app_nil_r |].
    inversion Hs as [| ? ? Hc Hr]; subst. simpl in Hlen.
    assert (forall acc', parse_string_chars (quote_chars r ++ 34 :: rest) (c :: acc')
                         = Some (rev acc' ++ c :: r, rest)) as Hnext.
    { intros acc'. rewrite IH by (auto; lia). simpl. now rewrite <- app_assoc. }
    cbn [quote_chars].
    destruct (is_high_surrogate c) eqn:Eh.
    { unfold is_high_surrogate in Eh. apply andb_prop in Eh. destruct Eh as [E1 E2].
      apply Z.leb_le in E1, E2.
      destruct r as [| d r'].
      - rewrite parse_string_chars_escape by assumption. apply (Hnext acc).
      - destruct (is_low_surrogate d) eqn:El.
        + unfold is_low_surrogate in El. apply andb_prop in El. destruct El as [E3 E4].
          apply Z.leb_le in E3, E4.
          cbn [app]. rewrite !parse_string_chars_plain by lia.
          inversion Hr; subst. rewrite IH by (auto; simpl in Hlen; lia).
          simpl. now rewrite <- !app_assoc.
        + rewrite <- app_assoc, parse_string_chars_escape by assumption. apply (Hnext acc). }
    destruct (is_low_surrogate c) eqn:El.
    { rewrite <- app_assoc, parse_string_chars_escape by assumption. apply (Hnext acc). }
    unfold is_high_surrogate, is_low_surrogate in Eh, El.
    destruct (Z.eqb_spec c 8) as [-> | N8]; [apply (Hnext acc) |].
    destruct (Z.eqb_spec c 9) as [-> | N9]; [apply (Hnext acc) |].
    destruct (Z.eqb_spec c 10) as [-> | N10]; [apply (Hnext acc) |].
    destruct (Z.eqb_spec c 12) as [-> | N12]; [apply (Hnext acc) |].
    destruct (Z.eqb_spec c 13) as [-> | N13]; [apply (Hnext acc) |].
    destruct (Z.eqb_spec c 34) as [-> | N34]; [apply (Hnext acc) |].
    destruct (Z.eqb_spec c 92) as [-> | N92]; [apply (Hnext acc) |].
    destruct (Z.ltb_spec c 32) as [L | L].
    + rewrite <- app_assoc, parse_string_chars_escape by assumption. apply (Hnext acc).
    + cbn [app]. rewrite parse_string_chars_plain by lia. apply (Hnext acc).
Qed.

Lemma QuoteJSONString_roundtrip (s rest : JSString) :
  Forall code_unit s ->
  parse_string_chars (tl (QuoteJSONString s) ++ rest) [] = Some (s, rest).
Proof.
  intros Hs. unfold QuoteJSONString. cbn [app tl]. rewrite <- app_assoc.
  apply (quote_chars_roundtrip_bounded (length s) s (le_n _) Hs [] rest).
Qed.

Lemma shaped_array (N : Number -> Prop) (elements : list JSValue) :
  shaped N (JSArray elements) <-> Forall (shaped N) elements.
Proof.
  induction elements as [| e l IH]; simpl; split; auto.
  - intros [H1 H2]. constructor; [assumption | now apply IH].
  - intros H. inversion H; subst. split; [assumption | now apply IH].
Qed.

Lemma shaped_object (N : Number -> Prop) (properties : list (JSString * JSValue)) :
  shaped N (JSObject properties)
  <-> keys_ordered (map fst properties)
      /\ Forall (fun kv => Forall code_unit (fst kv) /\ shaped N (snd kv)) properties.
Proof.
  simpl. apply and_iff_compat_l.
  induction properties as [| kv l IH]; simpl; split; auto.
  - intros [H1 H2]. constructor; [assumption | now apply IH].
  - intros H. inversion H; subst. split; [assumption | now apply IH].
Qed.

Lemma canonical_array (elements : list JSValue) :
  canonical (JSArray elements) <-> Forall canonical elements.
Proof. apply shaped_array. Qed.

Lemma canonical_object (properties : list (JSString * JSValue)) :
  canonical (JSObject properties)
  <-> keys_ordered (map fst properties)
      /\ Forall (fun kv => Forall code_unit (fst kv) /\ canonical (snd kv)) properties.
Proof. apply shaped_object. Qed.

Lemma JSString_eqb_eq (a b : JSString) : JSString_eqb a b = true <-> a = b.
Proof.
  revert b. induction a as [| x a IH]; intros [| y b]; simpl; split; try congruence.
  - intros H. apply andb_prop in H. destruct H as [H1 H2].
    apply Z.eqb_eq in H1. apply IH in H2. congruence.
  - intros H. injection H as -> ->. rewrite Z.eqb_refl. now apply IH.
Qed.

Lemma has_property_In (k : JSString) (props : list (JSString * JSValue)) :
  has_property k props = true <-> In k (map fst props).
Proof.
  induction props as [| [k' v'] props IH]; simpl; [split; [discriminate | tauto] |].
  rewrite orb_true_iff, IH, JSString_eqb_eq. split; intros [H | H]; auto.
Qed.

Lemma insert_index_last (i : Z) (k : JSString) (v : JSValue)
    (props : list (JSString * JSValue)) :
  (forall k', In k' (map fst props) -> exists j, array_index k' = Some j /\ j < i) ->
  insert_index i k v props = props ++ [(k, v)].
Proof.
  induction props as [| [k' v'] props IH]; simpl; intros H; [reflexivity |].
  destruct (H k') as (j & -> & Hj); [now left |].
  apply Z.ltb_lt in Hj. rewrite Hj. f_equal. apply IH. intros; apply H; now right.
Qed.

Lemma CreateDataProperty_last (props : list (JSString * JSValue)) (k : JSString)
    (v : JSValue) :
  key_goes_last (map fst props) k ->
  CreateDataProperty props k v = props ++ [(k, v)].
Proof.
  intros [Hnew Hord]. unfold CreateDataProperty.
  destruct (has_property k props) eqn:E; [apply has_property_In in E; contradiction |].
  destruct (array_index k); [now apply insert_index_last | reflexivity].
Qed.

Lemma value_start_cases (c : CodeUnit) :
  value_start c = true ->
  c = 123 \/ c = 91 \/ c = 34 \/ c = 110 \/ c = 116 \/ c = 102 \/ c = 45
  \/ 48 <= c <= 57.
Proof.
  unfold value_start, is_digit. rewrite !orb_true_iff, andb_true_iff, !Z.eqb_eq, !Z.leb_le.
  tauto.
Qed.

Lemma value_start_not_ws (c : CodeUnit) (r : JSString) :
  value_start c = true -> skip_ws (c :: r) = c :: r /\ c <> 93 /\ c <> 125.
Proof.
  intros H. apply value_start_cases in H.
  assert (is_ws c = false) as Hws.
  { unfold is_ws. rewrite !orb_false_iff, !Z.eqb_neq. lia. }
  simpl. rewrite Hws. repeat split; lia.
Qed.

Lemma number_head (x : Number) :
  number_survives x ->
  exists c s, Num.toString x = c :: s /\ (c = 45 \/ is_digit c = true).
Proof.
  intros [_ H]. specialize (H [] I). rewrite app_nil_r in H.
  destruct (Num.toString x) as [| c s]; [discriminate |].
  exists c, s. split; [reflexivity |].
  unfold parse_number in H.
  destruct (Z.eqb_spec c 45) as [-> | Hne]; [now left | right].
  unfold parse_int_part in H.
  destruct (Z.eqb_spec c 48) as [-> | Hne']; [reflexivity |].
  destruct (is_digit c); [reflexivity | discriminate].
Qed.

Lemma parse_value_number (f : nat) (c : CodeUnit) (r : JSString) :
  c = 45 \/ is_digit c = true ->
  parse_value (S f) (c :: r)
  = match parse_number (c :: r) with
    | Some (x, r') => Some (JSNumber x, r')
    | None => None
    end.
Proof.
  intros H.
  assert (c = 45 \/ 48 <= c <= 57) as Hc.
  { destruct H as [-> | H]; [now left | right].
    unfold is_digit in H. apply andb_prop in H. destruct H as [H1 H2].
    apply Z.leb_le in H1, H2. lia. }
  assert (is_ws c = false) as Hws.
  { unfold is_ws. rewrite !orb_false_iff, !Z.eqb_neq. lia. }
  cbn [parse_value skip_ws]. rewrite Hws.
  assert ((c =? 123) = false) as -> by (apply Z.eqb_neq; lia).
  assert ((c =? 91) = false) as -> by (apply Z.eqb_neq; lia).
  assert ((c =? 34) = false) as -> by (apply Z.eqb_neq; lia).
  assert ((c =? 110) = false) as -> by (apply Z.eqb_neq; lia).
  assert ((c =? 116) = false) as -> by (apply Z.eqb_neq; lia).
  assert ((c =? 102) = false) as -> by (apply Z.eqb_neq; lia).
  assert (((c =? 45) || is_digit c) = true) as ->; [| reflexivity].
  destruct H as [-> | ->]; [reflexivity | apply orb_true_r].
Qed.

Lemma parse_value_string (f : nat) (r : JSString) :
  parse_value (S f) (34 :: r)
  = match parse_string_chars r [] with
    | Some (str, r') => Some (JSStr str, r')
    | None => None
    end.
Proof. reflexivity. Qed.

Lemma parse_value_array (f : nat) (c : CodeUnit) (r : JSString) :
  value_start c = true ->
  parse_value (S f) (91 :: c :: r) = parse_elements f (c :: r) [].
Proof.
  intros H. destruct (value_start_not_ws c r H) as (Hws & H93 & _).
  cbn [parse_value]. change (skip_ws (91 :: c :: r)) with (91 :: c :: r).
  change (91 =? 123) with false. change (91 =? 91) with true. cbv iota.
  rewrite Hws. apply Z.eqb_neq in H93. now rewrite H93.
Qed.

Lemma parse_value_object (f : nat) (r : JSString) :
  parse_value (S f) (123 :: 34 :: r) = parse_members f (34 :: r) [].
Proof. reflexivity. Qed.

Lemma parse_elements_step (f : nat) (s : JSString) (acc : list JSValue) :
  parse_elements (S f) s acc
  = match parse_value f s with
    | None => None
    | Some (v, r) =>
        match skip_ws r with
        | c :: r1 =>
            if c =? 44 then parse_elements f r1 (v :: acc)
            else if c =? 93 then Some (JSArray (rev (v :: acc)), r1)
            else None
        | [] => None
        end
    end.
Proof. reflexivity. Qed.

Lemma parse_members_step (f : nat) (r : JSString) (props : list (JSString * JSValue)) :
  parse_members (S f) (34 :: r) props
  = match parse_string_chars r [] with
    | None => None
    | Some (k, r1) =>
        match skip_ws r1 with
        | c :: r2 =>
            if c =? 58 then
              match parse_value f r2 with
              | None => None
              | Some (v, r3) =>
                  let props' := CreateDataProperty props k v in
                  match skip_ws r3 with
                  | c' :: r4 =>
                      if c' =? 44 then parse_members f (skip_ws r4) props'
                      else if c' =? 125 then Some (JSObject props', r4)
                      else None
                  | [] => None
                  end
              end
            else None
        | [] => None
        end
    end.
Proof. reflexivity. Qed.

Lemma stringify_head (v : JSValue) :
  canonical v -> exists c s, stringify v = c :: s /\ value_start c = true.
Proof.
  destruct v as [| [|] | x | s | elements | properties]; intros Hv;
    try (eexists; eexists; split; reflexivity).
  cbn [stringify]. destruct Hv as [Hfin Hx]. rewrite Hfin.
  destruct (number_head x (conj Hfin Hx)) as (c & s & -> & Hc).
  exists c, s. split; [reflexivity |].
  unfold value_start. destruct Hc as [-> | ->]; [reflexivity |].
  now rewrite !orb_true_r.
Qed.

Lemma parse_elements_stringify (elements : list JSValue) :
  elements <> [] ->
  Forall roundtrips elements -> Forall canonical elements ->
  forall f acc rest,
    (chain (map need elements) <= f)%nat ->
    parse_elements f (join (map stringify elements) ++ 93 :: rest) acc
    = Some (JSArray (rev acc ++ elements), rest).
Proof.
  induction elements as [| e l IH]; intros Hne Hrt Hcan f acc rest Hf; [congruence |].
  inversion Hrt as [| ? ? He Hl]; subst. inversion Hcan as [| ? ? Ce Cl]; subst.
  simpl in Hf. destruct f as [| f]; [lia |]. apply le_S_n in Hf.
  rewrite parse_elements_step.
  destruct l as [| e2 l'].
  - cbn [map join]. rewrite (He Ce f (93 :: rest)); simpl; auto; try lia.
  - assert (join (map stringify (e :: e2 :: l')) ++ 93 :: rest
            = stringify e ++ 44 :: (join (map stringify (e2 :: l')) ++ 93 :: rest)) as ->.
    { cbn [map join]. now rewrite <- !app_assoc. }
    rewrite (He Ce f (44 :: _)); [| lia | simpl; auto].
    cbn [skip_ws is_ws]. change (is_ws 44) with false. cbv iota.
    change (44 =? 44) with true. cbv iota.
    rewrite (IH ltac:(discriminate) Hl Cl f (e :: acc) rest) by lia.
    simpl. now rewrite <- app_assoc.
Qed.

Lemma keys_ordered_middle (pre : list JSString) (k : JSString) (post : list JSString) :
  keys_ordered (pre ++ k :: post) -> key_goes_last pre k.
Proof.
  induction pre as [| a pre IH]; simpl; intros H.
  - split; [tauto |]. destruct (array_index k); [intros k' [] | exact I].
  - destruct H as [Ha H]. destruct (IH H) as [Hnew Hord].
    apply Forall_app in Ha. destruct Ha as [_ Ha].
    inversion Ha as [| ? ? [Hne Hidx] _]; subst.
    split; [intros [-> | Hin]; tauto |].
    destruct (array_index k) as [i |] eqn:E; [| exact I].
    intros k' [<- | Hin]; [now apply Hidx | now apply Hord].
Qed.

Lemma parse_members_stringify (properties : list (JSString * JSValue)) :
  properties <> [] ->
  Forall (fun kv => roundtrips (snd kv)) properties ->
  Forall (fun kv => Forall code_unit (fst kv) /\ canonical (snd kv)) properties ->
  forall f done rest,
    keys_ordered (map fst (done ++ properties)) ->
    (chain (map (fun kv => need (snd kv)) properties) <= f)%nat ->
    parse_members f (join (map member_text properties) ++ 125 :: rest) done
    = Some (JSObject (done ++ properties), rest).
Proof.
  induction properties as [| [k v] l IH]; intros Hne Hrt Hcan f done rest Hkeys Hf;
    [congruence |].
  inversion Hrt as [| ? ? Hv Hl]; subst. inversion Hcan as [| ? ? [Ck Cv] Cl]; subst.
  simpl in Hv, Ck, Cv.
  simpl in Hf. destruct f as [| f]; [lia |]. apply le_S_n in Hf.
  assert (key_goes_last (map fst done) k) as Hlast.
  { rewrite map_app in Hkeys. now apply (keys_ordered_middle _ _ (map fst l)). }
  assert (forall tail,
            join (map member_text ((k, v) :: l)) ++ 125 :: rest
            = 34 :: quote_chars k ++ 34 :: 58 :: stringify v ++ tail ->
            delimited tail ->
            parse_members (S f) (join (map member_text ((k, v) :: l)) ++ 125 :: rest) done
            = match skip_ws tail with
              | c' :: r4 =>
                  if c' =? 44 then parse_members f (skip_ws r4) (done ++ [(k, v)])
                  else if c' =? 125 then Some (JSObject (done ++ [(k, v)]), r4)
                  else None
              | [] => None
              end) as Hstep.
  { intros tail -> Htail. rewrite parse_members_step.
    rewrite (quote_chars_roundtrip_bounded (length k) k (le_n _) Ck [] _).
    cbn [rev app skip_ws]. change (is_ws 58) with false. cbv iota.
    change (58 =? 58) with true. cbv iota.
    rewrite (Hv Cv f tail) by (auto; lia).
    cbv zeta. now rewrite (CreateDataProperty_last done k v Hlast). }
  destruct l as [| kv2 l'].
  - rewrite (Hstep (125 :: rest)).
    + reflexivity.
    + cbn [map join member_text fst snd QuoteJSONString app].
      now rewrite <- !app_assoc.
    + simpl. auto.
  - rewrite (Hstep (44 :: (join (map member_text (kv2 :: l')) ++ 125 :: rest))).
    + cbn [skip_ws]. change (is_ws 44) with false. cbv iota.
      change (44 =? 44) with true. cbv iota.
      assert (skip_ws (join (map member_text (kv2 :: l')) ++ 125 :: rest)
              = join (map member_text (kv2 :: l')) ++ 125 :: rest) as ->.
      { destruct l'; reflexivity. }
      rewrite (IH ltac:(discriminate) Hl Cl f (done ++ [(k, v)]) rest).
      * now rewrite <- app_assoc.
      * now rewrite <- app_assoc.
      * lia.
    + cbn [map join member_text fst snd QuoteJSONString app].
      now rewrite <- !app_assoc.
    + simpl. auto.
Qed.

Theorem parse_value_stringify (v : JSValue) : roundtrips v.
Proof.
  induction v as [| b | x | s | elements IH | properties IH] using JSValue_nested_ind;
    intros Hv fuel rest Hfuel Hrest;
    (destruct fuel as [| f]; [simpl in Hfuel; lia |]).
  - reflexivity.
  - destruct b; reflexivity.
  - destruct (number_head x Hv) as (c & s & Hs & Hc).
    destruct Hv as [Hfin Hx]. cbn [stringify]. rewrite Hfin, Hs.
    cbn [app]. rewrite (parse_value_number f c _ Hc).
    change (c :: s ++ rest) with ((c :: s) ++ rest). rewrite <- Hs.
    now rewrite (Hx rest Hrest).
  - cbn [stringify QuoteJSONString app]. rewrite parse_value_string, <- app_assoc.
    cbn [app]. now rewrite (quote_chars_roundtrip_bounded (length s) s (le_n _) Hv [] _).
  - apply canonical_array in Hv. simpl in Hfuel. apply le_S_n in Hfuel.
    destruct elements as [| e l]; [reflexivity |].
    assert (exists c s, join (map stringify (e :: l)) = c :: s /\ value_start c = true)
      as (c & s & Hjoin & Hc).
    { inversion Hv; subst. destruct (stringify_head e) as (c & s & Hs & Hc); auto.
      destruct l; cbn [map join]; rewrite Hs; cbn [app]; eauto. }
    cbn [stringify app]. rewrite <- app_assoc. cbn [app].
    pose proof (parse_elements_stringify (e :: l) ltac:(discriminate) IH Hv f [] rest Hfuel)
      as Hel.
    rewrite Hjoin in *. cbn [app] in *. now rewrite parse_value_array.
  - apply canonical_object in Hv. destruct Hv as [Hkeys Hv].
    simpl in Hfuel. apply le_S_n in Hfuel.
    destruct properties as [| [k v] l]; [reflexivity |].
    pose proof (parse_members_stringify ((k, v) :: l) ltac:(discriminate) IH Hv f [] rest
                  Hkeys Hfuel) as Hm.
    cbn [stringify].
    change (fun kv : JSString * JSValue =>
              QuoteJSONString (fst kv) ++ [58] ++ stringify (snd kv)) with member_text.
    cbn [app]. rewrite <- app_assoc. cbn [app].
    assert (exists s, join (map member_text ((k, v) :: l)) = 34 :: s) as (s & Hjoin).
    { destruct l; cbn [map join member_text QuoteJSONString fst app]; eauto. }
    change (parse_value (S f) (123 :: join (map member_text ((k, v) :: l)) ++ 125 :: rest)
            = Some (JSObject ((k, v) :: l), rest)).
    rewrite Hjoin in *. cbn [app] in *. now rewrite parse_value_object.
Qed.

Lemma chain_le_join (ns : list nat) (ss : list JSString) :
  Forall2 (fun n s => (n <= length s)%nat) ns ss ->
  (chain ns <= length (join ss) + 1)%nat.
Proof.
  induction 1 as [| n s ns ss Hn Hrest IH]; simpl; [lia |].
  destruct ss as [| s2 ss'].
  - inversion Hrest; subst. simpl. lia.
  - rewrite !length_app. simpl length in *. lia.
Qed.

Lemma need_le_length (v : JSValue) :
  canonical v -> (need v <= length (stringify v))%nat.
Proof.
  induction v as [| b | x | s | elements IH | properties IH] using JSValue_nested_ind;
    intros Hv.
  - simpl. lia.
  - destruct b; simpl; lia.
  - destruct (number_head x Hv) as (c & s & Hs & _). destruct Hv as [Hfin _].
    cbn [stringify need]. rewrite Hfin, Hs. simpl. lia.
  - cbn [stringify need QuoteJSONString app]. simpl length. lia.
  - apply canonical_array in Hv. cbn [stringify need]. rewrite !length_app. cbn [length].
    assert (chain (map need elements) <= length (join (map stringify elements)) + 1)%nat;
      [| lia].
    apply chain_le_join. clear - IH Hv.
    induction elements as [| e l IHl]; simpl; constructor;
      inversion IH; inversion Hv; subst; auto.
  - apply canonical_object in Hv. destruct Hv as [_ Hv].
    cbn [stringify need]. rewrite !length_app. cbn [length].
    assert (chain (map (fun kv => need (snd kv)) properties)
            <= length (join (map member_text properties)) + 1)%nat as Hle.
    { apply chain_le_join. clear - IH Hv.
      induction properties as [| kv l IHl]; simpl; constructor;
        inversion IH; inversion Hv; subst; auto.
      unfold member_text. rewrite !length_app.
      assert (need (snd kv) <= length (stringify (snd kv)))%nat by tauto.
      unfold JSString, CodeUnit in *. lia. }
    unfold member_text in Hle. unfold JSString, CodeUnit in *. lia.
Qed.

Theorem stringify_then_parse (v : JSValue) :
  canonical v -> JSON.parse (JSON.stringify v) = Some v.
Proof.
  intros Hv. unfold parse.
  pose proof (need_le_length v Hv) as Hneed.
  pose proof (parse_value_stringify v Hv (2 * length (stringify v) + 2)%nat [] ltac:(lia) I)
    as Hparse.
  rewrite app_nil_r in Hparse. now rewrite Hparse.
Qed.

Lemma shaped_numbers (N : Number -> Prop) (v : JSValue) :
  shaped (fun _ => True) v -> Forall N (numbers_of v) -> shaped N v.
Proof.
  induction v as [| b | x | s | elements IH | properties IH] using JSValue_nested_ind;
    intros Hv Hn; auto.
  - simpl in *. now inversion Hn.
  - apply shaped_array in Hv. apply shaped_array.
    cbn [numbers_of] in Hn. apply Forall_flat_map in Hn.
    rewrite Forall_forall in *. auto.
  - apply shaped_object in Hv. destruct Hv as [Hkeys Hv]. apply shaped_object.
    split; [assumption |].
    cbn [numbers_of] in Hn. apply Forall_flat_map in Hn.
    rewrite Forall_forall in *. intros kv Hkv.
    split; [now apply Hv | apply IH; auto; now apply Hv].
Qed.

(** *** What the lexers leave *)

Lemma skip_ws_Forall (P : CodeUnit -> Prop) (s : JSString) :
  Forall P s -> Forall P (skip_ws s).
Proof.
  induction 1 as [| c r Hc Hr IH]; simpl; [constructor |].
  destruct (is_ws c); auto.
Qed.

Lemma take_digits_Forall (P : CodeUnit -> Prop) (s : JSString) :
  Forall P s -> forall acc n, Forall P (snd (take_digits s acc n)).
Proof.
  induction 1 as [| c r Hc Hr IH]; intros acc n; simpl; [constructor |].
  destruct (is_digit c); simpl; auto.
Qed.

(** The three parts of a number, one after the other, in a hypothesis
    that says the number was read. *)
Ltac number_parts :=
  match goal with
  | H : context [parse_int_part ?s] |- _ =>
      destruct (parse_int_part s) as [[? ?] |]; [| discriminate H]
  end;
  match goal with
  | H : context [parse_frac_part ?m ?s] |- _ =>
      destruct (parse_frac_part m s) as [[[? ?] ?] |]; [| discriminate H]
  end;
  match goal with
  | H : context [parse_exp_part ?s] |- _ =>
      destruct (parse_exp_part s) as [[? ?] |]; [| discriminate H]
  end;
  congruence.

Lemma parse_number_Forall (P : CodeUnit -> Prop) (s r : JSString) (x : Number) :
  Forall P s -> parse_number s = Some (x, r) -> Forall P r.
Proof.
  intros Hs H. unfold parse_number in H.
  assert (exists s1, Forall P s1
                     /\ match parse_int_part s1 with
                        | None => None
                        | Some (m, s2) =>
                            match parse_frac_part m s2 with
                            | None => None
                            | Some (m', nfrac, s3) =>
                                match parse_exp_part s3 with
                                | None => None
                                | Some (e, s4) => Some (s4)
                                end
                            end
                        end = Some r) as (s1 & Hs1 & H1).
  { destruct s as [| c s'].
    - exists []. split; [constructor |].
      number_parts.
    - inversion Hs; subst.
      destruct (c =? 45).
      + exists s'. split; [assumption |].
        number_parts.
      + exists (c :: s'). split; [assumption |].
        number_parts. }
  clear H Hs.
  destruct (parse_int_part s1) as [[m s2] |] eqn:E1; [| discriminate].
  destruct (parse_frac_part m s2) as [[[m' nf] s3] |] eqn:E2; [| discriminate].
  destruct (parse_exp_part s3) as [[e s4] |] eqn:E3; [| discriminate].
  injection H1 as <-.
  assert (Forall P s2) as Hs2.
  { unfold parse_int_part in E1. destruct s1 as [| c r1]; [discriminate |].
    inversion Hs1; subst. destruct (c =? 48); [now injection E1 as _ <- |].
    destruct (is_digit c); [| discriminate].
    pose proof (take_digits_Forall P r1 H2 (c - 48) 1) as Ht.
    destruct (take_digits r1 (c - 48) 1) as [[a b] r']. simpl in Ht.
    now injection E1 as _ <-. }
  assert (Forall P s3) as Hs3.
  { unfold parse_frac_part in E2. destruct s2 as [| c r2]; [now injection E2 as _ _ <- |].
    inversion Hs2; subst. destruct (c =? 46); [| now injection E2 as _ _ <-].
    pose proof (take_digits_Forall P r2 H2 m 0) as Ht.
    destruct (take_digits r2 m 0) as [[a b] r']. simpl in Ht.
    destruct (b =? 0); [discriminate | now injection E2 as _ _ <-]. }
  unfold parse_exp_part in E3. destruct s3 as [| c r3]; [now injection E3 as _ <- |].
  inversion Hs3; subst. destruct ((c =? 101) || (c =? 69)); [| now injection E3 as _ <-].
  assert (exists r4 neg, Forall P r4
            /\ (let '(x0, n0, r5) := take_digits r4 0 0 in
                if n0 =? 0 then None else Some (if (neg : bool) then - x0 else x0, r5))
               = Some (e, s4)) as (r4 & neg & Hr4 & E4).
  { destruct r3 as [| g r0]; [exists [], false; split; [constructor | exact E3] |].
    inversion H2; subst.
    destruct (g =? 45); [exists r0, true; auto |].
    destruct (g =? 43); [exists r0, false; auto |].
    exists (g :: r0), false; auto. }
  pose proof (take_digits_Forall P r4 Hr4 0 0) as Ht.
  destruct (take_digits r4 0 0) as [[a b] r']. simpl in Ht.
  destruct (b =? 0); [discriminate | now injection E4 as _ <-].
Qed.

Lemma expect_Forall (P : CodeUnit -> Prop) (word s r : JSString) :
  Forall P s -> expect word s = Some r -> Forall P r.
Proof.
  revert s. induction word as [| w word IH]; intros s Hs H; simpl in H.
  - now injection H as <-.
  - destruct s as [| c s']; [discriminate |]. inversion Hs; subst.
    destruct (w =? c); [eauto | discriminate].
Qed.

Lemma hex_value_range (h a : Z) : hex_value h = Some a -> 0 <= a < 16.
Proof.
  unfold hex_value, is_digit. intros H.
  destruct ((48 <=? h) && (h <=? 57)) eqn:E1.
  { apply andb_prop in E1. destruct E1 as [E E']. apply Z.leb_le in E, E'.
    injection H as <-. lia. }
  destruct ((97 <=? h) && (h <=? 102)) eqn:E2.
  { apply andb_prop in E2. destruct E2 as [E E']. apply Z.leb_le in E, E'.
    injection H as <-. lia. }
  destruct ((65 <=? h) && (h <=? 70)) eqn:E3; [| discriminate].
  apply andb_prop in E3. destruct E3 as [E E']. apply Z.leb_le in E, E'.
  injection H as <-. lia.
Qed.

Lemma parse_string_chars_shape (n : nat) :
  forall s acc str r,
    (length s <= n)%nat -> Forall code_unit s -> Forall code_unit acc ->
    parse_string_chars s acc = Some (str, r) ->
    Forall code_unit str /\ Forall code_unit r.
Proof.
  induction n as [| n IH]; intros s acc str r Hlen Hs Hacc H.
  - destruct s; [discriminate | simpl in Hlen; lia].
  - destruct s as [| c s']; [discriminate |].
    inversion Hs as [| ? ? Hc Hs']; subst. simpl in Hlen.
    assert (forall u, code_unit u -> Forall code_unit (u :: acc)) as Hpush
      by (intros; now constructor).
    assert (code_unit 34 /\ code_unit 92 /\ code_unit 47 /\ code_unit 8 /\ code_unit 12
            /\ code_unit 10 /\ code_unit 13 /\ code_unit 9) as (U1&U2&U3&U4&U5&U6&U7&U8)
      by (unfold code_unit; lia).
    cbn [parse_string_chars] in H.
    destruct (c =? 34).
    { injection H as <- <-. split; [now apply Forall_rev | assumption]. }
    destruct (c <? 32); [discriminate |].
    destruct (c =? 92); [| apply (IH s' (c :: acc) str r); auto; lia].
    destruct s' as [| e r1]; [discriminate |].
    inversion Hs' as [| ? ? He Hr1]; subst. simpl in Hlen.
    destruct (e =? 117).
    { destruct r1 as [| h1 [| h2 [| h3 [| h4 r2]]]]; try discriminate.
      destruct (hex_value h1) as [a |] eqn:E1; [| discriminate].
      destruct (hex_value h2) as [b |] eqn:E2; [| discriminate].
      destruct (hex_value h3) as [c' |] eqn:E3; [| discriminate].
      destruct (hex_value h4) as [d |] eqn:E4; [| discriminate].
      apply hex_value_range in E1, E2, E3, E4.
      apply (IH r2 (((a * 16 + b) * 16 + c') * 16 + d :: acc) str r); auto.
      - simpl in Hlen. lia.
      - inversion Hr1 as [| ? ? _ T1]; inversion T1 as [| ? ? _ T2];
          inversion T2 as [| ? ? _ T3]; now inversion T3.
      - apply Hpush. unfold code_unit. lia. }
    destruct (e =? 34); [apply (IH r1 (34 :: acc) str r); auto; lia |].
    destruct (e =? 92); [apply (IH r1 (92 :: acc) str r); auto; lia |].
    destruct (e =? 47); [apply (IH r1 (47 :: acc) str r); auto; lia |].
    destruct (e =? 98); [apply (IH r1 (8 :: acc) str r); auto; lia |].
    destruct (e =? 102); [apply (IH r1 (12 :: acc) str r); auto; lia |].
    destruct (e =? 110); [apply (IH r1 (10 :: acc) str r); auto; lia |].
    destruct (e =? 114); [apply (IH r1 (13 :: acc) str r); auto; lia |].
    destruct (e =? 116); [apply (IH r1 (9 :: acc) str r); auto; lia |].
    discriminate.
Qed.

(** *** Array indices name their key *)

Lemma fold_digits (k : JSString) :
  forall a, forallb is_digit k = true ->
    fold_left (fun a c => a * 10 + digit_value c) k a
    = a * 10 ^ Z.of_nat (length k) + decimal_value k
    /\ 0 <= decimal_value k < 10 ^ Z.of_nat (length k).
Proof.
  unfold decimal_value.
  induction k as [| c r IH]; intros a Hd.
  - simpl. lia.
  - simpl in Hd. apply andb_prop in Hd. destruct Hd as [Hc Hr].
    unfold is_digit in Hc. apply andb_prop in Hc. destruct Hc as [C1 C2].
    apply Z.leb_le in C1, C2.
    cbn [fold_left length].
    destruct (IH (a * 10 + digit_value c) Hr) as [-> _].
    destruct (IH (0 * 10 + digit_value c) Hr) as [-> Hb].
    rewrite Nat2Z.inj_succ, Z.pow_succ_r by lia.
    unfold digit_value in *. split; nia.
Qed.

Lemma take_digits_all (k : JSString) :
  forall acc n, forallb is_digit k = true ->
    take_digits k acc n
    = (fold_left (fun a c => a * 10 + digit_value c) k acc, n + Z.of_nat (length k), []).
Proof.
  induction k as [| c r IH]; intros acc n Hd.
  - simpl. now rewrite Z.add_0_r.
  - simpl in Hd. apply andb_prop in Hd. destruct Hd as [Hc Hr].
    cbn [take_digits fold_left length]. rewrite Hc, (IH _ _ Hr).
    unfold digit_value. do 2 f_equal. lia.
Qed.

Lemma decimal_value_inj_same_length (k : JSString) :
  forall k', length k = length k' ->
    forallb is_digit k = true -> forallb is_digit k' = true ->
    decimal_value k = decimal_value k' -> k = k'.
Proof.
  induction k as [| c r IH]; intros [| c' r'] Hlen Hd Hd' Hv; try discriminate;
    [reflexivity |].
  simpl in Hlen. injection Hlen as Hlen.
  simpl in Hd, Hd'. apply andb_prop in Hd, Hd'.
  destruct Hd as [Hc Hr], Hd' as [Hc' Hr'].
  unfold decimal_value in Hv. cbn [fold_left] in Hv.
  destruct (fold_digits r (0 * 10 + digit_value c) Hr) as [E Hb].
  destruct (fold_digits r' (0 * 10 + digit_value c') Hr') as [E' Hb'].
  rewrite E, E', <- Hlen in Hv. rewrite <- Hlen in Hb'.
  unfold is_digit in Hc, Hc'. apply andb_prop in Hc, Hc'.
  destruct Hc as [C1 C2], Hc' as [C1' C2']. apply Z.leb_le in C1, C2, C1', C2'.
  unfold digit_value in *.
  assert (0 < 10 ^ Z.of_nat (length r)) as Hp by (apply Z.pow_pos_nonneg; lia).
  assert (c = c') as -> by nia.
  f_equal. apply IH; auto. lia.
Qed.

Lemma decimal_value_cons (c : CodeUnit) (r : JSString) :
  forallb is_digit (c :: r) = true ->
  decimal_value (c :: r) = (c - 48) * 10 ^ Z.of_nat (length r) + decimal_value r
  /\ 0 <= decimal_value r < 10 ^ Z.of_nat (length r)
  /\ 48 <= c <= 57.
Proof.
  intros Hd. simpl in Hd. apply andb_prop in Hd. destruct Hd as [Hc Hr].
  unfold is_digit in Hc. apply andb_prop in Hc. destruct Hc as [C1 C2].
  apply Z.leb_le in C1, C2.
  unfold decimal_value at 1. cbn [fold_left].
  destruct (fold_digits r (0 * 10 + digit_value c) Hr) as [-> Hb].
  unfold digit_value. repeat split; lia.
Qed.

Lemma array_index_spec (k : JSString) (i : Z) :
  array_index k = Some i ->
  exists c r, k = c :: r /\ forallb is_digit k = true
              /\ (c <> 48 \/ r = []) /\ i = decimal_value k.
Proof.
  unfold array_index. destruct k as [| c r]; [discriminate |].
  destruct (forallb is_digit (c :: r)) eqn:Hd; [| discriminate]. cbn [negb].
  destruct ((c =? 48) && negb (Nat.eqb (length r) 0)) eqn:Hz; [discriminate |].
  destruct (Nat.ltb 10 (length (c :: r))); [discriminate |].
  rewrite (take_digits_all (c :: r) 0 0 Hd).
  destruct (_ <=? 4294967294); [| discriminate].
  intros H. injection H as <-. exists c, r. repeat split.
  apply andb_false_iff in Hz. destruct Hz as [Hz | Hz].
  - left. now apply Z.eqb_neq.
  - right. apply negb_false_iff, Nat.eqb_eq in Hz. now destruct r.
Qed.

Lemma array_index_inj (k k' : JSString) (i : Z) :
  array_index k = Some i -> array_index k' = Some i -> k = k'.
Proof.
  intros H H'.
  destruct (array_index_spec k i H) as (c & r & -> & Hd & Hz & Hi).
  destruct (array_index_spec k' i H') as (c' & r' & -> & Hd' & Hz' & Hi').
  destruct (decimal_value_cons c r Hd) as (E & Hb & Hc).
  destruct (decimal_value_cons c' r' Hd') as (E' & Hb' & Hc').
  apply decimal_value_inj_same_length; auto; [| congruence].
  simpl. f_equal.
  assert (0 < 10 ^ Z.of_nat (length r) /\ 0 < 10 ^ Z.of_nat (length r')) as [Hp Hp']
    by (split; apply Z.pow_pos_nonneg; lia).
  destruct (Nat.lt_trichotomy (length r) (length r')) as [Hlt | [Heq | Hgt]];
    [exfalso | assumption | exfalso].
  - assert (10 * 10 ^ Z.of_nat (length r) <= 10 ^ Z.of_nat (length r')) as Hpow.
    { rewrite <- Z.pow_succ_r by lia. apply Z.pow_le_mono_r; lia. }
    destruct Hz' as [Hz' | ->]; [| simpl in Hlt; lia]. nia.
  - assert (10 * 10 ^ Z.of_nat (length r') <= 10 ^ Z.of_nat (length r)) as Hpow.
    { rewrite <- Z.pow_succ_r by lia. apply Z.pow_le_mono_r; lia. }
    destruct Hz as [Hz | ->]; [| simpl in Hgt; lia]. nia.
Qed.

(** *** [CreateDataProperty] keeps the keys in order *)

Lemma set_property_keys (k : JSString) (v : JSValue) (props : list (JSString * JSValue)) :
  map fst (set_property k v props) = map fst props.
Proof.
  induction props as [| [k' v'] props IH]; simpl; [reflexivity |].
  destruct (JSString_eqb k k'); simpl; now rewrite ?IH.
Qed.

Lemma set_property_Forall (Q : JSValue -> Prop) (k : JSString) (v : JSValue)
    (props : list (JSString * JSValue)) :
  Q v ->
  Forall (fun kv => Forall code_unit (fst kv) /\ Q (snd kv)) props ->
  Forall (fun kv => Forall code_unit (fst kv) /\ Q (snd kv)) (set_property k v props).
Proof.
  intros Hv. induction 1 as [| [k' v'] props [Hk Hv'] Hrest IH]; simpl; [constructor |].
  destruct (JSString_eqb k k'); constructor; auto.
Qed.

Lemma insert_index_In (i : Z) (k : JSString) (v : JSValue)
    (props : list (JSString * JSValue)) (x : JSString * JSValue) :
  In x (insert_index i k v props) <-> x = (k, v) \/ In x props.
Proof.
  induction props as [| [k' v'] props IH]; simpl; [intuition congruence |].
  destruct (array_index k') as [j |]; [destruct (j <? i) |]; simpl; rewrite ?IH;
    intuition congruence.
Qed.

Lemma insert_index_keys_ordered (i : Z) (k : JSString) (v : JSValue)
    (props : list (JSString * JSValue)) :
  array_index k = Some i -> ~ In k (map fst props) ->
  keys_ordered (map fst props) ->
  keys_ordered (map fst (insert_index i k v props)).
Proof.
  intros Hi. induction props as [| [k' v'] props IH]; simpl; intros Hnew Hord.
  - split; [constructor | exact I].
  - destruct Hord as [Hk' Hord].
    assert (k' <> k /\ ~ In k (map fst props)) as [Hne Hnew'] by tauto.
    destruct (array_index k') as [j |] eqn:Ej; [destruct (Z.ltb_spec j i) as [Hlt | Hge] |].
    + simpl. split; [| now apply IH].
      apply Forall_forall. intros x Hx. apply in_map_iff in Hx.
      destruct Hx as (kv & <- & Hkv). apply insert_index_In in Hkv.
      destruct Hkv as [-> | Hkv].
      * simpl. split; [assumption |]. intros j' Hj'. exists j. split; [assumption |].
        congruence.
      * rewrite Forall_forall in Hk'. apply Hk'. now apply in_map.
    + simpl. split; [| split; assumption].
      constructor.
      * split; [congruence |]. intros j' Hj'. exists i. split; [assumption |].
        assert (j' = j) as -> by congruence.
        assert (i <> j); [| lia]. intros ->. apply Hne. now apply (array_index_inj k' k j).
      * apply Forall_forall. intros x Hx. split; [intros ->; contradiction |].
        intros jx Hjx. exists i. split; [assumption |].
        rewrite Forall_forall in Hk'. destruct (Hk' x Hx) as [_ Hb].
        destruct (Hb jx Hjx) as (j0 & Hj0 & Hlt). assert (j0 = j) as -> by congruence. lia.
    + simpl. split; [| split; assumption].
      constructor.
      * split; [congruence |]. intros j' Hj'. congruence.
      * apply Forall_forall. intros x Hx. split; [intros ->; contradiction |].
        intros jx Hjx. rewrite Forall_forall in Hk'. destruct (Hk' x Hx) as [_ Hb].
        destruct (Hb jx Hjx) as (j0 & Hj0 & _). congruence.
Qed.

Lemma keys_ordered_snoc (ks : list JSString) (k : JSString) :
  keys_ordered ks -> ~ In k ks -> array_index k = None -> keys_ordered (ks ++ [k]).
Proof.
  induction ks as [| a ks IH]; simpl; intros Hord Hnew Hk.
  - split; [constructor | exact I].
  - destruct Hord as [Ha Hord]. split; [| apply IH; tauto].
    apply Forall_app. split; [assumption |]. constructor; [| constructor].
    split; [tauto | intros j Hj; congruence].
Qed.

Lemma CreateDataProperty_shaped (N : Number -> Prop) (props : list (JSString * JSValue))
    (k : JSString) (v : JSValue) :
  props_shaped N props -> Forall code_unit k -> shaped N v ->
  props_shaped N (CreateDataProperty props k v).
Proof.
  intros [Hord Hall] Hk Hv. unfold CreateDataProperty.
  destruct (has_property k props) eqn:E.
  - split; [now rewrite set_property_keys | now apply set_property_Forall].
  - assert (~ In k (map fst props)) as Hnew.
    { intros Hin. apply has_property_In in Hin. congruence. }
    destruct (array_index k) as [i |] eqn:Ei.
    + split; [now apply insert_index_keys_ordered |].
      apply Forall_forall. intros x Hx. apply insert_index_In in Hx.
      destruct Hx as [-> | Hx]; [now split |].
      rewrite Forall_forall in Hall. now apply Hall.
    + split.
      * rewrite map_app. now apply keys_ordered_snoc.
      * apply Forall_app. split; [assumption |]. now repeat constructor.
Qed.

(** What [JSON.parse] returns is a JavaScript value, and its numbers are
    what [parse_number] returns. *)
Lemma parse_shape (N : Number -> Prop) (fuel : nat) :
  (forall s x r, parse_number s = Some (x, r) -> N x) ->
  (forall s v r, Forall code_unit s -> parse_value fuel s = Some (v, r) ->
                 shaped N v /\ Forall code_unit r)
  /\ (forall s acc v r, Forall code_unit s -> Forall (shaped N) acc ->
                        parse_elements fuel s acc = Some (v, r) ->
                        shaped N v /\ Forall code_unit r)
  /\ (forall s props v r, Forall code_unit s -> props_shaped N props ->
                          parse_members fuel s props = Some (v, r) ->
                          shaped N v /\ Forall code_unit r).
Proof.
  intros HN.
  induction fuel as [| f (IHv & IHe & IHm)]; [repeat split; discriminate |].
  split; [| split].
  - intros s v r Hs H. cbn [parse_value] in H.
    apply (skip_ws_Forall code_unit) in Hs.
    destruct (skip_ws s) as [| c r0]; [discriminate |].
    inversion Hs as [| ? ? Hc Hr0]; subst.
    pose proof (skip_ws_Forall code_unit r0 Hr0) as Hr0'.
    destruct (c =? 123).
    { destruct (skip_ws r0) as [| c1 r1] eqn:E; [discriminate |].
      destruct (c1 =? 125).
      - injection H as <- <-. inversion Hr0'; subst. repeat split; auto.
      - apply (IHm (c1 :: r1) [] v r); auto. repeat split; constructor. }
    destruct (c =? 91).
    { destruct (skip_ws r0) as [| c1 r1] eqn:E; [discriminate |].
      destruct (c1 =? 93).
      - injection H as <- <-. inversion Hr0'; subst. repeat split; auto.
      - apply (IHe (c1 :: r1) [] v r); auto. }
    destruct (c =? 34).
    { destruct (parse_string_chars r0 []) as [[str r'] |] eqn:E; [| discriminate].
      injection H as <- <-.
      apply (parse_string_chars_shape (length r0) r0 [] str r'); auto. }
    destruct (c =? 110).
    { destruct (expect (lit "null") (c :: r0)) as [r' |] eqn:E; [| discriminate].
      injection H as <- <-. split; [exact I |].
      apply (expect_Forall code_unit _ _ _ Hs E). }
    destruct (c =? 116).
    { destruct (expect (lit "true") (c :: r0)) as [r' |] eqn:E; [| discriminate].
      injection H as <- <-. split; [exact I |].
      apply (expect_Forall code_unit _ _ _ Hs E). }
    destruct (c =? 102).
    { destruct (expect (lit "false") (c :: r0)) as [r' |] eqn:E; [| discriminate].
      injection H as <- <-. split; [exact I |].
      apply (expect_Forall code_unit _ _ _ Hs E). }
    destruct ((c =? 45) || is_digit c); [| discriminate].
    destruct (parse_number (c :: r0)) as [[x r'] |] eqn:E; [| discriminate].
    injection H as <- <-. split; [exact (HN _ _ _ E) |].
    apply (parse_number_Forall code_unit _ _ _ Hs E).
  - intros s acc v r Hs Hacc H. rewrite parse_elements_step in H.
    destruct (parse_value f s) as [[v0 r0] |] eqn:E; [| discriminate].
    destruct (IHv s v0 r0 Hs E) as [Hv0 Hr0].
    apply (skip_ws_Forall code_unit) in Hr0.
    destruct (skip_ws r0) as [| c r1]; [discriminate |].
    inversion Hr0; subst.
    destruct (c =? 44); [apply (IHe r1 (v0 :: acc) v r); auto |].
    destruct (c =? 93); [| discriminate].
    injection H as <- <-. split; [| assumption].
    apply shaped_array. change (Forall (shaped N) (rev (v0 :: acc))).
    apply Forall_rev. now constructor.
  - intros s props v r Hs Hprops H. cbn [parse_members] in H.
    destruct s as [| q r0]; [discriminate |]. inversion Hs as [| ? ? _ Hr0]; subst.
    destruct (q =? 34); [| discriminate].
    destruct (parse_string_chars r0 []) as [[k r1] |] eqn:E; [| discriminate].
    destruct (parse_string_chars_shape (length r0) r0 [] k r1 (le_n _) Hr0
                (Forall_nil _) E) as [Hk Hr1].
    apply (skip_ws_Forall code_unit) in Hr1.
    destruct (skip_ws r1) as [| c r2]; [discriminate |]. inversion Hr1; subst.
    destruct (c =? 58); [| discriminate].
    destruct (parse_value f r2) as [[v0 r3] |] eqn:Ev; [| discriminate].
    destruct (IHv r2 v0 r3 ltac:(assumption) Ev) as [Hv0 Hr3].
    pose proof (CreateDataProperty_shaped N props k v0 Hprops Hk Hv0) as Hnew.
    cbv zeta in H.
    apply (skip_ws_Forall code_unit) in Hr3.
    destruct (skip_ws r3) as [| c' r4]; [discriminate |]. inversion Hr3; subst.
    destruct (c' =? 44).
    { apply (IHm (skip_ws r4) (CreateDataProperty props k v0) v r); auto.
      now apply skip_ws_Forall. }
    destruct (c' =? 125); [| discriminate].
    injection H as <- <-. split; [| assumption].
    now apply shaped_object.
Qed.

Theorem parse_gives_shaped (text : JSString) (v : JSValue) :
  Forall code_unit text -> JSON.parse text = Some v -> shaped any_number v.
Proof.
  intros Ht H. unfold parse in H.
  destruct (parse_value _ text) as [[v0 rest] |] eqn:E; [| discriminate].
  destruct (parse_shape any_number (2 * length text + 2) (fun _ _ _ _ => I))
    as (Hv & _).
  destruct (Hv text v0 rest Ht E) as [Hv0 _].
  destruct (skip_ws rest); [| discriminate]. now injection H as <-.
Qed.

Theorem parse_stringify_parse (text : JSString) (v : JSValue) :
  Forall code_unit text ->
  JSON.parse text = Some v ->
  Forall number_survives (numbers_of v) ->
  JSON.parse (JSON.stringify v) = Some v.
Proof.
  intros Ht Hp Hn. apply stringify_then_parse.
  apply shaped_numbers; [now apply (parse_gives_shaped text) | assumption].
Qed.

(** ** The fuel of [JSON.parse] *)

(** *** What the lexers consume *)

Lemma skip_ws_length (s : JSString) : (length (skip_ws s) <= length s)%nat.
Proof.
  induction s as [| c r IH]; simpl; [lia |].
  destruct (is_ws c); simpl; lia.
Qed.

Lemma take_digits_length (s : JSString) :
  forall acc n, (length (snd (take_digits s acc n)) <= length s)%nat.
Proof.
  induction s as [| c r IH]; intros acc n; simpl; [lia |].
  destruct (is_digit c); simpl; [specialize (IH (acc * 10 + (c - 48)) (n + 1)) |]; lia.
Qed.

Lemma parse_string_chars_length (n : nat) :
  forall s acc str r,
    (length s <= n)%nat ->
    parse_string_chars s acc = Some (str, r) -> (length r < length s)%nat.
Proof.
  induction n as [| n IH]; intros s acc str r Hlen H.
  - destruct s; [discriminate | simpl in Hlen; lia].
  - destruct s as [| c s']; [discriminate |]. simpl in Hlen.
    cbn [parse_string_chars] in H.
    destruct (c =? 34); [injection H as _ <-; simpl; lia |].
    destruct (c <? 32); [discriminate |].
    destruct (c =? 92).
    2:{ apply IH in H; [simpl; lia | lia]. }
    destruct s' as [| e r1]; [discriminate |]. simpl in Hlen.
    destruct (e =? 117).
    { destruct r1 as [| h1 [| h2 [| h3 [| h4 r2]]]]; try discriminate.
      destruct (hex_value h1); [| discriminate].
      destruct (hex_value h2); [| discriminate].
      destruct (hex_value h3); [| discriminate].
      destruct (hex_value h4); [| discriminate].
      simpl in Hlen. apply IH in H; [simpl; lia | lia]. }
    repeat match type of H with
           | (if ?b then _ else _) = _ =>
               destruct b; [apply IH in H; [simpl; lia | lia] |]
           end.
    discriminate.
Qed.

Lemma expect_length (word s r : JSString) :
  expect word s = Some r -> (length r + length word = length s)%nat.
Proof.
  revert s. induction word as [| w word IH]; intros s H; simpl in H.
  - injection H as <-. simpl. lia.
  - destruct s as [| c s']; [discriminate |].
    destruct (w =? c); [| discriminate]. apply IH in H. simpl. lia.
Qed.

Lemma parse_number_length (s r : JSString) (x : Number) :
  parse_number s = Some (x, r) -> (length r < length s)%nat.
Proof.
  intros H. unfold parse_number in H.
  assert (exists s1, (length s1 <= length s)%nat
                     /\ match parse_int_part s1 with
                        | None => None
                        | Some (m, s2) =>
                            match parse_frac_part m s2 with
                            | None => None
                            | Some (m', nfrac, s3) =>
                                match parse_exp_part s3 with
                                | None => None
                                | Some (e, s4) => Some (s4)
                                end
                            end
                        end = Some r) as (s1 & Hs1 & H1).
  { destruct s as [| c s'].
    - exists []. split; [lia |].
      number_parts.
    - destruct (c =? 45).
      + exists s'. split; [simpl; lia |].
        number_parts.
      + exists (c :: s'). split; [lia |].
        number_parts. }
  clear H.
  destruct (parse_int_part s1) as [[m s2] |] eqn:E1; [| discriminate].
  destruct (parse_frac_part m s2) as [[[m' nf] s3] |] eqn:E2; [| discriminate].
  destruct (parse_exp_part s3) as [[e s4] |] eqn:E3; [| discriminate].
  injection H1 as <-.
  assert (length s2 < length s1)%nat as Hs2.
  { unfold parse_int_part in E1. destruct s1 as [| c r1]; [discriminate |].
    destruct (c =? 48); [injection E1 as _ <-; simpl; lia |].
    destruct (is_digit c); [| discriminate].
    pose proof (take_digits_length r1 (c - 48) 1) as Ht.
    destruct (take_digits r1 (c - 48) 1) as [[a b] r']. simpl in Ht.
    injection E1 as _ <-. simpl. lia. }
  assert (length s3 <= length s2)%nat as Hs3.
  { unfold parse_frac_part in E2. destruct s2 as [| c r2]; [injection E2 as _ _ <-; lia |].
    destruct (c =? 46); [| injection E2 as _ _ <-; lia].
    pose proof (take_digits_length r2 m 0) as Ht.
    destruct (take_digits r2 m 0) as [[a b] r']. simpl in Ht.
    destruct (b =? 0); [discriminate | injection E2 as _ _ <-; simpl; lia]. }
  assert (length s4 <= length s3)%nat; [| lia].
  unfold parse_exp_part in E3. destruct s3 as [| c r3]; [injection E3 as _ <-; lia |].
  destruct ((c =? 101) || (c =? 69)); [| injection E3 as _ <-; lia].
  assert (exists r4 neg, (length r4 <= length r3)%nat
            /\ (let '(x0, n0, r5) := take_digits r4 0 0 in
                if n0 =? 0 then None else Some (if (neg : bool) then - x0 else x0, r5))
               = Some (e, s4)) as (r4 & neg & Hr4 & E4).
  { destruct r3 as [| g r0]; [exists [], false; split; [lia | exact E3] |].
    destruct (g =? 45); [exists r0, true; split; [simpl; lia | exact E3] |].
    destruct (g =? 43); [exists r0, false; split; [simpl; lia | exact E3] |].
    exists (g :: r0), false; split; [lia | exact E3]. }
  pose proof (take_digits_length r4 0 0) as Ht.
  destruct (take_digits r4 0 0) as [[a b] r']. simpl in Ht.
  destruct (b =? 0); [discriminate | injection E4 as _ <-; simpl; lia].
Qed.

(** *** What the parser consumes *)

Lemma parse_consumes (fuel : nat) :
  (forall s v r, parse_value fuel s = Some (v, r) -> (length r < length s)%nat)
  /\ (forall s acc v r, parse_elements fuel s acc = Some (v, r) ->
                        (length r < length s)%nat)
  /\ (forall s props v r, parse_members fuel s props = Some (v, r) ->
                          (length r < length s)%nat).
Proof.
  induction fuel as [| f (IHv & IHe & IHm)]; [repeat split; discriminate |].
  split; [| split].
  - intros s v r H. cbn [parse_value] in H.
    pose proof (skip_ws_length s) as Hs.
    destruct (skip_ws s) as [| c r0]; [discriminate |]. simpl in Hs.
    pose proof (skip_ws_length r0) as Hr0.
    destruct (c =? 123).
    { destruct (skip_ws r0) as [| c1 r1] eqn:E; [discriminate |].
      destruct (c1 =? 125).
      - injection H as _ <-. simpl in Hr0. lia.
      - apply IHm in H. lia. }
    destruct (c =? 91).
    { destruct (skip_ws r0) as [| c1 r1] eqn:E; [discriminate |].
      destruct (c1 =? 93).
      - injection H as _ <-. simpl in Hr0. lia.
      - apply IHe in H. lia. }
    destruct (c =? 34).
    { destruct (parse_string_chars r0 []) as [[str r'] |] eqn:E; [| discriminate].
      injection H as _ <-.
      apply (parse_string_chars_length (length r0)) in E; lia. }
    destruct (c =? 110).
    { destruct (expect (lit "null") (c :: r0)) as [r' |] eqn:E; [| discriminate].
      injection H as _ <-. apply expect_length in E. simpl in E. lia. }
    destruct (c =? 116).
    { destruct (expect (lit "true") (c :: r0)) as [r' |] eqn:E; [| discriminate].
      injection H as _ <-. apply expect_length in E. simpl in E. lia. }
    destruct (c =? 102).
    { destruct (expect (lit "false") (c :: r0)) as [r' |] eqn:E; [| discriminate].
      injection H as _ <-. apply expect_length in E. simpl in E. lia. }
    destruct ((c =? 45) || is_digit c); [| discriminate].
    destruct (parse_number (c :: r0)) as [[x r'] |] eqn:E; [| discriminate].
    injection H as _ <-. apply parse_number_length in E. simpl in E. lia.
  - intros s acc v r H. rewrite parse_elements_step in H.
    destruct (parse_value f s) as [[v0 r0] |] eqn:E; [| discriminate].
    apply IHv in E. pose proof (skip_ws_length r0) as Hr0.
    destruct (skip_ws r0) as [| c r1]; [discriminate |]. simpl in Hr0.
    destruct (c =? 44); [apply IHe in H; lia |].
    destruct (c =? 93); [| discriminate].
    injection H as _ <-. lia.
  - intros s props v r H. cbn [parse_members] in H.
    destruct s as [| q r0]; [discriminate |].
    destruct (q =? 34); [| discriminate].
    destruct (parse_string_chars r0 []) as [[k r1] |] eqn:E; [| discriminate].
    apply (parse_string_chars_length (length r0)) in E; [| lia].
    pose proof (skip_ws_length r1) as Hr1.
    destruct (skip_ws r1) as [| c r2]; [discriminate |]. simpl in Hr1.
    destruct (c =? 58); [| discriminate].
    destruct (parse_value f r2) as [[v0 r3] |] eqn:Ev; [| discriminate].
    apply IHv in Ev. cbv zeta in H.
    pose proof (skip_ws_length r3) as Hr3.
    destruct (skip_ws r3) as [| c' r4]; [discriminate |]. simpl in Hr3.
    pose proof (skip_ws_length r4) as Hr4.
    destruct (c' =? 44); [apply IHm in H; simpl; lia |].
    destruct (c' =? 125); [| discriminate].
    injection H as _ <-. simpl. lia.
Qed.

(** *** The fuel is never used up *)

Lemma fuel_is_enough (fuel : nat) :
  (forall s fuel', (2 * length s + 1 <= fuel)%nat -> (fuel <= fuel')%nat ->
                   parse_value fuel s = parse_value fuel' s)
  /\ (forall s acc fuel', (2 * length s + 2 <= fuel)%nat -> (fuel <= fuel')%nat ->
                          parse_elements fuel s acc = parse_elements fuel' s acc)
  /\ (forall s props fuel', (2 * length s + 2 <= fuel)%nat -> (fuel <= fuel')%nat ->
                            parse_members fuel s props = parse_members fuel' s props).
Proof.
  induction fuel as [| f (IHv & IHe & IHm)].
  { repeat split; intros; lia. }
  split; [| split].
  - intros s [| f'] Hf Hle; [lia |]. apply le_S_n in Hle.
    cbn [parse_value].
    pose proof (skip_ws_length s) as Hs.
    destruct (skip_ws s) as [| c r0]; [reflexivity |]. simpl in Hs.
    pose proof (skip_ws_length r0) as Hr0.
    destruct (c =? 123).
    { destruct (skip_ws r0) as [| c1 r1] eqn:E; [reflexivity |].
      destruct (c1 =? 125); [reflexivity |]. apply IHm; lia. }
    destruct (c =? 91).
    { destruct (skip_ws r0) as [| c1 r1] eqn:E; [reflexivity |].
      destruct (c1 =? 93); [reflexivity |]. apply IHe; lia. }
    reflexivity.
  - intros s acc [| f'] Hf Hle; [lia |]. apply le_S_n in Hle.
    rewrite !parse_elements_step.
    rewrite <- (IHv s f') by lia.
    destruct (parse_value f s) as [[v0 r0] |] eqn:E; [| reflexivity].
    apply (proj1 (parse_consumes f)) in E. pose proof (skip_ws_length r0) as Hr0.
    destruct (skip_ws r0) as [| c r1]; [reflexivity |]. simpl in Hr0.
    destruct (c =? 44); [apply IHe; lia | reflexivity].
  - intros s props [| f'] Hf Hle; [lia |]. apply le_S_n in Hle.
    cbn [parse_members].
    destruct s as [| q r0]; [reflexivity |]. simpl in Hf.
    destruct (q =? 34); [| reflexivity].
    destruct (parse_string_chars r0 []) as [[k r1] |] eqn:E; [| reflexivity].
    apply (parse_string_chars_length (length r0)) in E; [| lia].
    pose proof (skip_ws_length r1) as Hr1.
    destruct (skip_ws r1) as [| c r2]; [reflexivity |]. simpl in Hr1.
    destruct (c =? 58); [| reflexivity].
    rewrite <- (IHv r2 f') by lia.
    destruct (parse_value f r2) as [[v0 r3] |] eqn:Ev; [| reflexivity].
    apply (proj1 (parse_consumes f)) in Ev. cbv zeta.
    pose proof (skip_ws_length r3) as Hr3.
    destruct (skip_ws r3) as [| c' r4]; [reflexivity |]. simpl in Hr3.
    pose proof (skip_ws_length r4) as Hr4.
    destruct (c' =? 44); [apply IHm; lia | reflexivity].
Qed.

(** More fuel than [parse] gives changes nothing: a text it refuses is
    refused for its syntax. *)
Theorem parse_fuel_independent (text : JSString) (fuel : nat) :
  (2 * length text + 2 <= fuel)%nat ->
  parse_value fuel text = parse_value (2 * length text + 2) text.
Proof.
  intros H. symmetry. apply (proj1 (fuel_is_enough (2 * length text + 2))); lia.
Qed.


(** ** [Number::toString] and back

    A finite Number other than negative zero, written by
    [Number::toString] and read as a JSON number, is that Number again.
    The digits [shortest] picks denote a decimal that rounds to the
    Number; [format] lays them out; [parse_number] reads the layout as
    the same decimal; and [of_decimal] depends on the value of the
    decimal only, not on how it is split into digits and exponent. *)

(** *** Bits and shifts *)

Lemma digits2_pos_bounds (p : positive) :
  2 ^ (Zpos (digits2_pos p) - 1) <= Zpos p < 2 ^ Zpos (digits2_pos p).
Proof.
  induction p as [p IH | p IH |]; cbn [digits2_pos].
  - rewrite Pos2Z.inj_succ.
    replace (Z.succ (Zpos (digits2_pos p)) - 1) with (Z.succ (Zpos (digits2_pos p) - 1)) by lia.
    rewrite !Z.pow_succ_r by lia. lia.
  - rewrite Pos2Z.inj_succ.
    replace (Z.succ (Zpos (digits2_pos p)) - 1) with (Z.succ (Zpos (digits2_pos p) - 1)) by lia.
    rewrite !Z.pow_succ_r by lia. lia.
  - simpl. lia.
Qed.

Lemma pow2_lt_mono (a b : Z) : 0 <= a -> 2 ^ a < 2 ^ b -> a < b.
Proof.
  intros Ha H. destruct (Z.lt_ge_cases a b) as [L | L]; [assumption |].
  destruct (Z.lt_ge_cases b 0) as [Lb | Lb].
  - rewrite (Z.pow_neg_r 2 b Lb) in H. pose proof (Z.pow_nonneg 2 a). lia.
  - assert (2 ^ b <= 2 ^ a) by (apply Z.pow_le_mono_r; lia). lia.
Qed.

(** The number of binary digits is determined by the bounds. *)
Lemma Zdigits2_unique (n d : Z) :
  0 < d -> 2 ^ (d - 1) <= n < 2 ^ d -> Zdigits2 n = d.
Proof.
  intros Hd [H1 H2].
  assert (0 < n) as Hn by (pose proof (Z.pow_pos_nonneg 2 (d - 1)); lia).
  destruct n as [| p | p]; try lia. cbn [Zdigits2].
  pose proof (digits2_pos_bounds p) as [B1 B2].
  set (k := Zpos (digits2_pos p)) in *.
  assert (0 < k) by (unfold k; lia).
  assert (k - 1 < d) by (apply pow2_lt_mono; lia).
  assert (d - 1 < k) by (apply pow2_lt_mono; lia).
  lia.
Qed.

Lemma Zdigits2_bounds (n : Z) :
  0 < n -> 0 < Zdigits2 n /\ 2 ^ (Zdigits2 n - 1) <= n < 2 ^ Zdigits2 n.
Proof.
  intros Hn. destruct n as [| p | p]; try lia. cbn [Zdigits2].
  split; [lia | apply digits2_pos_bounds].
Qed.

Lemma iter_pos_nat {X : Type} (f : X -> X) (p : positive) (x : X) :
  iter_pos f p x = Nat.iter (Pos.to_nat p) f x.
Proof.
  revert x. induction p as [p IH | p IH |]; intros x; cbn [iter_pos].
  - rewrite !IH, Pos2Nat.inj_xI.
    replace (S (2 * Pos.to_nat p))%nat with (Pos.to_nat p + (Pos.to_nat p + 1))%nat by lia.
    rewrite !Nat.iter_add. reflexivity.
  - rewrite !IH, Pos2Nat.inj_xO.
    replace (2 * Pos.to_nat p)%nat with (Pos.to_nat p + Pos.to_nat p)%nat by lia.
    rewrite Nat.iter_add. reflexivity.
  - reflexivity.
Qed.

Lemma shr_1_nonneg (m : Z) (r s : bool) :
  0 <= m ->
  shr_1 {| shr_m := m; shr_r := r; shr_s := s |}
  = {| shr_m := m / 2; shr_r := Z.odd m; shr_s := r || s |}.
Proof.
  intros Hm. destruct m as [| p | p]; try lia.
  - reflexivity.
  - destruct p as [p | p |]; cbn [shr_1].
    + f_equal. rewrite Pos2Z.inj_xI. Z.div_mod_to_equations. lia.
    + f_equal. rewrite Pos2Z.inj_xO. Z.div_mod_to_equations. lia.
    + reflexivity.
Qed.

(** [n + 1] steps of [shr_1] on a non-negative mantissa. *)
Lemma shr_steps (M : Z) (r s : bool) (n : nat) :
  0 <= M ->
  Nat.iter (S n) shr_1 {| shr_m := M; shr_r := r; shr_s := s |}
  = {| shr_m := M / 2 ^ Z.of_nat (S n);
       shr_r := Z.odd (M / 2 ^ Z.of_nat n);
       shr_s := r || s || negb (M mod 2 ^ Z.of_nat n =? 0) |}.
Proof.
  intros HM. induction n as [| n IH].
  - rewrite Nat.iter_succ. cbn [Nat.iter nat_rect]. rewrite shr_1_nonneg by assumption.
    change (2 ^ Z.of_nat 1) with 2. change (2 ^ Z.of_nat 0) with 1.
    rewrite Z.div_1_r, Z.mod_1_r. cbn. now rewrite orb_false_r.
  - rewrite Nat.iter_succ, IH.
    rewrite shr_1_nonneg by (apply Z.div_pos; [assumption | apply Z.pow_pos_nonneg; lia]).
    assert (0 < 2 ^ Z.of_nat n) as Hp by (apply Z.pow_pos_nonneg; lia).
    assert (2 ^ Z.of_nat (S n) = 2 * 2 ^ Z.of_nat n) as E1
      by (rewrite Nat2Z.inj_succ, Z.pow_succ_r; lia).
    assert (2 ^ Z.of_nat (S (S n)) = 2 * 2 ^ Z.of_nat (S n)) as E2
      by (rewrite (Nat2Z.inj_succ (S n)), Z.pow_succ_r; lia).
    f_equal.
    + rewrite E2, Z.mul_comm, <- Z.div_div by lia. reflexivity.
    + rewrite E1.
      set (P := 2 ^ Z.of_nat n) in *.
      assert (M mod (2 * P) = (M / P) mod 2 * P + M mod P) as Hm.
      { rewrite (Z.mul_comm 2 P), Z.rem_mul_r by lia. lia. }
      rewrite Hm.
      pose proof (Z.mod_pos_bound M P Hp) as Hb.
      pose proof (Zmod_odd (M / P)) as Ho.
      destruct (Z.odd (M / P)) eqn:Eo.
      * rewrite Ho. rewrite orb_true_l.
        assert ((1 * P + M mod P =? 0) = false) as -> by (apply Z.eqb_neq; lia).
        cbn. now rewrite orb_true_r.
      * rewrite Ho. rewrite Z.mul_0_l, Z.add_0_l. rewrite orb_false_l. reflexivity.
Qed.

(** Shifting a mantissa that lies in the lower half of the gap above
    [m * 2^j]. *)
Lemma shr_above (M m j e : Z) (l : location) :
  0 < m -> 0 <= j ->
  m * 2 ^ j <= M -> 2 * M < (2 * m + 1) * 2 ^ j ->
  (M <> m * 2 ^ j \/ l <> loc_Exact) ->
  (j = 0 -> l = loc_Inexact Lt) ->
  shr (shr_record_of_loc M l) e j
  = ({| shr_m := m; shr_r := false; shr_s := true |}, e + j).
Proof.
  intros Hm Hj H1 H2 Hne Hj0.
  destruct j as [| p | p]; try lia.
  - rewrite (Hj0 eq_refl). cbn [shr shr_record_of_loc].
    rewrite Z.pow_0_r in *. f_equal; [| lia]. f_equal. lia.
  - cbn [shr]. f_equal.
    rewrite iter_pos_nat.
    destruct (Pos2Nat.is_succ p) as [n Hn]. rewrite Hn.
    assert (Zpos p = Z.of_nat (S n)) as Hp by (rewrite <- Hn; now rewrite positive_nat_Z).
    assert (0 <= M) as HM by (pose proof (Z.pow_pos_nonneg 2 (Zpos p)); nia).
    assert (2 ^ Zpos p = 2 * 2 ^ Z.of_nat n) as E
      by (rewrite Hp, Nat2Z.inj_succ, Z.pow_succ_r; lia).
    assert (0 < 2 ^ Z.of_nat n) as HP by (apply Z.pow_pos_nonneg; lia).
    rewrite E in *. set (P := 2 ^ Z.of_nat n) in *.
    assert (exists r0 s0, shr_record_of_loc M l = {| shr_m := M; shr_r := r0; shr_s := s0 |}
                          /\ (l <> loc_Exact -> r0 || s0 = true)) as (r0 & s0 & -> & Hl).
    { destruct l as [| []]; cbn; eexists _, _; split; try reflexivity; intros; try reflexivity.
      congruence. }
    rewrite shr_steps by assumption.
    rewrite <- Hp, E. fold P.
    assert (M / (2 * P) = m) as Em.
    { symmetry. apply (Z.div_unique M (2 * P) m (M - m * (2 * P))); lia. }
    assert (M / P = 2 * m) as Em2.
    { symmetry. apply (Z.div_unique M P (2 * m) (M - 2 * m * P)); lia. }
    rewrite Em, Em2. f_equal.
    + rewrite Z.odd_mul. reflexivity.
    + destruct Hne as [Hne | Hne].
      * assert (M mod P <> 0) as Hmod.
        { rewrite Z.mod_eq, Em2 by lia. lia. }
        apply Z.eqb_neq in Hmod. rewrite Hmod. cbn. now rewrite orb_true_r.
      * rewrite (Hl Hne). reflexivity.
Qed.

(** *** A mantissa just above a Number *)

Lemma bounded_canonical (m : positive) (e : Z) :
  bounded 53 1024 m e = true ->
  fexp 53 1024 (Zpos (digits2_pos m) + e) = e /\ e <= 971.
Proof.
  unfold bounded, canonical_mantissa. intros H. apply andb_prop in H.
  destruct H as [H1 H2]. apply Z.eqb_eq in H1. apply Z.leb_le in H2. split; [assumption | lia].
Qed.

(** A value in the lower half of the gap above [m * 2^e] is rounded to
    [m * 2^e]. *)
Lemma binary_round_aux_above (sx : bool) (mx ex : Z) (lx : location) (m : positive) (e : Z) :
  bounded 53 1024 m e = true ->
  0 <= e - ex ->
  Zpos m * 2 ^ (e - ex) <= mx ->
  2 * mx < (2 * Zpos m + 1) * 2 ^ (e - ex) ->
  (mx <> Zpos m * 2 ^ (e - ex) \/ lx <> loc_Exact) ->
  (e - ex = 0 -> lx = loc_Inexact Lt) ->
  binary_round_aux 53 1024 sx mx ex lx = S754_finite sx m e.
Proof.
  intros Hb Hj H1 H2 Hne Hj0.
  destruct (bounded_canonical m e Hb) as [Hc He].
  pose proof (digits2_pos_bounds m) as [B1 B2].
  set (dm := Zpos (digits2_pos m)) in *.
  set (j := e - ex) in *.
  assert (0 < 2 ^ j) as Hpj by (apply Z.pow_pos_nonneg; lia).
  assert (Zdigits2 mx = dm + j) as Hd.
  { apply Zdigits2_unique; [unfold dm; lia |].
    replace (dm + j - 1) with (dm - 1 + j) by lia.
    rewrite !Z.pow_add_r by (unfold dm; lia). nia. }
  unfold binary_round_aux, shr_fexp.
  rewrite Hd. replace (dm + j + ex) with (dm + e) by (unfold j; lia).
  rewrite Hc. fold j.
  rewrite (shr_above mx (Zpos m) j ex lx) by (auto; lia).
  cbn [shr_m loc_of_shr_record round_nearest_even].
  cbn [Zdigits2]. fold dm. replace (ex + j) with e by (unfold j; lia).
  rewrite Hc, Z.sub_diag. cbn [shr shr_record_of_loc shr_m].
  assert ((e <=? 1024 - 53) = true) as -> by (apply Z.leb_le; lia).
  reflexivity.
Qed.

(** *** A decimal just above a Number *)

Lemma even_pow10 (k : Z) : 0 < k -> Z.even (10 ^ k) = true.
Proof.
  intros Hk. replace k with (Z.succ (k - 1)) by lia.
  rewrite Z.pow_succ_r by lia. rewrite Z.even_mul. reflexivity.
Qed.

Lemma pow10_pos (k : Z) : 0 <= k -> 0 < 10 ^ k.
Proof. intros. apply Z.pow_pos_nonneg; lia. Qed.

Lemma pow2_pos (k : Z) : 0 <= k -> 0 < 2 ^ k.
Proof. intros. apply Z.pow_pos_nonneg; lia. Qed.

Lemma shiftl_match (M s : Z) :
  0 <= s ->
  (match s with
   | 0 => M
   | Zpos _ => Z.shiftl M s
   | Zneg _ => 0
   end) = M * 2 ^ s.
Proof.
  intros Hs. destruct s as [| ps | ps]; try lia.
  now rewrite Z.shiftl_mul_pow2 by lia.
Qed.

(** A decimal that lies above the Number [m * 2^e] by less than half a
    unit in the last place denotes that Number. *)
Lemma of_decimal_above (neg : bool) (M : positive) (E : Z) (m : positive) (e : Z) :
  bounded 53 1024 m e = true ->
  bin_num (Zpos m) e * dec_den E < dec_num (Zpos M) E * bin_den e ->
  2 * (dec_num (Zpos M) E * bin_den e)
  < (2 * bin_num (Zpos m) e + bin_ulp e) * dec_den E ->
  Num.of_decimal neg (Zpos M) E = S754_finite neg m e.
Proof.
  intros Hb H1 H2.
  destruct (bounded_canonical m e Hb) as [Hc He].
  pose proof (digits2_pos_bounds m) as [B1 B2].
  set (dm := Zpos (digits2_pos m)) in *.
  assert (0 < dm) as Hdm by (unfold dm; lia).
  unfold Num.of_decimal, dec_num, dec_den, bin_num, bin_den, bin_ulp in *.
  fold Num.prec Num.emax. unfold Num.prec, Num.emax.
  destruct (Z.leb_spec 0 E) as [HE | HE].
  - (* an integer *)
    rewrite !Z.mul_1_r in *.
    assert (0 < 10 ^ E) as HpE by (apply pow10_pos; lia).
    assert (Zpos (M * Z.to_pos (10 ^ E)) = Zpos M * 10 ^ E) as EN.
    { rewrite Pos2Z.inj_mul, Z2Pos.id by assumption. reflexivity. }
    set (N := Zpos M * 10 ^ E) in *.
    assert (1 <= e) as He1.
    { destruct (Z.lt_ge_cases e 1) as [L | L]; [exfalso | assumption].
      rewrite Z.max_r in * by lia. replace (e + - e) with 0 in * by lia.
      rewrite Z.pow_0_r in *. lia. }
    rewrite Z.max_l in * by lia. rewrite Z.add_0_r, Z.pow_0_r, !Z.mul_1_r in *.
    assert (0 < 2 ^ e) as Hpe by (apply pow2_pos; lia).
    unfold binary_round.
    assert (Zpos (digits2_pos (M * Z.to_pos (10 ^ E))) = dm + e) as Hd.
    { change (Zpos (digits2_pos (M * Z.to_pos (10 ^ E))))
        with (Zdigits2 (Zpos (M * Z.to_pos (10 ^ E)))).
      rewrite EN. apply Zdigits2_unique; [lia |].
      replace (dm + e - 1) with (dm - 1 + e) by lia.
      rewrite !Z.pow_add_r by lia. nia. }
    rewrite Hd, Z.add_0_r, Hc.
    unfold shl_align. rewrite Z.sub_0_r.
    destruct e as [| pe | pe]; try lia.
    rewrite EN.
    apply binary_round_aux_above; auto; rewrite ?Z.sub_0_r; try lia.
  - (* a quotient *)
    set (D := 10 ^ (- E)) in *.
    assert (1 < D) as HD.
    { unfold D. replace (- E) with (Z.succ (- E - 1)) by lia.
      rewrite Z.pow_succ_r by lia. pose proof (pow10_pos (- E - 1)). lia. }
    set (t := Z.max 0 (- e)) in *.
    assert (0 <= t /\ 0 <= e + t) as [Ht Het] by (unfold t; lia).
    assert (0 < 2 ^ t) as Hpt by (apply pow2_pos; lia).
    assert (0 < 2 ^ (e + t)) as Hpet by (apply pow2_pos; lia).
    unfold SFdiv_core_binary.
    rewrite !Z.add_0_r, Z.sub_0_r.
    set (d1 := Zdigits2 (Zpos M)). set (d2 := Zdigits2 D).
    destruct (Zdigits2_bounds (Zpos M)) as [Hd1 [M1 M2]]; [lia |].
    destruct (Zdigits2_bounds D) as [Hd2 [D1 D2]]; [lia |].
    fold d1 in Hd1, M1, M2. fold d2 in Hd2, D1, D2.
    assert (d1 - d2 <= dm + e) as Hdd.
    { assert (2 ^ (d1 - 1 + t) < 2 ^ (dm + (e + t) + d2)) as Hlt.
      { rewrite !Z.pow_add_r by lia.
        assert (Zpos M * 2 ^ t < 2 ^ dm * 2 ^ (e + t) * D) by nia.
        assert (2 ^ (d1 - 1) * 2 ^ t <= Zpos M * 2 ^ t) by nia.
        assert (2 ^ dm * 2 ^ (e + t) * D < 2 ^ dm * 2 ^ (e + t) * 2 ^ d2).
        { apply Z.mul_lt_mono_pos_l; [| lia]. apply Z.mul_pos_pos; lia. }
        lia. }
      apply pow2_lt_mono in Hlt; lia. }
    set (e' := Z.min (fexp 53 1024 (d1 - d2)) 0).
    assert (e' <= e /\ e' <= 0) as [He'e He'0].
    { unfold e'. split; [| lia].
      assert (fexp 53 1024 (d1 - d2) <= fexp 53 1024 (dm + e)) by (unfold fexp, emin; lia).
      lia. }
    set (s := 0 - e').
    assert (0 <= s /\ t <= s) as [Hs Hts] by (unfold s, t; lia).
    assert ((match s with
             | 0 => Zpos M
             | Zpos _ => Z.shiftl (Zpos M) s
             | Zneg _ => 0
             end) = Zpos M * 2 ^ s) as Em'.
    { apply shiftl_match. assumption. }
    rewrite Em'.
    pose proof (Z_div_mod (Zpos M * 2 ^ s) D ltac:(lia)) as Hdiv.
    destruct (Z.div_eucl (Zpos M * 2 ^ s) D) as [q r]. destruct Hdiv as [Hq Hr].
    (* the hypotheses at the scale [2^s] *)
    set (j := e - e').
    assert (j = e + t + (s - t)) as Ej by (unfold j, s; lia).
    assert (0 < 2 ^ (s - t)) as Hpst by (apply pow2_pos; lia).
    assert (2 ^ s = 2 ^ t * 2 ^ (s - t)) as Es2.
    { rewrite <- Z.pow_add_r by lia. f_equal. lia. }
    assert (2 ^ j = 2 ^ (e + t) * 2 ^ (s - t)) as Ej2.
    { rewrite Ej, Z.pow_add_r by lia. reflexivity. }
    assert (0 < 2 ^ j) as Hpj by (rewrite Ej2; apply Z.mul_pos_pos; lia).
    assert (Zpos m * 2 ^ j * D < Zpos M * 2 ^ s) as G1.
    { rewrite Ej2, Es2. nia. }
    assert (2 * (Zpos M * 2 ^ s) < (2 * Zpos m + 1) * 2 ^ j * D) as G2.
    { rewrite Ej2, Es2. nia. }
    assert (Zpos m * 2 ^ j <= q) as Q1 by nia.
    assert (2 * q < (2 * Zpos m + 1) * 2 ^ j) as Q2 by nia.
    unfold new_location. unfold D at 1. rewrite even_pow10 by lia. fold D.
    unfold new_location_even.
    apply binary_round_aux_above; auto; fold j; try lia.
    + destruct (Z.eq_dec q (Zpos m * 2 ^ j)) as [Eq | Nq]; [right | left; assumption].
      assert (r <> 0) as Hr0 by nia.
      apply Z.eqb_neq in Hr0. rewrite Hr0. discriminate.
    + intros Ej0. rewrite Ej0, Z.pow_0_r in *.
      assert (q = Zpos m) by lia. subst q.
      assert (r <> 0) as Hr0 by nia.
      apply Z.eqb_neq in Hr0. rewrite Hr0. f_equal.
      apply Z.compare_lt_iff. nia.
Qed.

(** *** The magnitude of a finite Number *)

Lemma Num_eqb_eq (x y : Number) : Num.eqb x y = true -> x = y.
Proof.
  destruct x as [a | a | | a m e], y as [b | b | | b n f]; cbn; try discriminate; intros H.
  - apply Bool.eqb_prop in H. congruence.
  - apply Bool.eqb_prop in H. congruence.
  - reflexivity.
  - apply andb_prop in H. destruct H as [H H3]. apply andb_prop in H. destruct H as [H1 H2].
    apply Bool.eqb_prop in H1. apply Pos.eqb_eq in H2. apply Z.eqb_eq in H3. congruence.
Qed.

Lemma Num_eqb_refl (x : Number) : Num.eqb x x = true.
Proof.
  destruct x as [a | a | | a m e]; cbn; try reflexivity.
  - apply Bool.eqb_reflx.
  - apply Bool.eqb_reflx.
  - now rewrite Bool.eqb_reflx, Pos.eqb_refl, Z.eqb_refl.
Qed.

(** What [magnitude] finds. *)
Lemma magnitude_spec (fuel : nat) (a : Z) :
  forall b n,
    0 < b -> a < b * 10 ^ Z.of_nat fuel ->
    n <= Num.magnitude fuel a b n <= n + Z.of_nat fuel
    /\ a < b * 10 ^ (Num.magnitude fuel a b n - n)
    /\ (n < Num.magnitude fuel a b n -> b * 10 ^ (Num.magnitude fuel a b n - n - 1) <= a).
Proof.
  induction fuel as [| fuel IH]; intros b n Hb Ha.
  - cbn [Num.magnitude]. rewrite Z.sub_diag. cbn in *. lia.
  - cbn [Num.magnitude]. destruct (Z.ltb_spec a b) as [L | L].
    + rewrite Z.sub_diag, Z.pow_0_r. lia.
    + assert (a < b * 10 * 10 ^ Z.of_nat fuel) as Ha'.
      { rewrite Nat2Z.inj_succ, Z.pow_succ_r in Ha by lia. lia. }
      destruct (IH (b * 10) (n + 1) ltac:(lia) Ha') as (H1 & H2 & H3).
      set (r := Num.magnitude fuel a (b * 10) (n + 1)) in *.
      split; [lia |]. split.
      * replace (r - n) with (Z.succ (r - (n + 1))) by lia.
        rewrite Z.pow_succ_r by lia. lia.
      * intros _. destruct (Z.eq_dec r (n + 1)) as [-> | Hne].
        -- replace (n + 1 - n - 1) with 0 by lia. rewrite Z.pow_0_r. lia.
        -- replace (r - n - 1) with (Z.succ (r - (n + 1) - 1)) by lia.
           rewrite Z.pow_succ_r by lia. specialize (H3 ltac:(lia)). lia.
Qed.

(** The bounds on a binary64 mantissa and exponent. *)
Lemma bounded_range (m : positive) (e : Z) :
  bounded 53 1024 m e = true ->
  Zpos m < 2 ^ 53 /\ -1074 <= e <= 971.
Proof.
  intros Hb. destruct (bounded_canonical m e Hb) as [Hc He].
  pose proof (digits2_pos_bounds m) as [B1 B2].
  set (dm := Zpos (digits2_pos m)) in *.
  unfold fexp, emin in Hc.
  assert (dm <= 53) by lia.
  split; [| lia].
  assert (2 ^ dm <= 2 ^ 53) by (apply Z.pow_le_mono_r; lia). lia.
Qed.

Lemma bin_num_ulp (m e : Z) : bin_num m e = m * bin_ulp e.
Proof. reflexivity. Qed.

Lemma bin_den_pos (e : Z) : 0 < bin_den e.
Proof. unfold bin_den. apply pow2_pos. lia. Qed.

Lemma bin_ulp_pos (e : Z) : 0 < bin_ulp e.
Proof. unfold bin_ulp. apply pow2_pos. lia. Qed.

Lemma toString_fraction (m : positive) (e : Z) :
  (if 0 <=? e then (Zpos m * 2 ^ e, 1) else (Zpos m, 2 ^ (- e)))
  = (bin_num (Zpos m) e, bin_den e).
Proof.
  unfold bin_num, bin_den. destruct (Z.leb_spec 0 e).
  - rewrite Z.max_l by lia. rewrite Z.add_0_r, Z.pow_0_r. reflexivity.
  - rewrite Z.max_r by lia. replace (e + - e) with 0 by lia.
    rewrite Z.pow_0_r, Z.mul_1_r. reflexivity.
Qed.

Lemma big_constants : 2 ^ 1024 <= 10 ^ 400 /\ 2 * 2 ^ 53 < 10 ^ 19.
Proof. split; vm_compute; [discriminate | reflexivity]. Qed.

(** The decimal magnitude of a binary64 value. *)
Lemma toString_magnitude (m : positive) (e : Z) :
  bounded 53 1024 m e = true ->
  let p := bin_num (Zpos m) e in
  let q := bin_den e in
  let n := Num.magnitude 800 (p * 10 ^ 400) q (-400) in
  -400 < n <= 400
  /\ p * 10 ^ 400 < q * 10 ^ (n + 400)
  /\ q * 10 ^ (n + 399) <= p * 10 ^ 400.
Proof.
  intros Hb p q n.
  destruct (bounded_range m e Hb) as [Hm He].
  destruct big_constants as [C1 _].
  assert (0 < 10 ^ 400) as P400 by (apply pow10_pos; lia).
  assert (0 < q) as Hq by apply bin_den_pos.
  assert (0 < p) as Hp.
  { unfold p. rewrite bin_num_ulp. pose proof (bin_ulp_pos e). lia. }
  assert (p * 10 ^ 400 < q * 10 ^ Z.of_nat 800) as Hup.
  { change (Z.of_nat 800) with (400 + 400). rewrite Z.pow_add_r by lia.
    assert (p < q * 10 ^ 400); [| nia].
    unfold p, q, bin_num, bin_den.
    destruct (Z.le_ge_cases 0 e).
    - rewrite Z.max_l by lia. rewrite Z.add_0_r, Z.pow_0_r, Z.mul_1_l.
      assert (2 ^ e <= 2 ^ 971) by (apply Z.pow_le_mono_r; lia).
      assert (Zpos m * 2 ^ e < 2 ^ 53 * 2 ^ 971) by (pose proof (pow2_pos e); nia).
      change (2 ^ 53 * 2 ^ 971) with (2 ^ 1024) in *. lia.
    - rewrite Z.max_r by lia. replace (e + - e) with 0 by lia.
      rewrite Z.pow_0_r, Z.mul_1_r.
      pose proof (pow2_pos (- e)).
      assert (2 ^ 53 <= 10 ^ 400) by (pose proof (pow2_pos 971); change (2 ^ 1024) with (2 ^ 53 * 2 ^ 971) in C1; nia).
      nia. }
  assert (q <= p * 10 ^ 400) as Hlow.
  { unfold p, q, bin_num, bin_den.
    destruct (Z.le_ge_cases 0 e).
    - rewrite Z.max_l by lia. rewrite Z.add_0_r, Z.pow_0_r.
      pose proof (pow2_pos e). nia.
    - rewrite Z.max_r by lia. replace (e + - e) with 0 by lia.
      rewrite Z.pow_0_r, Z.mul_1_r.
      assert (2 ^ (- e) <= 2 ^ 1074) by (apply Z.pow_le_mono_r; lia).
      assert (2 ^ 1074 <= 10 ^ 400) by (vm_compute; discriminate).
      nia. }
  destruct (magnitude_spec 800 (p * 10 ^ 400) q (-400) Hq Hup) as (H1 & H2 & H3).
  fold n in H1, H2, H3.
  replace (n - -400) with (n + 400) in * by lia.
  replace (n + 400 - 1) with (n + 399) in * by lia.
  assert (-400 < n) as Hn.
  { destruct (Z.eq_dec n (-400)) as [E | E]; [| lia].
    rewrite E in H2. change (-400 + 400) with 0 in H2. rewrite Z.pow_0_r in H2. lia. }
  split; [change (Z.of_nat 800) with 800 in H1; lia |].
  split; [assumption | apply H3; lia].
Qed.

(** *** The location of a quotient *)

Lemma new_location_even_loc_of (D N : Z) :
  Z.even D = true -> new_location D (N mod D) = loc_of N D.
Proof. intros H. unfold new_location, new_location_even, loc_of. now rewrite H. Qed.

Lemma compare_scale (c a b : Z) : 0 < c -> (c * a ?= c * b) = (a ?= b).
Proof.
  intros Hc. destruct (Z.compare_spec a b);
    [apply Z.compare_eq_iff | apply Z.compare_lt_iff | apply Z.compare_gt_iff]; nia.
Qed.

Lemma div_mod_scale (c N D : Z) :
  0 < c -> 0 < D ->
  (c * N) / (c * D) = N / D /\ (c * N) mod (c * D) = c * (N mod D).
Proof.
  intros Hc HD. split.
  - apply Z.div_mul_cancel_l; lia.
  - apply Z.mul_mod_distr_l; lia.
Qed.

Lemma loc_of_scale (c N D : Z) :
  0 < c -> 0 < D -> loc_of (c * N) (c * D) = loc_of N D.
Proof.
  intros Hc HD. unfold loc_of.
  destruct (div_mod_scale c N D Hc HD) as [_ ->].
  destruct (Z.eqb_spec (N mod D) 0) as [E | E].
  - rewrite E, Z.mul_0_r. reflexivity.
  - assert ((c * (N mod D) =? 0) = false) as -> by (apply Z.eqb_neq; nia).
    f_equal. rewrite Z.mul_assoc, (Z.mul_comm 2 c), <- Z.mul_assoc.
    apply compare_scale. assumption.
Qed.

(** Shifting by [j] is dividing by [2^j], for the mantissa and for the
    location. *)
Lemma shr_location (N D e j : Z) :
  0 <= N -> 0 < D -> 0 <= j ->
  shr (shr_record_of_loc (N / D) (loc_of N D)) e j
  = (shr_record_of_loc (N / (D * 2 ^ j)) (loc_of N (D * 2 ^ j)), e + j).
Proof.
  intros HN HD Hj.
  destruct j as [| p | p]; try lia.
  - cbn [shr]. rewrite Z.pow_0_r, Z.mul_1_r, Z.add_0_r. reflexivity.
  - cbn [shr]. f_equal. rewrite iter_pos_nat.
    destruct (Pos2Nat.is_succ p) as [n Hn]. rewrite Hn.
    assert (Zpos p = Z.of_nat (S n)) as Hp by (rewrite <- Hn; now rewrite positive_nat_Z).
    assert (2 ^ Zpos p = 2 * 2 ^ Z.of_nat n) as E
      by (rewrite Hp, Nat2Z.inj_succ, Z.pow_succ_r; lia).
    assert (0 < 2 ^ Z.of_nat n) as HP by (apply Z.pow_pos_nonneg; lia).
    set (q := N / D). set (r := N mod D).
    assert (N = D * q + r /\ 0 <= r < D) as [EN Hr].
    { unfold q, r. split; [apply Z.div_mod; lia | apply Z.mod_pos_bound; lia]. }
    assert (0 <= q) as Hq by (apply Z.div_pos; lia).
    assert (exists r0 s0,
               shr_record_of_loc q (loc_of N D) = {| shr_m := q; shr_r := r0; shr_s := s0 |}
               /\ r0 || s0 = negb (r =? 0)) as (r0 & s0 & -> & Hrs).
    { unfold loc_of. fold r. destruct (Z.eqb_spec r 0).
      - eexists _, _. split; reflexivity.
      - destruct (2 * r ?= D); eexists _, _; split; reflexivity. }
    rewrite shr_steps by assumption.
    rewrite <- Hp, E. set (P := 2 ^ Z.of_nat n) in *.
    set (b := (q / P) mod 2). set (x := q mod P).
    assert (q = P * (q / P) + x /\ 0 <= x < P) as [Eqx Hx].
    { unfold x. split; [apply Z.div_mod; lia | apply Z.mod_pos_bound; lia]. }
    assert (q / P = 2 * (q / P / 2) + b /\ 0 <= b < 2) as [Eb Hb].
    { unfold b. split; [apply Z.div_mod; lia | apply Z.mod_pos_bound; lia]. }
    set (h := q / P / 2) in *.
    set (X := r + D * x).
    assert (0 <= X < D * P) as HX by (unfold X; nia).
    assert (N = D * (2 * P) * h + (D * P * b + X)) as EN2 by (unfold X; nia).
    assert (N / (D * (2 * P)) = h) as Eh.
    { symmetry. apply (Z.div_unique N (D * (2 * P)) h (D * P * b + X)); nia. }
    assert (N mod (D * (2 * P)) = D * P * b + X) as Em.
    { symmetry. apply (Z.mod_unique N (D * (2 * P)) h (D * P * b + X)); nia. }
    assert (q / (2 * P) = h) as Eqh.
    { unfold h. rewrite Z.mul_comm, <- Z.div_div by lia. reflexivity. }
    rewrite Eqh, Eh. unfold loc_of. rewrite Em.
    assert (Z.odd (q / P) = (b =? 1)) as Eodd.
    { unfold b. rewrite Zmod_odd. destruct (Z.odd (q / P)); reflexivity. }
    rewrite Eodd, Hrs. fold x.
    assert (negb (r =? 0) || negb (x =? 0) = negb (X =? 0)) as ->.
    { destruct (Z.eqb_spec r 0), (Z.eqb_spec x 0), (Z.eqb_spec X 0); cbn;
        try reflexivity; exfalso; unfold X in *; nia. }
    assert (b = 0 \/ b = 1) as [-> | ->] by lia.
    + rewrite Z.mul_0_r, Z.add_0_l. cbn [Z.eqb].
      destruct (Z.eqb_spec X 0) as [-> | HX0]; [reflexivity |].
      assert ((2 * X ?= D * (2 * P)) = Lt) as -> by (apply Z.compare_lt_iff; nia).
      reflexivity.
    + rewrite Z.mul_1_r. cbn [Z.eqb Pos.eqb].
      destruct (Z.eqb_spec X 0) as [-> | HX0].
      * rewrite Z.add_0_r.
        assert ((D * P =? 0) = false) as -> by (apply Z.eqb_neq; nia).
        assert ((2 * (D * P) ?= D * (2 * P)) = Eq) as -> by (apply Z.compare_eq_iff; nia).
        reflexivity.
      * assert ((D * P + X =? 0) = false) as -> by (apply Z.eqb_neq; nia).
        assert ((2 * (D * P + X) ?= D * (2 * P)) = Gt) as -> by (apply Z.compare_gt_iff; nia).
        reflexivity.
Qed.

(** *** Rounding a fraction *)

Lemma lt_pow2_shift (a b g K : Z) :
  0 <= K -> 0 <= g + K -> (lt_pow2 a b g <-> a * 2 ^ K < b * 2 ^ (g + K)).
Proof.
  intros HK HgK. unfold lt_pow2.
  set (t := Z.max 0 (- g)).
  assert (0 <= t /\ t <= K /\ Z.max 0 g = g + t) as (Ht & HtK & ->) by (unfold t; lia).
  assert (2 ^ K = 2 ^ t * 2 ^ (K - t)) as ->.
  { rewrite <- Z.pow_add_r by lia. f_equal. lia. }
  assert (2 ^ (g + K) = 2 ^ (g + t) * 2 ^ (K - t)) as ->.
  { rewrite <- Z.pow_add_r by lia. f_equal. lia. }
  pose proof (pow2_pos (K - t) ltac:(lia)).
  rewrite !Z.mul_assoc. split; intros; nia.
Qed.

Lemma lt_pow2_mono (a b g g' : Z) :
  0 <= b -> g <= g' -> lt_pow2 a b g -> lt_pow2 a b g'.
Proof.
  intros Hb Hg H.
  set (K := Z.max 0 (- g)).
  apply (lt_pow2_shift a b g K) in H; [| unfold K; lia | unfold K; lia].
  apply (lt_pow2_shift a b g' K); [unfold K; lia | unfold K; lia |].
  assert (2 ^ (g + K) <= 2 ^ (g' + K)) by (apply Z.pow_le_mono_r; unfold K; lia).
  nia.
Qed.

Lemma is_mag_unique (g g' a b : Z) :
  0 <= b -> is_mag g a b -> is_mag g' a b -> g = g'.
Proof.
  intros Hb [H1 H2] [H1' H2'].
  destruct (Z.lt_trichotomy g g') as [L | [E | L]]; [exfalso | assumption | exfalso].
  - apply H2'. apply (lt_pow2_mono a b g); auto. lia.
  - apply H2. apply (lt_pow2_mono a b g'); auto. lia.
Qed.

Lemma lt_pow2_scale (c a b g : Z) :
  0 < c -> (lt_pow2 (c * a) (c * b) g <-> lt_pow2 a b g).
Proof. intros Hc. unfold lt_pow2. rewrite <- !Z.mul_assoc. split; intros; nia. Qed.

Lemma is_mag_scale (c g a b : Z) :
  0 < c -> (is_mag g (c * a) (c * b) <-> is_mag g a b).
Proof. intros Hc. unfold is_mag. now rewrite !lt_pow2_scale. Qed.

Lemma is_mag_digits (n : Z) : 0 < n -> is_mag (Zdigits2 n) n 1.
Proof.
  intros Hn. destruct (Zdigits2_bounds n Hn) as [Hd [B1 B2]].
  set (d := Zdigits2 n) in *. split.
  - apply (lt_pow2_shift n 1 d 0); try lia. rewrite Z.add_0_r, Z.pow_0_r. lia.
  - intros H. apply (lt_pow2_shift n 1 (d - 1) 0) in H; try lia.
    rewrite Z.add_0_r, Z.pow_0_r in H. lia.
Qed.

Lemma is_mag_exists (a b : Z) :
  0 < a -> 0 < b ->
  exists g, is_mag g a b /\ Zdigits2 a - Zdigits2 b <= g <= Zdigits2 a - Zdigits2 b + 1.
Proof.
  intros Ha Hb.
  destruct (Zdigits2_bounds a Ha) as [Hda [A1 A2]].
  destruct (Zdigits2_bounds b Hb) as [Hdb [B1 B2]].
  set (da := Zdigits2 a) in *. set (db := Zdigits2 b) in *.
  assert (lt_pow2 a b (da - db + 1)) as Hup.
  { apply (lt_pow2_shift a b (da - db + 1) db); try lia.
    replace (da - db + 1 + db) with (da + 1) by lia.
    assert (2 ^ db = 2 * 2 ^ (db - 1)) as ->.
    { replace db with (Z.succ (db - 1)) at 1 by lia. rewrite Z.pow_succ_r by lia. lia. }
    rewrite Z.pow_add_r by lia. pose proof (pow2_pos (db - 1) ltac:(lia)).
    pose proof (pow2_pos da ltac:(lia)). nia. }
  assert (~ lt_pow2 a b (da - db - 1)) as Hlow.
  { intros H. apply (lt_pow2_shift a b (da - db - 1) db) in H; try lia.
    replace (da - db - 1 + db) with (da - 1) in H by lia.
    pose proof (pow2_pos (da - 1) ltac:(lia)). nia. }
  assert (lt_pow2 a b (da - db) \/ ~ lt_pow2 a b (da - db)) as [H | H].
  { unfold lt_pow2. lia. }
  - exists (da - db). split; [split; assumption | lia].
  - exists (da - db + 1). split; [| lia]. split; [assumption |].
    now replace (da - db + 1 - 1) with (da - db) by lia.
Qed.

Lemma shr_record_of_loc_m (q : Z) (l : location) : shr_m (shr_record_of_loc q l) = q.
Proof. destruct l as [| []]; reflexivity. Qed.

Lemma loc_of_shr_record_of_loc (q : Z) (l : location) :
  loc_of_shr_record (shr_record_of_loc q l) = l.
Proof. destruct l as [| []]; reflexivity. Qed.

Lemma binary_round_aux_finish (sx : bool) (mx ex : Z) (lx : location) (q E : Z)
    (l : location) :
  shr_fexp 53 1024 mx ex lx = (shr_record_of_loc q l, E) ->
  binary_round_aux 53 1024 sx mx ex lx = finish sx q l E.
Proof.
  intros H. unfold binary_round_aux. rewrite H.
  rewrite shr_record_of_loc_m, loc_of_shr_record_of_loc. reflexivity.
Qed.

Lemma round_frac_scale (sx : bool) (c a b g : Z) :
  0 < c -> 0 < b -> round_frac sx (c * a) (c * b) g = round_frac sx a b g.
Proof.
  intros Hc Hb. unfold round_frac. cbv zeta.
  set (E := fexp 53 1024 g).
  pose proof (pow2_pos (Z.max 0 E) ltac:(lia)).
  rewrite <- !Z.mul_assoc.
  destruct (div_mod_scale c (a * 2 ^ Z.max 0 (- E)) (b * 2 ^ Z.max 0 E) Hc ltac:(nia))
    as [-> _].
  rewrite loc_of_scale by nia. reflexivity.
Qed.

Lemma iter_xO (p : positive) (d : positive) :
  Zpos (Pos.iter xO p d) = Zpos p * 2 ^ Zpos d.
Proof.
  revert p. induction d as [| d IH] using Pos.peano_ind; intros p.
  - cbn [Pos.iter]. rewrite Pos2Z.inj_xO. lia.
  - rewrite Pos.iter_succ, Pos2Z.inj_xO, IH, Pos2Z.inj_succ, Z.pow_succ_r by lia. lia.
Qed.

(** The integer path of [of_decimal]. *)
Lemma binary_round_round_frac (sx : bool) (P : positive) :
  binary_round 53 1024 sx P 0
  = round_frac sx (Zpos P) 1 (Zpos (digits2_pos P)).
Proof.
  unfold binary_round, round_frac. cbv zeta.
  rewrite Z.add_0_r.
  set (dP := Zpos (digits2_pos P)).
  set (F := fexp 53 1024 dP).
  pose proof (digits2_pos_bounds P) as [B1 B2]. fold dP in B1, B2.
  assert (0 < dP) as HdP by (unfold dP; lia).
  unfold shl_align. rewrite Z.sub_0_r.
  destruct F as [| pF | pF] eqn:EF.
  - (* no shift at all *)
    apply binary_round_aux_finish.
    unfold shr_fexp. cbn [Zdigits2]. fold dP. rewrite Z.add_0_r. fold F in EF |- *.
    rewrite EF. cbn [Z.sub Z.opp Z.add shr Z.max Z.pow]. rewrite !Z.mul_1_r.
    rewrite Z.div_1_r. unfold loc_of. rewrite Z.mod_1_r. reflexivity.
  - (* shift right *)
    apply binary_round_aux_finish.
    unfold shr_fexp. cbn [Zdigits2]. fold dP. rewrite Z.add_0_r. fold F in EF |- *.
    rewrite EF, Z.sub_0_r.
    assert (shr_record_of_loc (Zpos P) loc_Exact
            = shr_record_of_loc (Zpos P / 1) (loc_of (Zpos P) 1)) as ->.
    { rewrite Z.div_1_r. unfold loc_of. rewrite Z.mod_1_r. reflexivity. }
    rewrite shr_location by lia.
    rewrite Z.max_l by lia. rewrite Z.max_r by lia.
    change (- Zpos pF) with (Zneg pF).
    rewrite Z.pow_0_r, Z.mul_1_r, Z.add_0_l. reflexivity.
  - (* shift left *)
    apply binary_round_aux_finish.
    unfold shr_fexp. cbn [Zdigits2].
    assert (Zpos (digits2_pos (Pos.iter xO P pF)) + Zneg pF = dP) as Hd.
    { change (Zpos (digits2_pos (Pos.iter xO P pF))) with (Zdigits2 (Zpos (Pos.iter xO P pF))).
      rewrite iter_xO.
      rewrite (Zdigits2_unique (Zpos P * 2 ^ Zpos pF) (dP + Zpos pF)); [lia | lia |].
      replace (dP + Zpos pF - 1) with (dP - 1 + Zpos pF) by lia.
      rewrite !Z.pow_add_r by lia. pose proof (pow2_pos (Zpos pF) ltac:(lia)). nia. }
    rewrite Hd. fold F. rewrite EF, Z.sub_diag. cbn [shr].
    rewrite Z.max_r by lia. rewrite Z.max_l by lia.
    change (- Zneg pF) with (Zpos pF).
    rewrite Z.pow_0_r, Z.mul_1_r, Z.div_1_r, iter_xO.
    unfold loc_of. rewrite Z.mod_1_r. reflexivity.
Qed.

(** *** A decimal literal is rounded as the fraction it denotes *)

Lemma fexp_mono (g g' : Z) : g <= g' -> fexp 53 1024 g <= fexp 53 1024 g'.
Proof. unfold fexp, emin. lia. Qed.

(** The quotient path of [of_decimal]. *)
Lemma SFdiv_round_frac (sx : bool) (M : positive) (D : Z) :
  0 < D -> Z.even D = true ->
  exists g,
    is_mag g (Zpos M) D
    /\ (let '(q, e', l) := SFdiv_core_binary 53 1024 (Zpos M) 0 D 0 in
        binary_round_aux 53 1024 sx q e' l)
       = round_frac sx (Zpos M) D g.
Proof.
  intros HD Heven.
  destruct (is_mag_exists (Zpos M) D ltac:(lia) HD) as (g & Hg & Hg1 & Hg2).
  exists g. split; [assumption |].
  unfold SFdiv_core_binary. rewrite !Z.add_0_r, Z.sub_0_r.
  set (d1 := Zdigits2 (Zpos M)) in *. set (d2 := Zdigits2 D) in *.
  destruct (Zdigits2_bounds (Zpos M)) as [Hd1 [M1 M2]]; [lia |].
  destruct (Zdigits2_bounds D) as [Hd2 [D1 D2]]; [lia |].
  fold d1 in Hd1, M1, M2. fold d2 in Hd2, D1, D2.
  set (e' := Z.min (fexp 53 1024 (d1 - d2)) 0).
  set (s := 0 - e').
  assert (0 <= s) as Hs by (unfold s, e'; lia).
  rewrite (shiftl_match (Zpos M) s Hs).
  set (N := Zpos M * 2 ^ s).
  assert (0 < 2 ^ s) as Hps by (apply pow2_pos; lia).
  assert (0 < N) as HN by (unfold N; nia).
  pose proof (Z_div_mod N D ltac:(lia)) as Hdiv.
  assert (Z.div_eucl N D = (N / D, N mod D)) as Edm.
  { unfold Z.div, Z.modulo. now destruct (Z.div_eucl N D). }
  rewrite Edm. clear Hdiv Edm.
  rewrite new_location_even_loc_of by assumption.
  set (E := fexp 53 1024 g).
  assert (e' <= E) as He'E.
  { unfold e', E. pose proof (fexp_mono (d1 - d2) g ltac:(lia)). lia. }
  assert (fexp 53 1024 (Zdigits2 (N / D) + e') = E) as HE.
  { destruct (Z.eq_dec (N / D) 0) as [Eq0 | Hq].
    - (* the quotient is zero: the exponent is the least one *)
      rewrite Eq0. cbn [Zdigits2]. rewrite Z.add_0_l.
      assert (N < D) as HND.
      { apply Z.div_small_iff in Eq0; lia. }
      assert (fexp 53 1024 (d1 - d2) = -1074) as Hmin.
      { destruct (Z.eq_dec (fexp 53 1024 (d1 - d2)) (-1074)) as [? | Hne]; [assumption |].
        exfalso.
        assert (fexp 53 1024 (d1 - d2) = d1 - d2 - 53) as Ef by (unfold fexp, emin in *; lia).
        assert (53 + d2 - d1 <= s) as Hs' by (unfold s, e'; lia).
        assert (2 ^ (d1 - 1) * 2 ^ (53 + d2 - d1) <= N).
        { unfold N.
          assert (2 ^ (53 + d2 - d1) <= 2 ^ s) by (apply Z.pow_le_mono_r; lia).
          pose proof (pow2_pos (d1 - 1) ltac:(lia)).
          pose proof (pow2_pos (53 + d2 - d1)). nia. }
        destruct (Z.le_gt_cases 0 (53 + d2 - d1)) as [L | L].
        - rewrite <- Z.pow_add_r in H by lia.
          replace (d1 - 1 + (53 + d2 - d1)) with (52 + d2) in H by lia.
          rewrite Z.pow_add_r in H by lia.
          pose proof (pow2_pos d2 ltac:(lia)).
          remember (2 ^ 52) as c eqn:Ec.
          assert (1 <= c) by (subst c; vm_compute; discriminate).
          clear Ec.
          assert (2 ^ d2 <= c * 2 ^ d2) by (clear - H0 H1; nia).
          clearbody N. lia.
        - assert (2 ^ d2 <= 2 ^ (d1 - 1)) by (apply Z.pow_le_mono_r; lia).
          assert (Zpos M <= N) by (unfold N; nia).
          clearbody N. lia. }
      assert (e' = -1074) as He' by (unfold e'; lia).
      rewrite He'. 
      assert (g <= -1074).
      { destruct (Z.le_gt_cases g (-1074)) as [L | L]; [assumption | exfalso].
        destruct Hg as [_ Hg]. apply Hg.
        apply (lt_pow2_mono (Zpos M) D (-1074)); [lia | lia |].
        apply (lt_pow2_shift (Zpos M) D (-1074) 1074); try lia.
        replace (-1074 + 1074) with 0 by lia. rewrite Z.pow_0_r, Z.mul_1_r.
        unfold N, s in HND. rewrite He' in HND. exact HND. }
      unfold E, fexp, emin. lia.
    - (* otherwise its digits give the magnitude *)
      assert (0 < N / D) as Hq0.
      { pose proof (Z.div_pos N D ltac:(lia) HD). lia. }
      destruct (Zdigits2_bounds (N / D) Hq0) as [Hdq [Q1 Q2]].
      set (dq := Zdigits2 (N / D)) in *.
      pose proof (Z.div_mod N D ltac:(lia)) as EN.
      pose proof (Z.mod_pos_bound N D HD) as Hr.
      assert (N < D * 2 ^ dq /\ D * 2 ^ (dq - 1) <= N) as [HA HB].
      { revert EN Hr Q1 Q2. generalize (N / D) (N mod D) (2 ^ dq) (2 ^ (dq - 1)).
        clearbody N. intros. clear - HD EN Hr Q1 Q2. split; nia. }
      assert (is_mag (dq + e') (Zpos M) D) as Hmag.
      { split.
        - apply (lt_pow2_shift (Zpos M) D (dq + e') s); [lia | unfold s; lia |].
          replace (dq + e' + s) with dq by (unfold s; lia). exact HA.
        - intros H.
          apply (lt_pow2_shift (Zpos M) D (dq + e' - 1) s) in H; [| lia | unfold s; lia].
          replace (dq + e' - 1 + s) with (dq - 1) in H by (unfold s; lia).
          fold N in H. clearbody N. lia. }
      rewrite (is_mag_unique (dq + e') g (Zpos M) D ltac:(lia) Hmag Hg). reflexivity. }
  unfold round_frac. cbv zeta. fold E.
  apply binary_round_aux_finish.
  unfold shr_fexp. rewrite HE.
  rewrite shr_location by lia.
  replace (e' + (E - e')) with E by lia.
  f_equal.
  set (j := E - e').
  assert (0 <= j) as Hj by (unfold j; lia).
  assert (0 < 2 ^ j) as Hpj by (apply pow2_pos; lia).
  assert (j = E + s) as Ej by (unfold j, s; lia).
  destruct (Z.le_gt_cases 0 E) as [L | L].
  - (* the common factor is [2^s] *)
    rewrite Z.max_l by lia. rewrite (Z.max_r 0 E) by lia.
    rewrite Z.pow_0_r, Z.mul_1_r.
    assert (N = 2 ^ s * Zpos M) as -> by (unfold N; lia).
    assert (D * 2 ^ j = 2 ^ s * (D * 2 ^ E)) as ->.
    { rewrite Ej, Z.pow_add_r by lia. lia. }
    pose proof (pow2_pos E L).
    destruct (div_mod_scale (2 ^ s) (Zpos M) (D * 2 ^ E) Hps ltac:(nia)) as [-> _].
    rewrite loc_of_scale by nia. reflexivity.
  - (* the common factor is [2^j] *)
    rewrite Z.max_r by lia. rewrite (Z.max_l 0 E) by lia.
    rewrite Z.pow_0_r, Z.mul_1_r.
    assert (N = 2 ^ j * (Zpos M * 2 ^ (- E))) as ->.
    { unfold N. replace s with (j + - E) by lia. rewrite Z.pow_add_r by lia. lia. }
    rewrite (Z.mul_comm D (2 ^ j)).
    destruct (div_mod_scale (2 ^ j) (Zpos M * 2 ^ (- E)) D Hpj HD) as [-> _].
    rewrite loc_of_scale by lia. reflexivity.
Qed.

(** [of_decimal] rounds the fraction its arguments denote. *)
Lemma of_decimal_round_frac (neg : bool) (M : positive) (E : Z) :
  exists g,
    is_mag g (dec_num (Zpos M) E) (dec_den E)
    /\ Num.of_decimal neg (Zpos M) E
       = round_frac neg (dec_num (Zpos M) E) (dec_den E) g.
Proof.
  unfold Num.of_decimal, dec_num, dec_den, Num.prec, Num.emax.
  destruct (Z.leb_spec 0 E) as [HE | HE].
  - pose proof (pow10_pos E HE) as Hp.
    exists (Zpos (digits2_pos (M * Z.to_pos (10 ^ E)))).
    assert (Zpos (M * Z.to_pos (10 ^ E)) = Zpos M * 10 ^ E) as EN.
    { rewrite Pos2Z.inj_mul, Z2Pos.id by assumption. reflexivity. }
    rewrite <- EN. split.
    + apply (is_mag_digits (Zpos (M * Z.to_pos (10 ^ E)))). lia.
    + apply binary_round_round_frac.
  - destruct (SFdiv_round_frac neg M (10 ^ (- E))) as (g & Hg & H).
    + apply pow10_pos. lia.
    + apply even_pow10. lia.
    + exists g. split; [assumption |].
      rewrite <- H.
      destruct (SFdiv_core_binary 53 1024 (Zpos M) 0 (10 ^ (- E)) 0) as [[q e'] l].
      reflexivity.
Qed.

(** Two decimals with the same value denote the same Number. *)
Theorem of_decimal_same_value (neg : bool) (M1 M2 : positive) (E1 E2 : Z) :
  dec_num (Zpos M1) E1 * dec_den E2 = dec_num (Zpos M2) E2 * dec_den E1 ->
  Num.of_decimal neg (Zpos M1) E1 = Num.of_decimal neg (Zpos M2) E2.
Proof.
  intros Hv.
  destruct (of_decimal_round_frac neg M1 E1) as (g1 & Hg1 & ->).
  destruct (of_decimal_round_frac neg M2 E2) as (g2 & Hg2 & ->).
  set (a1 := dec_num (Zpos M1) E1) in *. set (b1 := dec_den E1) in *.
  set (a2 := dec_num (Zpos M2) E2) in *. set (b2 := dec_den E2) in *.
  assert (0 < b1 /\ 0 < b2) as [Hb1 Hb2].
  { unfold b1, b2, dec_den. split.
    - destruct (Z.leb_spec 0 E1); [lia | apply pow10_pos; lia].
    - destruct (Z.leb_spec 0 E2); [lia | apply pow10_pos; lia]. }
  assert (g1 = g2) as ->.
  { apply (is_mag_unique g1 g2 (b2 * a1) (b2 * b1));
      [apply Z.mul_nonneg_nonneg; lia | |].
    - now apply is_mag_scale.
    - replace (b2 * a1) with (b1 * a2) by lia. rewrite (Z.mul_comm b2 b1).
      now apply is_mag_scale. }
  rewrite <- (round_frac_scale neg b2 a1 b1 g2) by assumption.
  rewrite <- (round_frac_scale neg b1 a2 b2 g2) by assumption.
  f_equal; lia.
Qed.

(** *** The digits [shortest] returns *)

Lemma dec_den_pos (E : Z) : 0 < dec_den E.
Proof. unfold dec_den. destruct (Z.leb_spec 0 E); [lia | apply pow10_pos; lia]. Qed.

(** The fraction of a decimal, at a common scale. *)
Lemma dec_scaled (M E K : Z) :
  0 <= K -> 0 <= E + K ->
  dec_num M E * 10 ^ K = M * 10 ^ (E + K) * dec_den E.
Proof.
  intros HK HEK. unfold dec_num, dec_den. destruct (Z.leb_spec 0 E).
  - rewrite Z.pow_add_r by lia. lia.
  - replace K with (E + K + - E) at 1 by lia. rewrite (Z.pow_add_r 10 (E + K)) by lia. lia.
Qed.

Lemma of_decimal_scaled (neg : bool) (M1 M2 : positive) (E1 E2 K : Z) :
  0 <= K -> 0 <= E1 + K -> 0 <= E2 + K ->
  Zpos M1 * 10 ^ (E1 + K) = Zpos M2 * 10 ^ (E2 + K) ->
  Num.of_decimal neg (Zpos M1) E1 = Num.of_decimal neg (Zpos M2) E2.
Proof.
  intros HK H1 H2 Hv. apply of_decimal_same_value.
  pose proof (dec_scaled (Zpos M1) E1 K HK H1) as A1.
  pose proof (dec_scaled (Zpos M2) E2 K HK H2) as A2.
  pose proof (pow10_pos K HK) as HpK.
  apply (Z.mul_cancel_r _ _ (10 ^ K)); [lia |].
  replace (dec_num (Zpos M1) E1 * dec_den E2 * 10 ^ K)
    with (dec_num (Zpos M1) E1 * 10 ^ K * dec_den E2) by lia.
  replace (dec_num (Zpos M2) E2 * dec_den E1 * 10 ^ K)
    with (dec_num (Zpos M2) E2 * 10 ^ K * dec_den E1) by lia.
  rewrite A1, A2, Hv. lia.
Qed.

Lemma pick_digits (x : Number) (s k n : Z) :
  Num.of_decimal false s (n - k) = x ->
  1 <= k <= 20 -> 10 ^ (k - 1) <= s <= 10 ^ k -> -400 <= n <= 400 ->
  digits_of x (if s =? 10 ^ k then (1, 1, n + 1) else (s, k, n)).
Proof.
  intros Hx Hk Hs Hn.
  pose proof (pow10_pos k ltac:(lia)) as Hpk.
  destruct (Z.eqb_spec s (10 ^ k)) as [E | E].
  - cbn [digits_of]. split; [| cbn; lia].
    rewrite <- Hx, E. replace (n + 1 - 1) with n by lia.
    assert (10 ^ k = Zpos (Z.to_pos (10 ^ k))) as E10 by (rewrite Z2Pos.id; lia).
    rewrite E10. symmetry.
    apply (of_decimal_scaled false _ _ _ _ (400 + k)); try lia.
    rewrite <- E10, <- Z.pow_add_r by lia. rewrite Z.mul_1_l. f_equal. lia.
  - cbn [digits_of]. repeat split; try lia. exact Hx.
Qed.

Lemma scale10_spec (p q n k : Z) :
  0 < p -> 0 < q -> -400 < n <= 400 -> 1 <= k <= 20 ->
  p * 10 ^ 400 < q * 10 ^ (n + 400) ->
  q * 10 ^ (n + 399) <= p * 10 ^ 400 ->
  let a := fst (Num.scale10 p q (k - n)) in
  let b := snd (Num.scale10 p q (k - n)) in
  0 < b /\ 10 ^ (k - 1) * b <= a < 10 ^ k * b.
Proof.
  intros Hp Hq Hn Hk Hup Hlow a b.
  assert (0 < 10 ^ 400) as HX by (apply pow10_pos; lia).
  pose proof (pow10_pos (k - 1) ltac:(lia)) as Hk1.
  pose proof (pow10_pos k ltac:(lia)) as Hk0.
  unfold a, b, Num.scale10. destruct (Z.leb_spec 0 (k - n)) as [L | L]; cbn [fst snd].
  - pose proof (pow10_pos (k - n) L) as HD.
    split; [assumption |].
    assert (10 ^ (k - 1) * 10 ^ 400 = 10 ^ (n + 399) * 10 ^ (k - n)) as E1.
    { rewrite <- !Z.pow_add_r by lia. f_equal. lia. }
    assert (10 ^ k * 10 ^ 400 = 10 ^ (n + 400) * 10 ^ (k - n)) as E2.
    { rewrite <- !Z.pow_add_r by lia. f_equal. lia. }
    split.
    + apply (Z.mul_le_mono_pos_r _ _ (10 ^ 400)); [assumption |].
      replace (10 ^ (k - 1) * q * 10 ^ 400) with (q * (10 ^ (k - 1) * 10 ^ 400)) by lia.
      rewrite E1. nia.
    + apply (Z.mul_lt_mono_pos_r (10 ^ 400)); [assumption |].
      replace (10 ^ k * q * 10 ^ 400) with (q * (10 ^ k * 10 ^ 400)) by lia.
      rewrite E2. nia.
  - pose proof (pow10_pos (- (k - n)) ltac:(lia)) as HD.
    split; [nia |].
    assert (10 ^ (n + 399) = 10 ^ (k - 1) * 10 ^ (- (k - n)) * 10 ^ 400) as E1.
    { rewrite <- !Z.pow_add_r by lia. f_equal. lia. }
    assert (10 ^ (n + 400) = 10 ^ k * 10 ^ (- (k - n)) * 10 ^ 400) as E2.
    { rewrite <- !Z.pow_add_r by lia. f_equal. lia. }
    rewrite E1 in Hlow. rewrite E2 in Hup.
    split.
    + apply (Z.mul_le_mono_pos_r _ _ (10 ^ 400)); [assumption |]. lia.
    + apply (Z.mul_lt_mono_pos_r (10 ^ 400)); [assumption |]. lia.
Qed.

(** *** Twenty digits are enough *)

(** With twenty digits the decimal just above the Number denotes it. *)
Lemma twenty_digits_suffice (m : positive) (e n : Z) :
  bounded 53 1024 m e = true ->
  let p := bin_num (Zpos m) e in
  let q := bin_den e in
  -400 < n <= 400 ->
  q * 10 ^ (n + 399) <= p * 10 ^ 400 ->
  let a := fst (Num.scale10 p q (20 - n)) in
  let b := snd (Num.scale10 p q (20 - n)) in
  Num.of_decimal false (a / b + 1) (n - 20) = S754_finite false m e.
Proof.
  intros Hb p q Hn Hlow a b.
  destruct (bounded_range m e Hb) as [Hm He].
  destruct big_constants as [_ C19].
  pose proof (bin_den_pos e) as Hq. fold q in Hq.
  pose proof (bin_ulp_pos e) as Hu. set (u := bin_ulp e) in *.
  assert (p = Zpos m * u) as Ep by reflexivity.
  assert (0 < p) as Hp by nia.
  assert (0 < 10 ^ 400) as HX by (apply pow10_pos; lia).
  set (X := 10 ^ 400) in *.
  assert (q * 10 ^ (n + 399) < 2 ^ 53 * u * X) as Hmargin by nia.
  assert (0 < b /\ b * (a / b) <= a < b * (a / b + 1)) as [Hbpos Hdiv].
  { assert (0 < b) as Hbp.
    { unfold b, Num.scale10. destruct (Z.leb_spec 0 (20 - n)); cbn [snd]; [assumption |].
      pose proof (pow10_pos (- (20 - n)) ltac:(lia)). nia. }
    split; [assumption |].
    pose proof (Z.div_mod a b ltac:(lia)). pose proof (Z.mod_pos_bound a b Hbp). nia. }
  set (lo := a / b) in *.
  assert (0 <= lo) as Hlo.
  { apply Z.div_pos; [| assumption].
    unfold a, Num.scale10. destruct (Z.leb_spec 0 (20 - n)); cbn [fst]; [| lia].
    pose proof (pow10_pos (20 - n) ltac:(lia)). nia. }
  assert (lo + 1 = Zpos (Z.to_pos (lo + 1))) as Ehi by (rewrite Z2Pos.id; lia).
  rewrite Ehi. apply of_decimal_above; [assumption | |]; rewrite <- Ehi;
    fold p; fold q; fold u.
  - (* above *)
    unfold dec_num, dec_den.
    unfold a, b, Num.scale10 in Hdiv.
    destruct (Z.leb_spec 0 (n - 20)) as [L | L].
    + destruct (Z.leb_spec 0 (20 - n)) as [L' | L']; cbn [fst snd] in Hdiv.
      * assert (n - 20 = 0) as En by lia. assert (20 - n = 0) as En' by lia.
        rewrite En. rewrite En' in Hdiv. rewrite Z.pow_0_r in *. lia.
      * replace (- (20 - n)) with (n - 20) in Hdiv by lia. lia.
    + destruct (Z.leb_spec 0 (20 - n)) as [L' | L']; cbn [fst snd] in Hdiv; [| lia].
      replace (- (n - 20)) with (20 - n) by lia. lia.
  - (* by less than half a unit *)
    unfold dec_num, dec_den.
    unfold a, b, Num.scale10 in Hdiv.
    assert (2 ^ 53 * 2 < 10 ^ 19) as C by lia.
    pose proof (pow10_pos 19 ltac:(lia)) as HT. set (T := 10 ^ 19) in *.
    destruct (Z.leb_spec 0 (n - 20)) as [L | L].
    + (* an integer *)
      pose proof (pow10_pos (n - 20) L) as HD. 
      assert (10 ^ (n + 399) = 10 ^ (n - 20) * T * X) as E1.
      { unfold T, X. rewrite <- !Z.pow_add_r by lia. f_equal. lia. }
      rewrite E1 in Hmargin.
      assert (q * 10 ^ (n - 20) * T < 2 ^ 53 * u) as Hm2.
      { apply (Z.mul_lt_mono_pos_r X); [assumption |]. lia. }
      assert (2 * (q * 10 ^ (n - 20)) < u) as Hm3.
      { set (B := q * 10 ^ (n - 20)) in *. assert (0 < B) by (unfold B; nia).
        remember (2 ^ 53) as c. assert (0 < c) by (subst c; reflexivity).
        clear - Hm2 C H H0 Hu. nia. }
      destruct (Z.leb_spec 0 (20 - n)) as [L' | L']; cbn [fst snd] in Hdiv.
      * assert (n - 20 = 0) as En by lia. assert (20 - n = 0) as En' by lia.
        rewrite En in *. rewrite En' in Hdiv. rewrite Z.pow_0_r in *. lia.
      * replace (- (20 - n)) with (n - 20) in Hdiv by lia. nia.
    + (* a quotient *)
      destruct (Z.leb_spec 0 (20 - n)) as [L' | L']; cbn [fst snd] in Hdiv; [| lia].
      replace (- (n - 20)) with (20 - n) by lia.
      pose proof (pow10_pos (20 - n) L') as HD. set (D := 10 ^ (20 - n)) in *.
      assert (10 ^ (n + 399) * D = T * X) as E1.
      { unfold T, X, D. rewrite <- !Z.pow_add_r by lia. f_equal. lia. }
      assert (q * T < 2 ^ 53 * u * D) as Hm2.
      { apply (Z.mul_lt_mono_pos_r X); [assumption |].
        replace (q * T * X) with (q * (10 ^ (n + 399) * D)) by (rewrite E1; lia).
        pose proof (pow10_pos (n + 399) ltac:(lia)).
        replace (q * (10 ^ (n + 399) * D)) with (q * 10 ^ (n + 399) * D) by lia.
        replace (2 ^ 53 * u * D * X) with (2 ^ 53 * u * X * D) by lia.
        apply Z.mul_lt_mono_pos_r; assumption. }
      assert (2 * q < u * D) as Hm3.
      { remember (2 ^ 53) as c. assert (0 < c) by (subst c; reflexivity).
        set (U := u * D) in *. replace (c * u * D) with (c * U) in Hm2 by (unfold U; lia).
        clear - Hm2 C H Hq. nia. }
      nia.
Qed.

(** *** The digits [Number::toString] writes *)

Lemma shortest_step (fuel : nat) (x : Number) (p q n k : Z) :
  Num.shortest (S fuel) x p q n k
  = let a := fst (Num.scale10 p q (k - n)) in
    let b := snd (Num.scale10 p q (k - n)) in
    let lo := a / b in
    let hi := lo + 1 in
    let oklo := Num.eqb (Num.of_decimal false lo (n - k)) x in
    let okhi := Num.eqb (Num.of_decimal false hi (n - k)) x in
    let pick (s : Z) := if s =? 10 ^ k then (1, 1, n + 1) else (s, k, n) in
    if oklo && okhi then
      match 2 * a ?= (2 * lo + 1) * b with
      | Lt => pick lo
      | Gt => pick hi
      | Eq => if Z.even lo then pick lo else pick hi
      end
    else if oklo then pick lo
    else if okhi then pick hi
    else Num.shortest fuel x p q n (k + 1).
Proof. cbn [Num.shortest]. destruct (Num.scale10 p q (k - n)) as [a b]. reflexivity. Qed.

(** [shortest] finds digits that denote the Number, in at most twenty
    steps. *)
Lemma shortest_digits (m : positive) (e n : Z) :
  bounded 53 1024 m e = true ->
  let x := S754_finite false m e in
  let p := bin_num (Zpos m) e in
  let q := bin_den e in
  -400 < n <= 400 ->
  p * 10 ^ 400 < q * 10 ^ (n + 400) ->
  q * 10 ^ (n + 399) <= p * 10 ^ 400 ->
  forall (fuel : nat) (k : Z),
    1 <= k -> k + Z.of_nat fuel = 21 -> (1 <= fuel)%nat ->
    digits_of x (Num.shortest fuel x p q n k).
Proof.
  intros Hb x p q Hn Hup Hlow.
  pose proof (bin_den_pos e) as Hq. fold q in Hq.
  assert (0 < p) as Hp.
  { unfold p. rewrite bin_num_ulp. pose proof (bin_ulp_pos e). lia. }
  induction fuel as [| fuel IH]; intros k Hk Hsum Hfuel; [lia |].
  rewrite shortest_step. cbv zeta.
  destruct (scale10_spec p q n k Hp Hq Hn ltac:(lia) Hup Hlow) as [Hbpos [Ha1 Ha2]].
  set (a := fst (Num.scale10 p q (k - n))) in *.
  set (b := snd (Num.scale10 p q (k - n))) in *.
  set (lo := a / b).
  assert (10 ^ (k - 1) <= lo < 10 ^ k) as Hlo.
  { unfold lo. split.
    - apply Z.div_le_lower_bound; lia.
    - apply Z.div_lt_upper_bound; lia. }
  assert (forall s, (s = lo \/ s = lo + 1) ->
            Num.eqb (Num.of_decimal false s (n - k)) x = true ->
            digits_of x (if s =? 10 ^ k then (1, 1, n + 1) else (s, k, n))) as Hpick.
  { intros s Hs Hok. apply pick_digits; try lia.
    now apply Num_eqb_eq. }
  destruct (Num.eqb (Num.of_decimal false lo (n - k)) x) eqn:Elo;
    destruct (Num.eqb (Num.of_decimal false (lo + 1) (n - k)) x) eqn:Ehi; cbn [andb].
  - destruct (2 * a ?= (2 * lo + 1) * b); [destruct (Z.even lo) | |]; auto.
  - auto.
  - auto.
  - destruct fuel as [| fuel].
    + exfalso. assert (k = 20) as -> by lia.
      pose proof (twenty_digits_suffice m e n Hb Hn Hlow) as H. cbv zeta in H.
      fold p q a b lo in H. fold x in H. rewrite H, Num_eqb_refl in Ehi. discriminate.
    + apply IH; lia.
Qed.

Lemma toString_finite (neg : bool) (m : positive) (e : Z) :
  Num.toString (S754_finite neg m e)
  = (if neg then [45] else [])
    ++ (let '(s, k, n) := toString_digits m e in Num.format s k n).
Proof.
  unfold Num.toString, toString_digits. rewrite toString_fraction. cbv zeta.
  destruct (Num.shortest 20 _ _ _ _ 1) as [[s k] n']. reflexivity.
Qed.

Lemma toString_digits_spec (m : positive) (e : Z) :
  bounded 53 1024 m e = true ->
  digits_of (S754_finite false m e) (toString_digits m e).
Proof.
  intros Hb. unfold toString_digits. cbv zeta.
  destruct (toString_magnitude m e Hb) as (Hn & Hup & Hlow).
  apply (shortest_digits m e _ Hb Hn Hup Hlow 20%nat 1); lia.
Qed.

(** *** Reading the parts of a number *)

Lemma is_digit_range (c : CodeUnit) : is_digit c = true <-> 48 <= c <= 57.
Proof. unfold is_digit. rewrite andb_true_iff, !Z.leb_le. tauto. Qed.

Lemma take_digits_app (ds t : JSString) :
  forallb is_digit ds = true -> no_digit t ->
  forall acc n,
    take_digits (ds ++ t) acc n
    = (fold_left (fun a c => a * 10 + digit_value c) ds acc, n + Z.of_nat (length ds), t).
Proof.
  intros Hd Ht. induction ds as [| c r IH]; intros acc n.
  - cbn [app fold_left length]. rewrite Z.add_0_r.
    destruct t as [| c t']; [reflexivity |]. cbn in Ht. cbn [take_digits]. now rewrite Ht.
  - cbn [forallb] in Hd. apply andb_prop in Hd. destruct Hd as [Hc Hr].
    cbn [app take_digits fold_left length]. rewrite Hc, (IH Hr).
    unfold digit_value. do 2 f_equal. lia.
Qed.

Lemma decimal_value_app (a b : JSString) :
  decimal_value (a ++ b)
  = fold_left (fun x c => x * 10 + digit_value c) b (decimal_value a).
Proof. unfold decimal_value. apply fold_left_app. Qed.

(** The digits of a number, most significant first. *)
Lemma digits_fuel_spec (fuel : nat) :
  forall z acc,
    (1 <= fuel)%nat -> 0 <= z < 10 ^ Z.of_nat fuel ->
    exists ds,
      Num.digits_fuel fuel z acc = ds ++ acc
      /\ forallb is_digit ds = true
      /\ decimal_value ds = z
      /\ ds <> []
      /\ (0 < z -> exists c r, ds = c :: r /\ c <> 48).
Proof.
  induction fuel as [| fuel IH]; intros z acc Hf Hz; [lia |].
  cbn [Num.digits_fuel]. destruct (Z.ltb_spec z 10) as [L | L].
  - exists [48 + z]. repeat split.
    + cbn [forallb]. rewrite andb_true_r. apply is_digit_range. lia.
    + unfold decimal_value, digit_value. cbn [fold_left]. lia.
    + discriminate.
    + intros Hp. exists (48 + z), []. split; [reflexivity | lia].
  - assert (1 <= fuel)%nat as Hf'.
    { destruct fuel; [| lia]. cbn in Hz. lia. }
    assert (0 <= z / 10 < 10 ^ Z.of_nat fuel) as Hz'.
    { rewrite Nat2Z.inj_succ, Z.pow_succ_r in Hz by lia.
      split; [apply Z.div_pos; lia | apply Z.div_lt_upper_bound; lia]. }
    destruct (IH (z / 10) (48 + z mod 10 :: acc) Hf' Hz') as (ds & E & Hd & Hv & Hne & Hh).
    exists (ds ++ [48 + z mod 10]). repeat split.
    + rewrite E, <- app_assoc. reflexivity.
    + rewrite forallb_app, Hd. cbn [forallb andb]. rewrite andb_true_r. apply is_digit_range.
      pose proof (Z.mod_pos_bound z 10). lia.
    + rewrite decimal_value_app, Hv. cbn [fold_left]. unfold digit_value.
      pose proof (Z.div_mod z 10). lia.
    + destruct ds; discriminate.
    + intros _. destruct Hh as (c & r & -> & Hc); [apply Z.div_str_pos; lia |].
      exists c, (r ++ [48 + z mod 10]). split; [reflexivity | assumption].
Qed.

Lemma decimal_spec (z : Z) :
  0 <= z ->
  exists ds,
    Num.decimal z = ds
    /\ forallb is_digit ds = true
    /\ decimal_value ds = z
    /\ ds <> []
    /\ (0 < z -> exists c r, ds = c :: r /\ c <> 48).
Proof.
  intros Hz. unfold Num.decimal.
  destruct (digits_fuel_spec (S (Z.to_nat (Z.log2 z))) z []) as (ds & E & H).
  - lia.
  - split; [assumption |].
    destruct (Z.eq_dec z 0) as [-> | Hne]; [cbn; lia |].
    rewrite Nat2Z.inj_succ, Z2Nat.id by apply Z.log2_nonneg.
    destruct (Z.log2_spec z ltac:(lia)) as [_ H2].
    assert (2 ^ Z.succ (Z.log2 z) <= 10 ^ Z.succ (Z.log2 z)).
    { apply Z.pow_le_mono_l. lia. }
    lia.
  - exists ds. rewrite E, app_nil_r. auto.
Qed.

(** The number of digits. *)
Lemma digits_length (ds : JSString) (c : CodeUnit) (r : JSString) (z k : Z) :
  ds = c :: r -> c <> 48 -> forallb is_digit ds = true -> decimal_value ds = z ->
  1 <= k -> 10 ^ (k - 1) <= z < 10 ^ k ->
  Z.of_nat (length ds) = k.
Proof.
  intros -> Hc Hd Hv Hk Hz.
  destruct (decimal_value_cons c r Hd) as (E & Hb & Hr).
  rewrite Hv in E. cbn [length]. rewrite Nat2Z.inj_succ.
  set (l := Z.of_nat (length r)) in *.
  assert (0 <= l) by (unfold l; lia).
  pose proof (pow10_pos l ltac:(lia)) as Hpl.
  assert (10 ^ l <= z < 10 ^ (l + 1)) as Hz2.
  { rewrite Z.pow_add_r by lia. nia. }
  destruct (Z.lt_trichotomy (Z.succ l) k) as [L | [L | L]]; [exfalso | assumption | exfalso].
  - assert (10 ^ (l + 1) <= 10 ^ (k - 1)) by (apply Z.pow_le_mono_r; lia). lia.
  - assert (10 ^ k <= 10 ^ l) by (apply Z.pow_le_mono_r; lia). lia.
Qed.

Lemma forallb_firstn {X : Type} (f : X -> bool) (n : nat) (l : list X) :
  forallb f l = true -> forallb f (firstn n l) = true.
Proof.
  revert n. induction l as [| x l IH]; intros [| n] H; cbn; auto.
  cbn in H. apply andb_prop in H. destruct H as [-> H]. now apply IH.
Qed.

Lemma forallb_skipn {X : Type} (f : X -> bool) (n : nat) (l : list X) :
  forallb f l = true -> forallb f (skipn n l) = true.
Proof.
  revert n. induction l as [| x l IH]; intros [| n] H; cbn; auto.
  cbn in H. apply andb_prop in H. destruct H as [_ H]. now apply IH.
Qed.

Lemma forallb_zeros (n : Z) : forallb is_digit (Num.zeros n) = true.
Proof. unfold Num.zeros. induction (Z.to_nat n); cbn; auto. Qed.

Lemma fold_zeros (n : nat) (a : Z) :
  fold_left (fun x c => x * 10 + digit_value c) (repeat 48 n) a = a * 10 ^ Z.of_nat n.
Proof.
  revert a. induction n as [| n IH]; intros a.
  - cbn. lia.
  - cbn [repeat fold_left]. rewrite IH, Nat2Z.inj_succ, Z.pow_succ_r by lia.
    unfold digit_value. lia.
Qed.

(** ** The three parts of a JSON number *)

Lemma parse_int_part_digits (c : CodeUnit) (r t : JSString) :
  forallb is_digit (c :: r) = true -> c <> 48 \/ r = [] -> no_digit t ->
  parse_int_part ((c :: r) ++ t) = Some (decimal_value (c :: r), t).
Proof.
  intros Hd Hz Ht. cbn [forallb] in Hd. apply andb_prop in Hd. destruct Hd as [Hc Hr].
  cbn [app parse_int_part].
  destruct (Z.eqb_spec c 48) as [-> | Hne].
  - destruct Hz as [Hz | ->]; [congruence |]. reflexivity.
  - rewrite Hc, (take_digits_app r t Hr Ht). unfold decimal_value. cbn [fold_left].
    unfold digit_value at 2. reflexivity.
Qed.

Lemma parse_frac_part_digits (m : Z) (f t : JSString) :
  forallb is_digit f = true -> f <> [] -> no_digit t ->
  parse_frac_part m (46 :: f ++ t)
  = Some (fold_left (fun x c => x * 10 + digit_value c) f m, Z.of_nat (length f), t).
Proof.
  intros Hd Hne Ht. cbn [parse_frac_part]. change (46 =? 46) with true. cbv iota.
  rewrite (take_digits_app f t Hd Ht). rewrite Z.add_0_l.
  destruct f as [| c f']; [congruence |]. cbn [length]. rewrite Nat2Z.inj_succ.
  assert ((Z.succ (Z.of_nat (length f')) =? 0) = false) as -> by (apply Z.eqb_neq; lia).
  reflexivity.
Qed.

Lemma parse_frac_part_none (m : Z) (t : JSString) :
  match t with [] => True | c :: _ => c <> 46 end ->
  parse_frac_part m t = Some (m, 0, t).
Proof.
  intros Ht. destruct t as [| c t']; [reflexivity |]. cbn [parse_frac_part].
  apply Z.eqb_neq in Ht. now rewrite Ht.
Qed.

Lemma parse_exp_part_none (t : JSString) :
  match t with [] => True | c :: _ => c <> 101 /\ c <> 69 end ->
  parse_exp_part t = Some (0, t).
Proof.
  intros Ht. destruct t as [| c t']; [reflexivity |]. cbn [parse_exp_part].
  destruct Ht as [H1 H2]. apply Z.eqb_neq in H1, H2. now rewrite H1, H2.
Qed.

Lemma parse_exp_part_digits (minus : bool) (x t : JSString) :
  forallb is_digit x = true -> x <> [] -> no_digit t ->
  parse_exp_part (101 :: (if minus then 45 else 43) :: x ++ t)
  = Some (if minus then - decimal_value x else decimal_value x, t).
Proof.
  intros Hd Hne Ht. cbn [parse_exp_part]. change ((101 =? 101) || (101 =? 69)) with true.
  cbv iota.
  assert (take_digits (x ++ t) 0 0 = (decimal_value x, Z.of_nat (length x), t)) as E
    by (rewrite (take_digits_app x t Hd Ht); reflexivity).
  assert ((Z.of_nat (length x) =? 0) = false) as En.
  { apply Z.eqb_neq. destruct x; [congruence | cbn; lia]. }
  destruct minus.
  - change (45 =? 45) with true. cbv iota. rewrite E, En. reflexivity.
  - change (43 =? 45) with false. change (43 =? 43) with true. cbv iota.
    rewrite E, En. reflexivity.
Qed.

Lemma delimited_no_digit (rest : JSString) : delimited rest -> no_digit rest.
Proof.
  destruct rest as [| c r]; [auto |]. intros [-> | [-> | ->]]; reflexivity.
Qed.

Lemma delimited_no_point (rest : JSString) :
  delimited rest -> match rest with [] => True | c :: _ => c <> 46 end.
Proof. destruct rest as [| c r]; [auto |]. intros [-> | [-> | ->]]; lia. Qed.

Lemma delimited_no_exp (rest : JSString) :
  delimited rest -> match rest with [] => True | c :: _ => c <> 101 /\ c <> 69 end.
Proof. destruct rest as [| c r]; [auto |]. intros [-> | [-> | ->]]; lia. Qed.

(** A number written as a sign, integer digits, fraction digits and an
    exponent, read back. *)
Lemma parse_number_parts (neg : bool) (c : CodeUnit) (r body : JSString)
    (m nfrac x : Z) (rest s3 : JSString) :
  forallb is_digit (c :: r) = true -> (c <> 48 \/ r = []) ->
  no_digit body ->
  parse_frac_part (decimal_value (c :: r)) body = Some (m, nfrac, s3) ->
  parse_exp_part s3 = Some (x, rest) ->
  parse_number ((if neg then [45] else []) ++ (c :: r) ++ body)
  = Some (Num.of_decimal neg m (x - nfrac), rest).
Proof.
  intros Hd Hz Hb Hf He.
  assert (48 <= c <= 57) as Hc.
  { cbn [forallb] in Hd. apply andb_prop in Hd. now apply is_digit_range. }
  pose proof (parse_int_part_digits c r body Hd Hz Hb) as Hi.
  unfold parse_number. destruct neg; cbn [app] in *.
  - change (45 =? 45) with true. cbv iota. rewrite Hi, Hf, He. reflexivity.
  - assert ((c =? 45) = false) as -> by (apply Z.eqb_neq; lia).
    rewrite Hi, Hf, He. reflexivity.
Qed.

(** *** Reading what [format] writes *)

Lemma of_decimal_trailing_zeros (neg : bool) (s j : Z) :
  0 < s -> 0 <= j ->
  Num.of_decimal neg (s * 10 ^ j) 0 = Num.of_decimal neg s j.
Proof.
  intros Hs Hj. pose proof (pow10_pos j Hj) as Hp.
  assert (Num.of_decimal neg (Zpos (Z.to_pos (s * 10 ^ j))) 0
          = Num.of_decimal neg (Zpos (Z.to_pos s)) j) as H.
  { apply (of_decimal_scaled neg _ _ _ _ 0); try lia.
    rewrite !Z2Pos.id by nia. rewrite !Z.add_0_r, Z.pow_0_r. lia. }
  rewrite !Z2Pos.id in H by nia. exact H.
Qed.

(** What [format] writes is read back as the decimal it was given. *)
Lemma format_parse (neg : bool) (s k n : Z) (rest : JSString) :
  1 <= k -> 10 ^ (k - 1) <= s < 10 ^ k -> delimited rest ->
  parse_number ((if neg then [45] else []) ++ Num.format s k n ++ rest)
  = Some (Num.of_decimal neg s (n - k), rest).
Proof.
  intros Hk Hs Hrest.
  pose proof (pow10_pos (k - 1) ltac:(lia)) as Hp.
  destruct (decimal_spec s ltac:(lia)) as (ds & Eds & Hd & Hv & _ & Hh).
  destruct (Hh ltac:(lia)) as (c & r & -> & Hc). clear Hh.
  pose proof (digits_length (c :: r) c r s k eq_refl Hc Hd Hv Hk Hs) as Hlen.
  pose proof (delimited_no_digit rest Hrest) as Rd.
  pose proof (delimited_no_point rest Hrest) as Rp.
  pose proof (delimited_no_exp rest Hrest) as Re.
  assert (forallb is_digit r = true) as Hr.
  { cbn [forallb] in Hd. apply andb_prop in Hd. tauto. }
  unfold Num.format. rewrite Eds.
  destruct ((-5 <=? n) && (n <=? 21)) eqn:Erange.
  - apply andb_prop in Erange. destruct Erange as [R1 R2].
    apply Z.leb_le in R1, R2.
    destruct (Z.leb_spec k n) as [Lkn | Lkn].
    + (* digits and zeros *)
      change (((c :: r) ++ Num.zeros (n - k)) ++ rest)
        with ((c :: r ++ Num.zeros (n - k)) ++ rest).
      assert (decimal_value (c :: r ++ Num.zeros (n - k)) = s * 10 ^ (n - k)) as Ev.
      { change (c :: r ++ Num.zeros (n - k)) with ((c :: r) ++ Num.zeros (n - k)).
        rewrite decimal_value_app, Hv. unfold Num.zeros. rewrite fold_zeros.
        rewrite Z2Nat.id by lia. reflexivity. }
      refine (eq_trans (parse_number_parts neg c (r ++ Num.zeros (n - k)) rest
                          (s * 10 ^ (n - k)) 0 0 rest rest _ _ _ _ _) _).
      * cbn [forallb]. cbn [forallb] in Hd. apply andb_prop in Hd. destruct Hd as [-> _].
        rewrite forallb_app, Hr, forallb_zeros. reflexivity.
      * now left.
      * assumption.
      * rewrite Ev. now apply parse_frac_part_none.
      * now apply parse_exp_part_none.
      * rewrite Z.sub_0_r. f_equal. f_equal. apply of_decimal_trailing_zeros; lia.
    + destruct (Z.ltb_spec 0 n) as [L0 | L0].
      * (* a point inside the digits *)
        destruct (Z.to_nat n) as [| n'] eqn:En; [lia |].
        assert (Z.of_nat (length r) = k - 1) as Hlr by (cbn [length] in Hlen; lia).
        cbn [firstn skipn]. rewrite <- !app_assoc. cbn [app].
        change (c :: firstn n' r ++ 46 :: skipn n' r ++ rest)
          with ((c :: firstn n' r) ++ 46 :: skipn n' r ++ rest).
        assert (skipn n' r <> []) as Hne.
        { intros E. apply (f_equal (@length _)) in E. rewrite length_skipn in E.
          cbn [length] in E. lia. }
        refine (eq_trans (parse_number_parts neg c (firstn n' r) (46 :: skipn n' r ++ rest)
                            s (Z.of_nat (length (skipn n' r))) 0 rest rest _ _ _ _ _) _).
        -- cbn [forallb]. cbn [forallb] in Hd. apply andb_prop in Hd. destruct Hd as [-> _].
           now apply forallb_firstn.
        -- now left.
        -- reflexivity.
        -- rewrite parse_frac_part_digits; auto using forallb_skipn.
           f_equal. f_equal. f_equal.
           rewrite <- decimal_value_app.
           change ((c :: firstn n' r) ++ skipn n' r) with (c :: (firstn n' r ++ skipn n' r)).
           rewrite firstn_skipn. exact Hv.
        -- now apply parse_exp_part_none.
        -- f_equal. f_equal. f_equal. rewrite length_skipn. lia.
      * (* zeros after the point *)
        rewrite <- !app_assoc. cbn [app].
        assert (48 :: 46 :: Num.zeros (- n) ++ c :: r ++ rest
                = [48] ++ 46 :: (Num.zeros (- n) ++ c :: r) ++ rest) as E
          by (cbn [app]; now rewrite <- app_assoc).
        rewrite E. clear E.
        refine (eq_trans (parse_number_parts neg 48 []
                            (46 :: (Num.zeros (- n) ++ c :: r) ++ rest)
                            s (Z.of_nat (length (Num.zeros (- n) ++ c :: r))) 0 rest rest
                            _ _ _ _ _) _).
        -- reflexivity.
        -- now right.
        -- reflexivity.
        -- rewrite parse_frac_part_digits; auto.
           ++ f_equal. f_equal. f_equal. rewrite fold_left_app. unfold Num.zeros.
              rewrite fold_zeros. exact Hv.
           ++ rewrite forallb_app, forallb_zeros. exact Hd.
           ++ destruct (Num.zeros (- n)); discriminate.
        -- now apply parse_exp_part_none.
        -- f_equal. f_equal. f_equal. rewrite length_app. unfold Num.zeros.
           rewrite repeat_length. cbn [length] in *. lia.
  - (* with an exponent *)
    assert (n < -5 \/ 21 < n) as Hn.
    { apply andb_false_iff in Erange. destruct Erange as [E | E];
        [left; apply Z.leb_gt in E | right; apply Z.leb_gt in E]; lia. }
    cbv zeta.
    destruct (decimal_spec (Z.abs (n - 1)) ltac:(lia)) as (ex & -> & Hxd & Hxv & Hxne & _).
    assert ((if n <? 0 then - decimal_value ex else decimal_value ex) = n - 1) as Hexp.
    { rewrite Hxv. destruct (Z.ltb_spec n 0); lia. }
    assert (no_digit (101 :: (if n <? 0 then 45 else 43) :: ex ++ rest)) as Hnd by reflexivity.
    destruct (Z.eqb_spec k 1) as [-> | Hk1].
    + (* one digit *)
      assert (r = []) as -> by (destruct r; [reflexivity | cbn [length] in Hlen; lia]).
      rewrite <- !app_assoc. cbn [app].
      change (c :: 101 :: (if n <? 0 then 45 else 43) :: ex ++ rest)
        with ([c] ++ 101 :: (if n <? 0 then 45 else 43) :: ex ++ rest).
      refine (eq_trans (parse_number_parts neg c []
                          (101 :: (if n <? 0 then 45 else 43) :: ex ++ rest)
                          s 0 (n - 1) rest
                          (101 :: (if n <? 0 then 45 else 43) :: ex ++ rest)
                          Hd (or_intror eq_refl) Hnd _ _) _).
      * rewrite Hv. now apply parse_frac_part_none.
      * rewrite <- Hexp.
        destruct (n <? 0); [apply (parse_exp_part_digits true) | apply (parse_exp_part_digits false)];
          auto.
      * f_equal. f_equal. f_equal. lia.
    + (* a point after the first digit *)
      assert (r <> []) as Hrne by (destruct r; [cbn [length] in Hlen; lia | discriminate]).
      cbn [firstn skipn]. rewrite <- !app_assoc. cbn [app].
      change (c :: 46 :: r ++ 101 :: (if n <? 0 then 45 else 43) :: ex ++ rest)
        with ([c] ++ 46 :: r ++ 101 :: (if n <? 0 then 45 else 43) :: ex ++ rest).
      refine (eq_trans (parse_number_parts neg c []
                          (46 :: r ++ 101 :: (if n <? 0 then 45 else 43) :: ex ++ rest)
                          s (Z.of_nat (length r)) (n - 1) rest
                          (101 :: (if n <? 0 then 45 else 43) :: ex ++ rest) _ _ _ _ _) _).
      * cbn [forallb] in Hd |- *. apply andb_prop in Hd. destruct Hd as [-> _]. reflexivity.
      * now right.
      * reflexivity.
      * rewrite parse_frac_part_digits; auto.
        f_equal. f_equal. f_equal.
        rewrite <- decimal_value_app. exact Hv.
      * rewrite <- Hexp.
        destruct (n <? 0); [apply (parse_exp_part_digits true) | apply (parse_exp_part_digits false)];
          auto.
      * f_equal. f_equal. f_equal. cbn [length] in Hlen. lia.
Qed.

(** *** Finite Numbers survive *)

(** The sign of a decimal is the sign of the Number. *)
Lemma finish_sign (sx : bool) (q : Z) (l : location) (E : Z) (m : positive) (e : Z) :
  finish false q l E = S754_finite false m e ->
  finish sx q l E = S754_finite sx m e.
Proof.
  unfold finish. destruct (shr_fexp 53 1024 (round_nearest_even q l) E loc_Exact) as [mrs e0].
  destruct (shr_m mrs); try discriminate.
  destruct (e0 <=? 1024 - 53); try discriminate.
  intros H. injection H as -> ->. reflexivity.
Qed.

Lemma of_decimal_sign (neg : bool) (s E : Z) (m : positive) (e : Z) :
  Num.of_decimal false s E = S754_finite false m e ->
  Num.of_decimal neg s E = S754_finite neg m e.
Proof.
  destruct s as [| M | M]; try discriminate.
  destruct (of_decimal_round_frac false M E) as (g & Hg & ->).
  destruct (of_decimal_round_frac neg M E) as (g' & Hg' & ->).
  pose proof (dec_den_pos E) as Hden.
  rewrite (is_mag_unique g' g (dec_num (Zpos M) E) (dec_den E) (Z.lt_le_incl _ _ Hden) Hg' Hg).
  unfold round_frac. cbv zeta. apply finish_sign.
Qed.

(** Positive zero is written [0]. *)
Lemma zero_survives : number_survives (S754_zero false).
Proof.
  split; [reflexivity |].
  intros rest Hrest. change (Num.toString (S754_zero false)) with [48].
  refine (eq_trans (parse_number_parts false 48 [] rest 0 0 0 rest rest _ _ _ _ _) _).
  - reflexivity.
  - now right.
  - now apply delimited_no_digit.
  - now apply parse_frac_part_none, delimited_no_point.
  - now apply parse_exp_part_none, delimited_no_exp.
  - reflexivity.
Qed.

(** Every finite Number but negative zero is written by [Number::toString]
    as a decimal that [JSON.parse] reads back as that Number. *)
Theorem finite_numbers_survive (x : Number) :
  binary64 x -> Num.is_finite x = true -> x <> S754_zero true ->
  number_survives x.
Proof.
  intros Hv Hf Hz. destruct x as [[|] | | | neg m e]; try discriminate.
  - congruence.
  - apply zero_survives.
  - split; [reflexivity |].
    intros rest Hrest. rewrite toString_finite.
    pose proof (toString_digits_spec m e Hv) as Hd.
    destruct (toString_digits m e) as [[s k] n]. cbn [digits_of] in Hd.
    destruct Hd as (Hx & Hk & Hs & Hn).
    assert (Hp := format_parse neg s k n rest ltac:(lia) Hs Hrest).
    rewrite (of_decimal_sign neg s (n - k) m e Hx) in Hp.
    refine (eq_trans _ Hp). f_equal. symmetry. apply app_assoc.
Qed.

(** *** Decimal literals denote binary64 values *)

Lemma round_nearest_even_cases (q : Z) (l : location) :
  round_nearest_even q l = q \/ round_nearest_even q l = q + 1.
Proof.
  destruct l as [| []]; cbn [round_nearest_even]; auto.
  destruct (Z.even q); auto.
Qed.

Lemma fexp_eq (g : Z) : fexp 53 1024 g = Z.max (g - 53) (-1074).
Proof. reflexivity. Qed.

(** The integer part of the scaled fraction has [g - E] bits. *)
Lemma round_frac_quotient (a b g : Z) :
  0 < a -> 0 < b -> is_mag g a b ->
  let E := fexp 53 1024 g in
  let q := (a * 2 ^ Z.max 0 (- E)) / (b * 2 ^ Z.max 0 E) in
  (g - E <= 0 /\ q = 0) \/ (0 < g - E /\ 2 ^ (g - E - 1) <= q < 2 ^ (g - E)).
Proof.
  intros Ha Hb [Hlt Hge]. cbv zeta.
  set (E := fexp 53 1024 g).
  set (K := Z.max 0 (- E)).
  assert (Z.max 0 E = E + K) as -> by (unfold K; lia).
  assert (0 <= K) as HK by (unfold K; lia).
  assert (0 <= E + K) as HEK by (unfold K; lia).
  pose proof (pow2_pos (E + K) HEK) as Hp.
  assert (0 < b * 2 ^ (E + K)) as Hden by nia.
  destruct (Z_le_gt_dec (g - E) 0) as [Hd | Hd].
  - left. split; [assumption |].
    apply Z.div_small. split; [pose proof (pow2_pos K HK); nia |].
    apply (lt_pow2_mono a b g E) in Hlt; [| lia | lia].
    now apply (lt_pow2_shift a b E K) in Hlt.
  - right. split; [lia |].
    apply (lt_pow2_shift a b g K) in Hlt; [| lia | lia].
    assert (~ a * 2 ^ K < b * 2 ^ (g - 1 + K)) as Hge'.
    { intros H. apply Hge. apply (lt_pow2_shift a b (g - 1) K); [lia | lia | exact H]. }
    assert (2 ^ (g + K) = 2 ^ (E + K) * 2 ^ (g - E)) as Hs1.
    { rewrite <- Z.pow_add_r by lia. f_equal. lia. }
    assert (2 ^ (g - 1 + K) = 2 ^ (E + K) * 2 ^ (g - E - 1)) as Hs2.
    { rewrite <- Z.pow_add_r by lia. f_equal. lia. }
    rewrite Hs1 in Hlt. rewrite Hs2 in Hge'.
    split.
    + apply Z.div_le_lower_bound; [assumption |]. lia.
    + apply Z.div_lt_upper_bound; [assumption |]. lia.
Qed.

Lemma shr_nonpos (mrs : shr_record) (e n : Z) : n <= 0 -> shr mrs e n = (mrs, e).
Proof. intros Hn. destruct n; try reflexivity. lia. Qed.

Lemma finish_settle (sx : bool) (q : Z) (l : location) (E : Z) :
  finish sx q l E = settle sx (round_nearest_even q l) E.
Proof. reflexivity. Qed.

Lemma settle_zero (sx : bool) (E : Z) : -1074 <= E -> settle sx 0 E = S754_zero sx.
Proof.
  intros HE. unfold settle, shr_fexp. cbn [Zdigits2].
  rewrite shr_nonpos by (rewrite fexp_eq; lia). reflexivity.
Qed.

Lemma settle_canonical (sx : bool) (m E : Z) :
  0 < m -> fexp 53 1024 (Zdigits2 m + E) = E ->
  binary64 (settle sx m E).
Proof.
  intros Hm HE. unfold settle, shr_fexp.
  rewrite shr_nonpos by lia.
  destruct m as [| p | p]; try lia.
  cbn [shr_record_of_loc shr_m].
  destruct (Z.leb_spec E (1024 - 53)) as [Hle | Hgt]; [| reflexivity].
  unfold binary64. cbn [valid_binary]. unfold bounded, canonical_mantissa.
  cbn [Zdigits2] in HE. rewrite HE.
  apply andb_true_intro. split.
  - apply Z.eqb_refl.
  - now apply Z.leb_le.
Qed.

Lemma settle_carry (sx : bool) (E : Z) :
  -1074 <= E -> binary64 (settle sx (2 ^ 53) E).
Proof.
  intros HE. unfold settle, shr_fexp.
  change (Zdigits2 (2 ^ 53)) with 54.
  assert (fexp 53 1024 (54 + E) - E = 1) as -> by (rewrite fexp_eq; lia).
  change (shr (shr_record_of_loc (2 ^ 53) loc_Exact) E 1)
    with ({| shr_m := 2 ^ 52; shr_r := false; shr_s := false |}, E + 1).
  change (shr_m {| shr_m := 2 ^ 52; shr_r := false; shr_s := false |})
    with (Zpos 4503599627370496).
  cbv iota beta.
  destruct (Z.leb_spec (E + 1) (1024 - 53)) as [Hle | Hgt]; [| reflexivity].
  unfold binary64. cbn [valid_binary]. unfold bounded, canonical_mantissa.
  apply andb_true_intro. split.
  - apply Z.eqb_eq.
    match goal with
    | |- context [Zpos (digits2_pos ?p)] => change (Zpos (digits2_pos p)) with 53
    end.
    rewrite fexp_eq. lia.
  - now apply Z.leb_le.
Qed.

(** Rounding gives a binary64 value. *)
Lemma round_frac_valid (sx : bool) (a b g : Z) :
  0 < a -> 0 < b -> is_mag g a b -> binary64 (round_frac sx a b g).
Proof.
  intros Ha Hb Hg. pose proof (round_frac_quotient a b g Ha Hb Hg) as Hq.
  unfold round_frac. cbv zeta in *.
  set (E := fexp 53 1024 g) in *.
  set (num := a * 2 ^ Z.max 0 (- E)) in *.
  set (den := b * 2 ^ Z.max 0 E) in *.
  assert (E = Z.max (g - 53) (-1074)) as HE by reflexivity.
  clearbody E. clearbody num den.
  rewrite finish_settle.
  generalize (loc_of num den). intros l.
  set (q := num / den) in *. clearbody q.
  destruct Hq as [[Hd ->] | [Hd [Hq1 Hq2]]].
  - destruct (round_nearest_even_cases 0 l) as [-> | ->].
    + rewrite settle_zero by lia. reflexivity.
    + apply settle_canonical; [lia |]. change (Zdigits2 (0 + 1)) with 1.
      rewrite fexp_eq. lia.
  - set (d := g - E) in *.
    assert (d <= 53) as Hd53 by (unfold d; lia).
    destruct (round_nearest_even_cases q l) as [-> | ->].
    + apply settle_canonical.
      * pose proof (pow2_pos (d - 1) ltac:(lia)). lia.
      * rewrite (Zdigits2_unique q d Hd (conj Hq1 Hq2)).
        rewrite fexp_eq. unfold d. lia.
    + destruct (Z.eq_dec (q + 1) (2 ^ d)) as [Hc | Hc].
      * rewrite Hc. destruct (Z.eq_dec d 53) as [-> | Hn].
        -- apply settle_carry. lia.
        -- apply settle_canonical; [apply pow2_pos; lia |].
           rewrite (Zdigits2_unique (2 ^ d) (d + 1)).
           ++ rewrite fexp_eq. unfold d in *. lia.
           ++ lia.
           ++ replace (d + 1 - 1) with d by lia. split; [lia |].
              apply Z.pow_lt_mono_r; lia.
      * apply settle_canonical.
        -- pose proof (pow2_pos (d - 1) ltac:(lia)). lia.
        -- rewrite (Zdigits2_unique (q + 1) d Hd ltac:(lia)).
           rewrite fexp_eq. unfold d. lia.
Qed.

(** Every decimal literal denotes a binary64 value. *)
Lemma of_decimal_valid (neg : bool) (M E : Z) : binary64 (Num.of_decimal neg M E).
Proof.
  destruct M as [| M | M]; try reflexivity.
  destruct (of_decimal_round_frac neg M E) as (g & Hg & ->).
  apply round_frac_valid; [| apply dec_den_pos | exact Hg].
  unfold dec_num. destruct (0 <=? E) eqn:HE; [| lia].
  apply Z.leb_le in HE. pose proof (pow10_pos E HE). nia.
Qed.

Lemma parse_number_valid (s : JSString) (x : Number) (rest : JSString) :
  parse_number s = Some (x, rest) -> binary64 x.
Proof.
  unfold parse_number.
  destruct (match s with
            | [] => (false, s)
            | c :: r => if c =? 45 then (true, r) else (false, s)
            end) as [neg s1].
  destruct (parse_int_part s1) as [[m s2] |]; [| discriminate].
  destruct (parse_frac_part m s2) as [[[m' nfrac] s3] |]; [| discriminate].
  destruct (parse_exp_part s3) as [[e s4] |]; [| discriminate].
  intros H. injection H as <- _. apply of_decimal_valid.
Qed.

(** *** The round trip of a payload *)

Lemma shaped_Forall (N : Number -> Prop) (v : JSValue) :
  shaped N v -> Forall N (numbers_of v).
Proof.
  induction v as [| b | x | s | elements IH | properties IH] using JSValue_nested_ind;
    intros Hv; cbn [numbers_of]; try constructor.
  - exact Hv.
  - constructor.
  - apply shaped_array in Hv. apply Forall_flat_map.
    rewrite Forall_forall in *. auto.
  - apply shaped_object in Hv. destruct Hv as [_ Hv]. apply Forall_flat_map.
    rewrite Forall_forall in *. intros kv Hkv. apply IH; [assumption |]. now apply Hv.
Qed.

(** The numbers of a value [JSON.parse] returns are binary64 values. *)
Theorem parse_gives_binary64 (text : JSString) (v : JSValue) :
  Forall code_unit text -> JSON.parse text = Some v -> Forall binary64 (numbers_of v).
Proof.
  intros Ht H. apply shaped_Forall. unfold parse in H.
  destruct (parse_value _ text) as [[v0 rest] |] eqn:E; [| discriminate].
  destruct (parse_shape binary64 (2 * length text + 2) parse_number_valid) as (Hv & _).
  destruct (Hv text v0 rest Ht E) as [Hv0 _].
  destruct (skip_ws rest); [| discriminate]. now injection H as <-.
Qed.

(** A value [JSON.parse] returned, written by [JSON.stringify] and read
    again, is that value, when its numbers are finite and none is
    negative zero. *)
Theorem reserialised_parses_back (text : JSString) (v : JSValue) :
  Forall code_unit text ->
  JSON.parse text = Some v ->
  Forall plain_number (numbers_of v) ->
  JSON.parse (JSON.stringify v) = Some v.
Proof.
  intros Ht Hp Hn. apply (parse_stringify_parse text); auto.
  pose proof (parse_gives_binary64 text v Ht Hp) as Hb.
  rewrite Forall_forall in *. intros x Hx.
  destruct (Hn x Hx) as [Hf Hz].
  apply finite_numbers_survive; auto.
Qed.

Local Open Scope nat_scope.

(** ** The active set *)

Lemma ReadyState_eqb_OPEN (s : ReadyState) :
  ReadyState_eqb s OPEN = true <-> s = OPEN.
Proof. destruct s; simpl; split; congruence. Qed.

Lemma ReadyState_eqb_not_OPEN (s : ReadyState) :
  ReadyState_eqb s OPEN = false <-> s <> OPEN.
Proof. destruct s; simpl; split; congruence. Qed.

Lemma has_In (s : list Conn) (c : Conn) : ConnSet.has s c = true <-> In c s.
Proof.
  unfold ConnSet.has. rewrite existsb_exists. split.
  - intros [x [Hx Heq]]. apply Nat.eqb_eq in Heq. now subst.
  - intros H. exists c. split; [assumption | apply Nat.eqb_refl].
Qed.

Lemma has_not_In (s : list Conn) (c : Conn) : ConnSet.has s c = false <-> ~ In c s.
Proof.
  rewrite <- has_In. destruct (ConnSet.has s c); split; congruence.
Qed.

Lemma In_add (s : list Conn) (c x : Conn) :
  In x (ConnSet.add s c) <-> In x s \/ x = c.
Proof.
  unfold ConnSet.add. destruct (ConnSet.has s c) eqn:E.
  - apply has_In in E. split; [tauto | intros [H | ->]; assumption].
  - rewrite in_app_iff. simpl. split; intros [H | H]; auto.
    destruct H as [H | []]; auto.
Qed.

Lemma add_NoDup (s : list Conn) (c : Conn) : NoDup s -> NoDup (ConnSet.add s c).
Proof.
  intros H. unfold ConnSet.add. destruct (ConnSet.has s c) eqn:E; [assumption |].
  apply has_not_In in E. apply NoDup_app; [assumption | repeat constructor; simpl; tauto |].
  intros x Hx [Hc | []]. subst. contradiction.
Qed.

Lemma add_fresh (s : list Conn) (c : Conn) : ~ In c s -> ConnSet.add s c = s ++ [c].
Proof. intros H. unfold ConnSet.add. apply has_not_In in H. now rewrite H. Qed.

Lemma In_delete (s : list Conn) (c x : Conn) :
  In x (ConnSet.delete s c) <-> In x s /\ x <> c.
Proof.
  unfold ConnSet.delete. rewrite filter_In, negb_true_iff, Nat.eqb_neq. tauto.
Qed.

Lemma delete_NoDup (s : list Conn) (c : Conn) : NoDup s -> NoDup (ConnSet.delete s c).
Proof. apply NoDup_filter. Qed.

Lemma delete_absent (s : list Conn) (c : Conn) : ~ In c s -> ConnSet.delete s c = s.
Proof.
  induction s as [| x s IH]; simpl; intros H; [reflexivity |].
  destruct (Nat.eqb_spec x c) as [-> | Hne]; simpl.
  - exfalso. apply H. now left.
  - f_equal. apply IH. tauto.
Qed.

Lemma delete_idempotent (s : list Conn) (c : Conn) :
  ConnSet.delete (ConnSet.delete s c) c = ConnSet.delete s c.
Proof. apply delete_absent. rewrite In_delete. tauto. Qed.

(** ** One pass of the broadcast loop *)

Lemma send_spec (t : Transport) (from : CallSite) (ws : Conn) (data : JSString)
    (r : Relay) :
  let r' := state_of (send t from ws data r) in
  liveConnections r' = liveConnections r
  /\ console r' = console r
  /\ wire r' = wire r ++ [{| site := from; target := ws; payload := data;
                             outcome := sendOutcome t ws |}].
Proof. unfold send. destruct (sendOutcome t ws); simpl; auto. Qed.

Lemma stringify_in_fits (room : nat) (v : JSValue) :
  depth v <= S room -> JSON.stringify_in room v = Some (JSON.stringify v).
Proof.
  intros H. unfold stringify_in. apply Nat.leb_le in H. now rewrite H.
Qed.

Lemma stringify_in_deep (room : nat) (v : JSValue) :
  S room < depth v -> JSON.stringify_in room v = None.
Proof.
  intros H. unfold stringify_in. apply Nat.leb_gt in H. now rewrite H.
Qed.

Lemma stringify_in_Some (room : nat) (v : JSValue) (text : JSString) :
  JSON.stringify_in room v = Some text -> text = JSON.stringify v.
Proof.
  unfold stringify_in. destruct (depth v <=? S room); congruence.
Qed.

(** The calls of a pass: those of [fanout_calls] with the text of the
    value, none when [JSON.stringify] throws. *)
Lemma forEach_send_spec (t : Transport) (data : JSValue) (clients : list Conn) :
  forall r : Relay,
    let r' := state_of (forEach_send t clients data r) in
    liveConnections r' = liveConnections r
    /\ console r' = console r
    /\ wire r' = wire r ++ match JSON.stringify_in (stackRoom t) data with
                           | Some text => fanout_calls t clients text
                           | None => []
                           end.
Proof.
  destruct (JSON.stringify_in (stackRoom t) data) as [text |] eqn:Es.
  - induction clients as [| client rest IH]; intros r; cbn [forEach_send fanout_calls].
    + simpl. now rewrite app_nil_r.
    + destruct (ReadyState_eqb (readyState t client) OPEN); [| apply IH].
      rewrite Es. unfold send. destruct (sendOutcome t client) eqn:E; cbv zeta.
      * destruct (IH {| liveConnections := liveConnections r;
                        wire := wire r ++ [{| site := BroadcastSend; target := client;
                                             payload := text;
                                             outcome := Delivered |}];
                        console := console r |}) as (H1 & H2 & H3).
        simpl in *. rewrite H1, H2, H3, <- app_assoc. auto.
      * destruct (IH {| liveConnections := liveConnections r;
                        wire := wire r ++ [{| site := BroadcastSend; target := client;
                                             payload := text;
                                             outcome := Dropped |}];
                        console := console r |}) as (H1 & H2 & H3).
        simpl in *. rewrite H1, H2, H3, <- app_assoc. auto.
      * simpl. auto.
  - induction clients as [| client rest IH]; intros r; cbn [forEach_send].
    + simpl. now rewrite app_nil_r.
    + destruct (ReadyState_eqb (readyState t client) OPEN); [| apply IH].
      rewrite Es. simpl. now rewrite app_nil_r.
Qed.

(** With an open client to serve and no room for the value, the pass
    ends before the first [send]. *)
Lemma forEach_send_deep (t : Transport) (data : JSValue) (clients : list Conn) :
  JSON.stringify_in (stackRoom t) data = None ->
  (exists c, In c clients /\ readyState t c = OPEN) ->
  forall r, forEach_send t clients data r = Throw r.
Proof.
  intros Es. induction clients as [| client rest IH]; intros [c [Hin Ho]] r.
  - destruct Hin.
  - cbn [forEach_send].
    destruct (ReadyState_eqb (readyState t client) OPEN) eqn:E; [now rewrite Es |].
    apply IH. exists c. split; [| assumption].
    destruct Hin as [-> | Hin]; [| assumption].
    apply ReadyState_eqb_not_OPEN in E. contradiction.
Qed.

Lemma onMessage_returns (t : Transport) (ws : Conn) (message : JSString) (r : Relay) :
  onMessage t ws message r = Normal (state_of (onMessage t ws message r)).
Proof.
  unfold onMessage. destruct (JSON.parse message); [| reflexivity].
  now destruct (forEach_send t _ _ _).
Qed.

Lemma onMessage_liveConnections (t : Transport) (ws : Conn) (message : JSString)
    (r : Relay) :
  liveConnections (state_of (onMessage t ws message r)) = liveConnections r.
Proof.
  unfold onMessage. destruct (JSON.parse message) as [data |]; [| reflexivity].
  pose proof (forEach_send_spec t data (liveConnections r) (log (ReceivedMessage data) r))
    as (H & _). simpl in *.
  now destruct (forEach_send t (liveConnections r) data _).
Qed.

Lemma onMessage_wire_any (t : Transport) (ws : Conn) (message : JSString)
    (data : JSValue) (r : Relay) :
  JSON.parse message = Some data ->
  wire (state_of (onMessage t ws message r))
  = wire r ++ match JSON.stringify_in (stackRoom t) data with
              | Some text => fanout_calls t (liveConnections r) text
              | None => []
              end.
Proof.
  intros Hp. unfold onMessage. rewrite Hp.
  pose proof (forEach_send_spec t data (liveConnections r) (log (ReceivedMessage data) r))
    as (_ & _ & H). cbn [log liveConnections wire] in *. cbv zeta in *.
  now destruct (forEach_send t (liveConnections r) data _).
Qed.

Lemma onMessage_wire (t : Transport) (ws : Conn) (message : JSString) (data : JSValue)
    (r : Relay) :
  JSON.parse message = Some data ->
  depth data <= S (stackRoom t) ->
  wire (state_of (onMessage t ws message r))
  = wire r ++ fanout_calls t (liveConnections r) (JSON.stringify data).
Proof.
  intros Hp Hd. rewrite (onMessage_wire_any t ws message data r Hp).
  now rewrite stringify_in_fits.
Qed.

(** A value too deep for [JSON.stringify]: nothing is sent, and with an
    open element in the set the exception is caught and logged. *)
Lemma onMessage_deep (t : Transport) (ws : Conn) (message : JSString) (data : JSValue)
    (r : Relay) :
  JSON.parse message = Some data ->
  S (stackRoom t) < depth data ->
  wire (state_of (onMessage t ws message r)) = wire r
  /\ ((exists c, In c (liveConnections r) /\ readyState t c = OPEN) ->
      onMessage t ws message r
      = Normal (log ErrorParsingMessage (log (ReceivedMessage data) r))).
Proof.
  intros Hp Hd. split.
  - rewrite (onMessage_wire_any t ws message data r Hp).
    rewrite stringify_in_deep by assumption. apply app_nil_r.
  - intros Hopen. unfold onMessage. rewrite Hp. cbv zeta.
    now rewrite (forEach_send_deep t data (liveConnections (log (ReceivedMessage data) r))
                   (stringify_in_deep _ _ Hd) Hopen).
Qed.

Lemma onMessage_malformed (t : Transport) (ws : Conn) (message : JSString) (r : Relay) :
  JSON.parse message = None ->
  onMessage t ws message r = Normal (log ErrorParsingMessage r).
Proof. intros Hp. unfold onMessage. now rewrite Hp. Qed.

(** ** What a pass of the loop gives each socket *)

Lemma inbox_app (c : Conn) (w1 w2 : list SendCall) :
  inbox c (w1 ++ w2) = inbox c w1 ++ inbox c w2.
Proof. unfold inbox. now rewrite filter_app, map_app. Qed.

Lemma calls_to_app (c : Conn) (w1 w2 : list SendCall) :
  calls_to c (w1 ++ w2) = calls_to c w1 ++ calls_to c w2.
Proof. apply filter_app. Qed.

Lemma calls_to_none (c : Conn) (w : list SendCall) :
  (forall k, In k w -> target k <> c) -> calls_to c w = [].
Proof.
  induction w as [| k w IH]; simpl; intros H; [reflexivity |].
  destruct (Nat.eqb_spec (target k) c) as [E | _].
  - exfalso. apply (H k); auto.
  - apply IH. intros k' Hk'. apply H. now right.
Qed.

Lemma inbox_none (c : Conn) (w : list SendCall) :
  (forall k, In k w -> target k <> c) -> inbox c w = [].
Proof.
  induction w as [| k w IH]; simpl; intros H; [reflexivity |].
  unfold inbox in *. simpl.
  destruct (Nat.eqb_spec (target k) c) as [E | _]; simpl.
  - exfalso. apply (H k); auto.
  - apply IH. intros k' Hk'. apply H. now right.
Qed.

Lemma inbox_undelivered (c : Conn) (w : list SendCall) :
  (forall k, In k w -> target k = c -> outcome k <> Delivered) -> inbox c w = [].
Proof.
  induction w as [| k w IH]; simpl; intros H; [reflexivity |].
  unfold inbox in *. simpl.
  destruct (Nat.eqb_spec (target k) c) as [E | _]; simpl.
  - assert (outcome k <> Delivered) as Hk by (apply H; auto).
    destruct (outcome k); try congruence; simpl; apply IH; intros; apply H; auto.
  - apply IH. intros k' Hk'. apply H. now right.
Qed.

Lemma NoDup_app_disjoint {X : Type} (l1 l2 : list X) (a : X) :
  NoDup (l1 ++ l2) -> In a l1 -> In a l2 -> False.
Proof.
  induction l1 as [| x l1 IH]; simpl; intros Hnd H1 H2; [contradiction |].
  inversion Hnd as [| ? ? Hx Hnd']; subst.
  destruct H1 as [-> | H1].
  - apply Hx. rewrite in_app_iff. auto.
  - now apply IH.
Qed.

(** Every call of the loop goes to an open element of the set, from line
    40, with the text of the pass. *)
Lemma fanout_calls_In (t : Transport) (data : JSString) (clients : list Conn) :
  forall k, In k (fanout_calls t clients data) ->
    In (target k) clients
    /\ readyState t (target k) = OPEN
    /\ k = {| site := BroadcastSend; target := target k; payload := data;
              outcome := sendOutcome t (target k) |}.
Proof.
  induction clients as [| client rest IH]; simpl; intros k Hk; [contradiction |].
  destruct (ReadyState_eqb (readyState t client) OPEN) eqn:E.
  - destruct Hk as [<- | Hk].
    + simpl. apply ReadyState_eqb_OPEN in E. auto.
    + destruct (sendOutcome t client); try contradiction;
        destruct (IH k Hk) as (H1 & H2 & H3); auto.
  - destruct (IH k Hk) as (H1 & H2 & H3); auto.
Qed.

Lemma inbox_fanout_absent (t : Transport) (data : JSString) (clients : list Conn)
    (c : Conn) :
  ~ In c clients \/ readyState t c <> OPEN ->
  inbox c (fanout_calls t clients data) = [].
Proof.
  intros H. apply inbox_none. intros k Hk E.
  destruct (fanout_calls_In t data clients k Hk) as (H1 & H2 & _).
  rewrite E in *. tauto.
Qed.

Lemma calls_to_fanout_absent (t : Transport) (data : JSString) (clients : list Conn)
    (c : Conn) :
  ~ In c clients \/ readyState t c <> OPEN ->
  calls_to c (fanout_calls t clients data) = [].
Proof.
  intros H. apply calls_to_none. intros k Hk E.
  destruct (fanout_calls_In t data clients k Hk) as (H1 & H2 & _).
  rewrite E in *. tauto.
Qed.

(** When no open client throws, the pass is the concatenation of the
    passes over the parts. *)
Lemma fanout_calls_app (t : Transport) (data : JSString) (pre post : list Conn) :
  (forall c, In c pre -> readyState t c = OPEN -> sendOutcome t c <> Thrown) ->
  fanout_calls t (pre ++ post) data
  = fanout_calls t pre data ++ fanout_calls t post data.
Proof.
  induction pre as [| c pre IH]; simpl; intros H; [reflexivity |].
  destruct (ReadyState_eqb (readyState t c) OPEN) eqn:E.
  - apply ReadyState_eqb_OPEN in E.
    assert (sendOutcome t c <> Thrown) as Hc by (apply H; auto).
    destruct (sendOutcome t c); try congruence; simpl; f_equal; apply IH; auto.
  - apply IH; auto.
Qed.

(** An open client whose send is accepted gets the text once, when no
    open client throws. *)
Lemma inbox_fanout_delivered (t : Transport) (data : JSString) (clients : list Conn)
    (c : Conn) :
  NoDup clients ->
  (forall c', In c' clients -> readyState t c' = OPEN -> sendOutcome t c' <> Thrown) ->
  In c clients -> readyState t c = OPEN -> sendOutcome t c = Delivered ->
  inbox c (fanout_calls t clients data) = [data].
Proof.
  intros Hnd Hnt Hin Hopen Hdel.
  apply in_split in Hin. destruct Hin as (pre & post & ->).
  apply NoDup_remove_2 in Hnd. rewrite in_app_iff in Hnd.
  rewrite fanout_calls_app by (intros; apply Hnt; [rewrite in_app_iff |]; auto).
  rewrite inbox_app, inbox_fanout_absent by tauto.
  simpl. apply ReadyState_eqb_OPEN in Hopen. rewrite Hopen, Hdel.
  unfold inbox at 1. simpl. rewrite Nat.eqb_refl. simpl. f_equal.
  apply (inbox_fanout_absent t data post c). tauto.
Qed.

(** The pass stops at an open client that throws. *)
Lemma fanout_calls_thrown (t : Transport) (data : JSString) (pre post : list Conn)
    (f : Conn) :
  (forall c, In c pre -> readyState t c = OPEN -> sendOutcome t c <> Thrown) ->
  readyState t f = OPEN -> sendOutcome t f = Thrown ->
  fanout_calls t (pre ++ f :: post) data
  = fanout_calls t pre data
    ++ [{| site := BroadcastSend; target := f; payload := data; outcome := Thrown |}].
Proof.
  intros Hpre Hopen Hthrown. rewrite fanout_calls_app by assumption.
  simpl. apply ReadyState_eqb_OPEN in Hopen. now rewrite Hopen, Hthrown.
Qed.

(** ** The message handler *)

Lemma calls_to_fanout_member (t : Transport) (data : JSString) (clients : list Conn)
    (c : Conn) :
  NoDup clients ->
  (forall c', In c' clients -> readyState t c' = OPEN -> sendOutcome t c' <> Thrown) ->
  In c clients -> readyState t c = OPEN ->
  calls_to c (fanout_calls t clients data) = [broadcast_call t data c].
Proof.
  intros Hnd Hnt Hin Hopen.
  assert (sendOutcome t c <> Thrown) as Hc by auto.
  apply in_split in Hin. destruct Hin as (pre & post & ->).
  apply NoDup_remove_2 in Hnd. rewrite in_app_iff in Hnd.
  rewrite fanout_calls_app by (intros; apply Hnt; [rewrite in_app_iff |]; auto).
  rewrite calls_to_app, calls_to_fanout_absent by tauto.
  cbn [fanout_calls app]. apply ReadyState_eqb_OPEN in Hopen. rewrite Hopen.
  unfold calls_to at 1. cbn [filter target]. rewrite Nat.eqb_refl.
  unfold broadcast_call. f_equal.
  change (calls_to c (match sendOutcome t c with
                      | Thrown => []
                      | _ => fanout_calls t post data
                      end) = []).
  destruct (sendOutcome t c); try congruence;
    apply (calls_to_fanout_absent t data post c); tauto.
Qed.

Lemma inbox_of_calls (c : Conn) (w w' : list SendCall) :
  calls_to c w' = calls_to c w -> inbox c w' = inbox c w.
Proof.
  assert (forall l, inbox c l = inbox c (calls_to c l)) as H.
  { induction l as [| k l IH]; [reflexivity |].
    unfold inbox, calls_to in *. cbn [filter].
    destruct (Nat.eqb (target k) c) eqn:E; cbn [andb filter].
    - rewrite E. cbn [andb]. destruct (SendOutcome_eqb (outcome k) Delivered);
        cbn [map]; now rewrite IH.
    - exact IH. }
  intros E. now rewrite (H w'), (H w), E.
Qed.

(** ** The message handler *)

(** The shared core of the delivery properties: with no element twice,
    room for the value and no send on an open element throwing, an open
    element whose send is accepted is given the re-serialised message
    once. *)
Lemma open_member_gets_one_copy
    (t : Transport) (ws : Conn) (message : JSString) (data : JSValue) (r : Relay) :
  JSON.parse message = Some data ->
  depth data <= S (stackRoom t) ->
  NoDup (liveConnections r) ->
  (forall c, In c (liveConnections r) ->
             readyState t c = OPEN -> sendOutcome t c <> Thrown) ->
  forall c, In c (liveConnections r) -> readyState t c = OPEN ->
    sendOutcome t c = Delivered ->
    inbox c (wire (state_of (onMessage t ws message r)))
    = inbox c (wire r) ++ [JSON.stringify data].
Proof.
  intros Hp Hd Hnd Hok c Hin Ho Hdel.
  rewrite (onMessage_wire t ws message data r Hp Hd), inbox_app.
  f_equal. apply inbox_fanout_delivered; auto.
Qed.

(** An open element is sent the re-serialised message once, under the
    same conditions. *)
Lemma open_member_is_sent_one_copy
    (t : Transport) (ws : Conn) (message : JSString) (data : JSValue) (r : Relay) :
  JSON.parse message = Some data ->
  depth data <= S (stackRoom t) ->
  NoDup (liveConnections r) ->
  (forall c, In c (liveConnections r) ->
             readyState t c = OPEN -> sendOutcome t c <> Thrown) ->
  forall c, In c (liveConnections r) -> readyState t c = OPEN ->
    calls_to c (wire (state_of (onMessage t ws message r)))
    = calls_to c (wire r) ++ [broadcast_call t (JSON.stringify data) c].
Proof.
  intros Hp Hd Hnd Hok c Hin Ho.
  rewrite (onMessage_wire t ws message data r Hp Hd), calls_to_app.
  f_equal. apply calls_to_fanout_member; auto.
Qed.

(** A socket that is not an open element of the set is sent nothing,
    whatever the payload. *)
Lemma bystander_is_sent_nothing
    (t : Transport) (ws : Conn) (message : JSString) (r : Relay) (c : Conn) :
  ~ In c (liveConnections r) \/ readyState t c <> OPEN ->
  calls_to c (wire (state_of (onMessage t ws message r))) = calls_to c (wire r).
Proof.
  intros Hc. destruct (JSON.parse message) as [data |] eqn:Hp.
  - rewrite (onMessage_wire_any t ws message data r Hp), calls_to_app.
    destruct (JSON.stringify_in (stackRoom t) data); [| apply app_nil_r].
    rewrite calls_to_fanout_absent by assumption. apply app_nil_r.
  - now rewrite (onMessage_malformed t ws message r Hp).
Qed.

(** C1, as the code has it.  For a payload that parses, every element of
    the active set whose [readyState] is [OPEN] when the loop reaches it,
    the sender included, is sent the re-serialised message exactly once,
    and is given it when the transport accepts the send; an element that
    is not [OPEN] is sent nothing.  This holds when [JSON.stringify] has
    room for the value and no send on an open element throws.  A value
    nested too deep for [JSON.stringify] is sent to nobody: with an open
    element in the set the exception is caught and logged, and the
    handler returns.  The message that is sent reads back as the value
    the payload parsed to, when the numbers in it are finite and none is
    negative zero.  The set is a [Set]: no element twice. *)
Theorem fanout_reaches_every_open_connection
    (t : Transport) (ws : Conn) (message : JSString) (data : JSValue) (r : Relay) :
  JSON.parse message = Some data ->
  NoDup (liveConnections r) ->
  let r' := state_of (onMessage t ws message r) in
  (depth data <= S (stackRoom t) ->
   (forall c, In c (liveConnections r) ->
              readyState t c = OPEN -> sendOutcome t c <> Thrown) ->
   (forall c, In c (liveConnections r) ->
      (readyState t c = OPEN ->
         calls_to c (wire r')
         = calls_to c (wire r) ++ [broadcast_call t (JSON.stringify data) c]
         /\ (sendOutcome t c = Delivered ->
               inbox c (wire r') = inbox c (wire r) ++ [JSON.stringify data]))
      /\ (readyState t c <> OPEN ->
            calls_to c (wire r') = calls_to c (wire r)
            /\ inbox c (wire r') = inbox c (wire r)))
   /\ (In ws (liveConnections r) -> readyState t ws = OPEN ->
       sendOutcome t ws = Delivered ->
       inbox ws (wire r') = inbox ws (wire r) ++ [JSON.stringify data]))
  /\ (S (stackRoom t) < depth data ->
      wire r' = wire r
      /\ ((exists c, In c (liveConnections r) /\ readyState t c = OPEN) ->
          onMessage t ws message r
          = Normal (log ErrorParsingMessage (log (ReceivedMessage data) r))))
  /\ (Forall code_unit message -> Forall plain_number (numbers_of data) ->
      JSON.parse (JSON.stringify data) = JSON.parse message).
Proof.
  intros Hp Hnd r'. split; [| split].
  - intros Hd Hok. split.
    + intros c Hin. split.
      * intros Ho. split.
        -- now apply open_member_is_sent_one_copy.
        -- intros Hdel. now apply open_member_gets_one_copy.
      * intros Hclosed.
        assert (calls_to c (wire r') = calls_to c (wire r)) as E
          by (apply bystander_is_sent_nothing; auto).
        split; [exact E | now apply inbox_of_calls].
    + intros Hin Ho Hdel. now apply open_member_gets_one_copy.
  - intros Hd. apply (onMessage_deep t ws message data r Hp Hd).
  - intros Hm Hn. rewrite Hp. now apply (reserialised_parses_back message).
Qed.

(** C3.  A payload that does not parse forwards nothing and leaves the
    active set as it was, the sender still in it; the handler logs the
    error and returns. *)
Theorem malformed_payload_is_dropped
    (t : Transport) (ws : Conn) (message : JSString) (r : Relay) :
  JSON.parse message = None ->
  let r' := state_of (onMessage t ws message r) in
  wire r' = wire r
  /\ liveConnections r' = liveConnections r
  /\ (In ws (liveConnections r) -> In ws (liveConnections r'))
  /\ console r' = console r ++ [ErrorParsingMessage]
  /\ onMessage t ws message r = Normal r'.
Proof.
  intros Hp r'. unfold r'. rewrite (onMessage_malformed t ws message r Hp).
  simpl. auto.
Qed.

(** C9.  The message handler never changes the active set, whatever the
    payload and whatever the sends do: a target whose send failed is
    still in the set afterwards, and leaves it when its [close] or [error]
    handler runs. *)
Theorem fanout_leaves_the_set_alone
    (t : Transport) (ws : Conn) (message : JSString) (r : Relay) :
  let r' := state_of (onMessage t ws message r) in
  liveConnections r' = liveConnections r
  /\ activeCount r' = activeCount r
  /\ (forall f, In f (liveConnections r) -> sendOutcome t f <> Delivered ->
                In f (liveConnections r'))
  /\ (forall f, ~ In f (liveConnections (state_of (onClose f r')))
                /\ ~ In f (liveConnections (state_of (onError f r')))).
Proof.
  intros r'. unfold r', activeCount.
  rewrite (onMessage_liveConnections t ws message r).
  repeat split; auto; simpl; rewrite In_delete; tauto.
Qed.

Lemma room_ABC_NoDup : NoDup (liveConnections room_ABC).
Proof.
  change (liveConnections room_ABC) with [A; B; C].
  repeat constructor; simpl; unfold A, B, C; intuition discriminate.
Qed.

Lemma lit_code_units (s : string) : Forall code_unit (lit s).
Proof.
  induction s as [| a s IH]; cbn [lit]; constructor; [| assumption].
  unfold code_unit. pose proof (nat_ascii_bounded a). lia.
Qed.

Lemma jlit_code_units (s : string) : Forall code_unit (jlit s).
Proof.
  induction s as [| a s IH]; cbn [jlit]; constructor; [| assumption].
  unfold code_unit. pose proof (nat_ascii_bounded a).
  destruct (Nat.eqb (nat_of_ascii a) 39); lia.
Qed.

Lemma hi_parses : JSON.parse hi = Some hi_data.
Proof. vm_compute. reflexivity. Qed.

Lemma hi_plain : Forall plain_number (numbers_of hi_data).
Proof. constructor. Qed.

Lemma hi_fits (t : Transport) : depth hi_data <= S (stackRoom t).
Proof. change (depth hi_data) with 1. lia. Qed.

Lemma fanout_reaches_every_open_connection_witness :
  inbox B (wire (state_of (onMessage (closing C) A hi room_ABC)))
  = inbox B (wire room_ABC) ++ [JSON.stringify hi_data]
  /\ calls_to C (wire (state_of (onMessage (closing C) A hi room_ABC)))
     = calls_to C (wire room_ABC)
  /\ JSON.parse (JSON.stringify hi_data) = JSON.parse hi.
Proof.
  destruct (fanout_reaches_every_open_connection
              (closing C) A hi hi_data room_ABC
              hi_parses room_ABC_NoDup) as (H & _ & Hback).
  destruct (H (hi_fits _)) as [Hall _]; [intros c _ _; discriminate |].
  split; [| split].
  - apply (Hall B); [right; left; reflexivity | reflexivity | reflexivity].
  - apply (Hall C); [right; right; left; reflexivity | discriminate].
  - apply Hback; [apply jlit_code_units | apply hi_plain].
Defined.

(** The text of arrays in arrays is read as them, however many. *)
Lemma stringify_deep_value (n : nat) : JSON.stringify (deep_value n) = deep_text n.
Proof.
  induction n as [| n IH]; [reflexivity |].
  cbn [deep_value stringify map join]. rewrite IH. unfold deep_text.
  rewrite <- app_assoc, <- (repeat_cons (S n) 93%Z). reflexivity.
Qed.

Lemma deep_value_canonical (n : nat) : canonical (deep_value n).
Proof.
  induction n as [| n IH]; [exact I |].
  unfold canonical in *. cbn [deep_value shaped]. auto.
Qed.

Lemma parse_deep_text (n : nat) : JSON.parse (deep_text n) = Some (deep_value n).
Proof.
  rewrite <- stringify_deep_value. apply stringify_then_parse, deep_value_canonical.
Qed.

Lemma depth_deep_value (n : nat) : depth (deep_value n) = S n.
Proof.
  induction n as [| n IH]; [reflexivity |].
  cbn [deep_value depth map list_max fold_right]. rewrite IH. lia.
Qed.

Lemma deep_payload_is_deep (t : Transport) :
  stackRoom t = ample -> S (stackRoom t) < depth deep_data.
Proof.
  intros ->. unfold deep_data. rewrite depth_deep_value.
  apply Nat.ltb_lt. vm_compute. reflexivity.
Qed.

(** C1, as stated, fails.  [A], [B] and [C] are in the set and open, and
    every send would be accepted.  The payload is five thousand arrays,
    one in the other: [JSON.parse] reads it, [JSON.stringify] has no room
    for it, the exception is caught and nobody is sent anything. *)
Lemma deeply_nested_payload_reaches_nobody :
  JSON.parse deep_payload = Some deep_data
  /\ liveConnections room_ABC = [A; B; C]
  /\ (forall c, readyState healthy c = OPEN /\ sendOutcome healthy c = Delivered)
  /\ onMessage healthy A deep_payload room_ABC
     = Normal (log ErrorParsingMessage (log (ReceivedMessage deep_data) room_ABC))
  /\ wire (state_of (onMessage healthy A deep_payload room_ABC)) = wire room_ABC
  /\ inbox B (wire (state_of (onMessage healthy A deep_payload room_ABC)))
     = inbox B (wire room_ABC)
  /\ inbox B (wire (state_of (onMessage healthy A deep_payload room_ABC)))
     <> inbox B (wire room_ABC) ++ [JSON.stringify deep_data].
Proof.
  pose proof (parse_deep_text 4999) as Hp. fold deep_payload deep_data in Hp.
  destruct (onMessage_deep healthy A deep_payload deep_data room_ABC Hp
              (deep_payload_is_deep healthy eq_refl)) as [Hw Hlog].
  split; [exact Hp |]. split; [reflexivity |]. split; [now split |].
  split; [apply Hlog; exists A; split; [left |]; reflexivity |].
  split; [exact Hw |]. rewrite Hw. split; [reflexivity |].
  intros H. apply (f_equal (@length JSString)) in H.
  rewrite length_app in H. simpl in H. lia.
Qed.

Lemma malformed_payload_is_dropped_witness :
  wire (state_of (onMessage healthy A (lit "{oops") room_ABC)) = wire room_ABC
  /\ liveConnections (state_of (onMessage healthy A (lit "{oops") room_ABC))
     = liveConnections room_ABC.
Proof.
  assert (JSON.parse (lit "{oops") = None) as Hp by (vm_compute; reflexivity).
  destruct (malformed_payload_is_dropped healthy A (lit "{oops") room_ABC Hp)
    as (H1 & H2 & _).
  split; assumption.
Defined.

(** C4, as the code has it.  [JSON.stringify] has room for the value;
    one open element [f] of the set fails on send and the sends on the
    others are accepted.  When the failing send
    returns (the failure being reported later), every other open element
    is given its copy.  When the failing send throws, the loop ends
    there: the open elements before [f] in insertion order have their
    copy, the elements after [f] are given nothing, the exception is
    caught and the handler returns.  In both cases [f] is given nothing
    and the set is unchanged.  The message is the text of the parsed
    value, which reads back as that value when its numbers are finite and
    none is negative zero. *)
Theorem fanout_isolation_by_failure_kind
    (t : Transport) (ws : Conn) (message : JSString) (data : JSValue) (r : Relay)
    (f : Conn) :
  JSON.parse message = Some data ->
  depth data <= S (stackRoom t) ->
  NoDup (liveConnections r) ->
  In f (liveConnections r) ->
  readyState t f = OPEN ->
  sendOutcome t f <> Delivered ->
  (forall c, In c (liveConnections r) -> c <> f ->
             readyState t c = OPEN -> sendOutcome t c = Delivered) ->
  let r' := state_of (onMessage t ws message r) in
  (sendOutcome t f = Dropped ->
     forall c, In c (liveConnections r) -> c <> f -> readyState t c = OPEN ->
       inbox c (wire r') = inbox c (wire r) ++ [JSON.stringify data])
  /\ (sendOutcome t f = Thrown ->
        forall pre post, liveConnections r = pre ++ f :: post ->
          (forall c, In c pre -> readyState t c = OPEN ->
             inbox c (wire r') = inbox c (wire r) ++ [JSON.stringify data])
          /\ (forall c, In c post -> inbox c (wire r') = inbox c (wire r)))
  /\ inbox f (wire r') = inbox f (wire r)
  /\ liveConnections r' = liveConnections r
  /\ onMessage t ws message r = Normal r'
  /\ (Forall code_unit message -> Forall plain_number (numbers_of data) ->
      JSON.parse (JSON.stringify data) = JSON.parse message).
Proof.
  intros Hp Hd Hnd Hf Hopen Hfail Hothers r'. unfold r'.
  rewrite (onMessage_wire t ws message data r Hp Hd).
  split; [| split; [| split; [| split; [| split]]]].
  - intros Hdrop c Hin Hne Ho. rewrite inbox_app. f_equal.
    apply inbox_fanout_delivered; auto.
    intros c' Hin' Ho'. destruct (Nat.eq_dec c' f) as [-> | Hne'].
    + rewrite Hdrop. discriminate.
    + rewrite (Hothers c' Hin' Hne' Ho'). discriminate.
  - intros Hthrown pre post Hsplit. rewrite Hsplit in *.
    pose proof (NoDup_remove_2 _ _ _ Hnd) as Hnotin. rewrite in_app_iff in Hnotin.
    pose proof (NoDup_remove_1 _ _ _ Hnd) as Hnd'.
    assert (forall c, In c pre -> readyState t c = OPEN -> sendOutcome t c = Delivered)
      as Hpre.
    { intros c Hin Ho. apply Hothers; auto.
      - rewrite in_app_iff. auto.
      - intros ->. tauto. }
    rewrite (fanout_calls_thrown t (JSON.stringify data) pre post f); auto.
    2:{ intros c Hin Ho. rewrite (Hpre c Hin Ho). discriminate. }
    split.
    + intros c Hin Ho. rewrite !inbox_app. f_equal.
      rewrite (inbox_fanout_delivered t (JSON.stringify data) pre c); auto.
      * rewrite (inbox_none c [_]); [reflexivity |].
        intros k [<- | []]. simpl. intros ->. tauto.
      * apply NoDup_app_remove_r in Hnd'. assumption.
      * intros c' Hin' Ho'. rewrite (Hpre c' Hin' Ho'). discriminate.
    + intros c Hin. rewrite !inbox_app.
      rewrite inbox_fanout_absent.
      * rewrite (inbox_none c [_]); [now rewrite app_nil_r |].
        intros k [<- | []]. simpl. intros ->. tauto.
      * left. intros Hin'. apply (NoDup_app_disjoint pre post c); assumption.
  - rewrite inbox_app.
    rewrite (inbox_undelivered f (fanout_calls t _ _)); [apply app_nil_r |].
    intros k Hk E.
    destruct (fanout_calls_In t _ _ k Hk) as (_ & _ & ->). simpl in *. now subst.
  - apply onMessage_liveConnections.
  - apply onMessage_returns.
  - intros Hm Hn. rewrite Hp. now apply (reserialised_parses_back message).
Qed.

Lemma fanout_isolation_by_failure_kind_witness :
  inbox A (wire (state_of (onMessage (throws_on B) A hi room_ABC)))
  = inbox A (wire room_ABC) ++ [JSON.stringify hi_data]
  /\ inbox C (wire (state_of (onMessage (throws_on B) A hi room_ABC)))
     = inbox C (wire room_ABC).
Proof.
  assert (In B (liveConnections room_ABC)) as HB by (right; left; reflexivity).
  assert (sendOutcome (throws_on B) B <> Delivered) as Hfail by discriminate.
  assert (forall c, In c (liveConnections room_ABC) -> c <> B ->
            readyState (throws_on B) c = OPEN -> sendOutcome (throws_on B) c = Delivered)
    as Hothers.
  { intros c _ Hne _. simpl. apply Nat.eqb_neq in Hne. now rewrite Hne. }
  destruct (fanout_isolation_by_failure_kind
              (throws_on B) A hi hi_data room_ABC B
              hi_parses (hi_fits _) room_ABC_NoDup HB eq_refl Hfail Hothers)
    as (_ & Hthrown & _).
  destruct (Hthrown eq_refl [A] [C] eq_refl) as [Hpre Hpost].
  split.
  - apply Hpre; [left; reflexivity | reflexivity].
  - apply Hpost. left; reflexivity.
Defined.

(** C4, as stated, fails.  [A], [B] and [C] are in the set and open; the
    send on [A], the first in insertion order, throws, the sends on [B]
    and [C] would be accepted.  [B] is given nothing. *)
Lemma throwing_send_aborts_fanout :
  JSON.parse hi = Some hi_data
  /\ liveConnections room_ABC = [A; B; C]
  /\ (forall c, readyState (throws_on A) c = OPEN)
  /\ sendOutcome (throws_on A) A = Thrown
  /\ sendOutcome (throws_on A) B = Delivered
  /\ sendOutcome (throws_on A) C = Delivered
  /\ inbox B (wire (state_of (onMessage (throws_on A) A hi room_ABC)))
     = inbox B (wire room_ABC)
  /\ inbox B (wire (state_of (onMessage (throws_on A) A hi room_ABC)))
     <> inbox B (wire room_ABC) ++ [JSON.stringify hi_data].
Proof.
  repeat split; try (vm_compute; reflexivity).
  intros H. vm_compute in H. discriminate H.
Qed.

(** C10, as the code has it.  The message handler never looks at the
    socket the message came from.  After the [error] handler of [ws] has
    removed it from the set, a payload from [ws] is handled as one from
    any other sender would be, with the same calls of [send] and the same
    results, and [ws] itself is sent nothing.  When the payload parses,
    [JSON.stringify] has room for the value and no send on an open
    element throws, every open element of the set is sent the
    re-serialised message once, and is given it when the transport accepts
    the send.  The message that is sent reads back as the value the
    payload parsed to, when its numbers are finite and none is negative
    zero. *)
Theorem sender_membership_is_not_checked
    (t : Transport) (ws : Conn) (message : JSString) (data : JSValue) (r : Relay) :
  JSON.parse message = Some data ->
  NoDup (liveConnections r) ->
  let r1 := state_of (onError ws r) in
  let r2 := state_of (onMessage t ws message r1) in
  ~ In ws (liveConnections r1)
  /\ (forall ws', onMessage t ws' message r1 = onMessage t ws message r1)
  /\ calls_to ws (wire r2) = calls_to ws (wire r1)
  /\ (depth data <= S (stackRoom t) ->
      (forall c, In c (liveConnections r1) ->
                 readyState t c = OPEN -> sendOutcome t c <> Thrown) ->
      forall c, In c (liveConnections r1) -> readyState t c = OPEN ->
        calls_to c (wire r2)
        = calls_to c (wire r1) ++ [broadcast_call t (JSON.stringify data) c]
        /\ (sendOutcome t c = Delivered ->
              inbox c (wire r2) = inbox c (wire r1) ++ [JSON.stringify data]))
  /\ (Forall code_unit message -> Forall plain_number (numbers_of data) ->
      JSON.parse (JSON.stringify data) = JSON.parse message).
Proof.
  intros Hp Hnd r1 r2.
  assert (liveConnections r1 = ConnSet.delete (liveConnections r) ws) as Hset by reflexivity.
  assert (~ In ws (liveConnections r1)) as Hout by (rewrite Hset, In_delete; tauto).
  assert (NoDup (liveConnections r1)) as Hnd1 by (rewrite Hset; now apply delete_NoDup).
  split; [exact Hout |]. split; [reflexivity |]. split; [| split].
  - apply bystander_is_sent_nothing. now left.
  - intros Hd Hok c Hin Ho. split.
    + now apply open_member_is_sent_one_copy.
    + intros Hdel. now apply open_member_gets_one_copy.
  - intros Hm Hn. rewrite Hp. now apply (reserialised_parses_back message).
Qed.

Lemma sender_membership_is_not_checked_witness :
  ~ In A (liveConnections (state_of (onError A room_ABC)))
  /\ inbox B (wire (state_of (onMessage healthy A hi (state_of (onError A room_ABC)))))
     = inbox B (wire (state_of (onError A room_ABC))) ++ [JSON.stringify hi_data]
  /\ JSON.parse (JSON.stringify hi_data) = JSON.parse hi.
Proof.
  destruct (sender_membership_is_not_checked
              healthy A hi hi_data room_ABC hi_parses room_ABC_NoDup)
    as (H1 & _ & _ & H2 & Hback).
  split; [exact H1 |].
  split; [| apply Hback; [apply jlit_code_units | apply hi_plain]].
  apply (H2 (hi_fits _)).
  - intros c _ _. discriminate.
  - left. reflexivity.
  - reflexivity.
  - reflexivity.
Defined.

(** C10, as stated, fails.  The [error] handler of [A] has removed it;
    [B] and [C] are in the set and open.  A payload arrives from [A] that
    parses; the send on [B] throws, and [C], whose send would be accepted,
    is sent nothing. *)
Lemma message_of_a_removed_sender_can_miss_an_open_member :
  JSON.parse hi = Some hi_data
  /\ liveConnections (state_of (onError A room_ABC)) = [B; C]
  /\ readyState (throws_on B) C = OPEN
  /\ sendOutcome (throws_on B) C = Delivered
  /\ calls_to C (wire (state_of (onMessage (throws_on B) A hi
                                  (state_of (onError A room_ABC)))))
     = calls_to C (wire (state_of (onError A room_ABC)))
  /\ inbox C (wire (state_of (onMessage (throws_on B) A hi
                                (state_of (onError A room_ABC)))))
     <> inbox C (wire (state_of (onError A room_ABC))) ++ [JSON.stringify hi_data].
Proof.
  repeat split; try (vm_compute; reflexivity).
  intros H. vm_compute in H. discriminate H.
Qed.

(** ** The connection handler *)

Lemma stringify_welcome : JSON.stringify welcome = welcome_text.
Proof. vm_compute. reflexivity. Qed.

Lemma onConnection_liveConnections
    (t : Transport) (ws : Conn) (r : Relay) :
  liveConnections (state_of (onConnection t ws r)) = ConnSet.add (liveConnections r) ws.
Proof.
  unfold onConnection. cbv zeta.
  now destruct (send_spec t WelcomeSend ws (JSON.stringify welcome)
                  (log NewClientConnected
                     (with_connections (ConnSet.add (liveConnections r) ws) r)))
    as (H1 & _).
Qed.

(** C2.  The connection handler puts the new socket in the active set
    and calls [send] once, on that socket, with the welcome: sender name
    [System] and the fixed greeting.  When the transport accepts that
    send the socket is given exactly that one message; no other socket is
    sent or given anything by the handler. *)
Theorem welcome_goes_to_the_new_connection_only
    (t : Transport) (ws : Conn) (r : Relay) :
  let r' := state_of (onConnection t ws r) in
  liveConnections r' = ConnSet.add (liveConnections r) ws
  /\ In ws (liveConnections r')
  /\ wire r' = wire r ++ [{| site := WelcomeSend; target := ws;
                             payload := welcome_text;
                             outcome := sendOutcome t ws |}]
  /\ JSON.parse welcome_text
     = Some (JSObject
               [ (lit "name", JSStr (lit "System"));
                 (lit "text",
                  JSStr (lit "Welcome to the Live Room! You are now connected.")) ])
  /\ (sendOutcome t ws = Delivered ->
        inbox ws (wire r') = inbox ws (wire r) ++ [welcome_text])
  /\ (forall c, c <> ws ->
        calls_to c (wire r') = calls_to c (wire r)
        /\ inbox c (wire r') = inbox c (wire r)).
Proof.
  intros r'. unfold r', onConnection. cbv zeta. rewrite stringify_welcome.
  destruct (send_spec t WelcomeSend ws welcome_text
              (log NewClientConnected
                 (with_connections (ConnSet.add (liveConnections r) ws) r)))
    as (H1 & _ & H3).
  cbv zeta in H1, H3. rewrite H1, H3.
  cbn [log with_connections liveConnections wire].
  split; [reflexivity |].
  split; [apply In_add; auto |].
  split; [reflexivity |].
  split; [vm_compute; reflexivity |].
  split.
  - intros Hd. rewrite inbox_app. f_equal.
    unfold inbox. simpl. now rewrite Nat.eqb_refl, Hd.
  - intros c Hne. rewrite calls_to_app, inbox_app.
    rewrite (calls_to_none c [_]), (inbox_none c [_]), !app_nil_r; auto;
      intros k [<- | []]; simpl; congruence.
Qed.

(** ** The close and error handlers *)

(** C6.  Removal is idempotent on the active set.  Running the [close]
    or the [error] handler of a socket a second time, in any combination,
    leaves the set as the first run left it; running either for a socket
    that is not in the set leaves the set unchanged; and the handlers
    always return. *)
Theorem removal_is_idempotent (ws : Conn) (r : Relay) :
  let closed := state_of (onClose ws r) in
  let failed := state_of (onError ws r) in
  liveConnections (state_of (onClose ws closed)) = liveConnections closed
  /\ liveConnections (state_of (onError ws closed)) = liveConnections closed
  /\ liveConnections (state_of (onClose ws failed)) = liveConnections failed
  /\ liveConnections (state_of (onError ws failed)) = liveConnections failed
  /\ (~ In ws (liveConnections r) ->
        liveConnections closed = liveConnections r
        /\ liveConnections failed = liveConnections r)
  /\ onClose ws closed = Normal (state_of (onClose ws closed))
  /\ onError ws closed = Normal (state_of (onError ws closed))
  /\ onClose ws failed = Normal (state_of (onClose ws failed))
  /\ onError ws failed = Normal (state_of (onError ws failed)).
Proof.
  simpl. repeat split; try apply delete_idempotent; now apply delete_absent.
Qed.

(** ** Sequences of events *)

Lemma dispatch_liveConnections (t : Transport) (e : Event) (r : Relay) :
  liveConnections (state_of (dispatch t e r))
  = match e with
    | Connection ws => ConnSet.add (liveConnections r) ws
    | Message _ _ => liveConnections r
    | Close ws | Error ws => ConnSet.delete (liveConnections r) ws
    end.
Proof.
  destruct e as [ws | ws message | ws | ws]; simpl; try reflexivity.
  - apply (onConnection_liveConnections t ws r).
  - apply onMessage_liveConnections.
Qed.

(** Every state the loop reaches from a [Set] holds a [Set]. *)
Lemma run_NoDup (ticks : list Tick) :
  forall r, NoDup (liveConnections r) ->
            NoDup (liveConnections (state_of (run ticks r))).
Proof.
  induction ticks as [| k ticks IH]; intros r Hnd; simpl; [assumption |].
  assert (NoDup (liveConnections (state_of (dispatch (env k) (ev k) r)))) as Hnd'.
  { rewrite dispatch_liveConnections.
    destruct (ev k); auto using add_NoDup, delete_NoDup. }
  destruct (dispatch (env k) (ev k) r) as [r' | r']; simpl in *; auto.
Qed.

(** Whether a handler returns does not depend on the state of the relay. *)
Lemma dispatch_returns_anywhere (t : Transport) (e : Event) (r1 r1' r2 : Relay) :
  dispatch t e r1 = Normal r1' -> exists r2', dispatch t e r2 = Normal r2'.
Proof.
  destruct e as [ws | ws message | ws | ws]; simpl.
  - unfold onConnection, send. simpl. destruct (sendOutcome t ws); eauto; discriminate.
  - intros _. rewrite onMessage_returns. eauto.
  - unfold onClose. eauto.
  - unfold onError. eauto.
Qed.

Lemma stays_app (gone : list Conn) (c x : Conn) :
  stays (gone ++ [c]) x = stays gone x && negb (Nat.eqb x c).
Proof.
  unfold stays, ConnSet.has. rewrite existsb_app. simpl.
  now rewrite orb_false_r, negb_orb.
Qed.

Lemma stays_true (gone : list Conn) (c : Conn) : stays gone c = true <-> ~ In c gone.
Proof. unfold stays. rewrite negb_true_iff. apply has_not_In. Qed.

Lemma filter_filter {X : Type} (f g : X -> bool) (l : list X) :
  filter f (filter g l) = filter (fun x => g x && f x) l.
Proof.
  induction l as [| x l IH]; simpl; [reflexivity |].
  destruct (g x); simpl; [destruct (f x) |]; now rewrite IH.
Qed.

Lemma delete_filter_stays (gone l : list Conn) (c : Conn) :
  ConnSet.delete (filter (stays gone) l) c = filter (stays (gone ++ [c])) l.
Proof.
  unfold ConnSet.delete. rewrite filter_filter. apply filter_ext.
  intros x. now rewrite stays_app.
Qed.

(** The active set is the sockets that connected, in order, without
    those that departed. *)
Lemma run_liveConnections (ticks : list Tick) :
  forall (seen gone : list Conn) (r r' : Relay),
    well_formed_from seen (map ev ticks) = true ->
    incl gone seen ->
    liveConnections r = filter (stays gone) (rev seen) ->
    run ticks r = Normal r' ->
    liveConnections r'
    = filter (stays (gone ++ departed (map ev ticks)))
             (rev seen ++ connected (map ev ticks)).
Proof.
  induction ticks as [| k ticks IH]; intros seen gone r r' Hwf Hincl Hset Hrun.
  - simpl in *. injection Hrun as <-. now rewrite !app_nil_r.
  - simpl in Hrun.
    pose proof (dispatch_liveConnections (env k) (ev k) r) as Hstep.
    destruct (dispatch (env k) (ev k) r) as [r1 | r1]; [| discriminate].
    simpl in Hstep. simpl in Hwf. simpl.
    destruct (ev k) as [c | c message | c | c]; simpl;
      apply andb_prop in Hwf; destruct Hwf as [Hc Hwf].
    + apply negb_true_iff, has_not_In in Hc.
      rewrite (IH (c :: seen) gone r1 r' Hwf); simpl.
      * now rewrite <- app_assoc.
      * intros x Hx. right. now apply Hincl.
      * rewrite Hstep, Hset, filter_app. simpl.
        assert (stays gone c = true) as -> by (apply stays_true; auto).
        apply add_fresh. rewrite filter_In, <- in_rev. tauto.
      * assumption.
    + apply (IH seen gone r1 r' Hwf Hincl); congruence.
    + apply has_In in Hc.
      rewrite (IH seen (gone ++ [c]) r1 r' Hwf); simpl.
      * now rewrite <- app_assoc.
      * intros x Hx. apply in_app_or in Hx. destruct Hx as [Hx | [<- | []]]; auto.
      * rewrite Hstep, Hset. apply delete_filter_stays.
      * assumption.
    + apply has_In in Hc.
      rewrite (IH seen (gone ++ [c]) r1 r' Hwf); simpl.
      * now rewrite <- app_assoc.
      * intros x Hx. apply in_app_or in Hx. destruct Hx as [Hx | [<- | []]]; auto.
      * rewrite Hstep, Hset. apply delete_filter_stays.
      * assumption.
Qed.

Lemma well_formed_connected_NoDup (es : list Event) :
  forall seen, well_formed_from seen es = true -> NoDup seen ->
               NoDup (rev seen ++ connected es).
Proof.
  induction es as [| e es IH]; intros seen Hwf Hnd; simpl in *.
  - rewrite app_nil_r. now apply NoDup_rev.
  - destruct e as [c | c message | c | c];
      apply andb_prop in Hwf; destruct Hwf as [Hc Hwf]; auto.
    apply negb_true_iff, has_not_In in Hc.
    specialize (IH (c :: seen) Hwf). simpl in IH. rewrite <- app_assoc in IH.
    apply IH. now constructor.
Qed.

Lemma well_formed_departed_incl (es : list Event) :
  forall seen, well_formed_from seen es = true ->
               incl (departed es) (rev seen ++ connected es).
Proof.
  induction es as [| e es IH]; intros seen Hwf; simpl in *.
  - intros x [].
  - destruct e as [c | c message | c | c];
      apply andb_prop in Hwf; destruct Hwf as [Hc Hwf].
    + specialize (IH (c :: seen) Hwf). simpl in IH. now rewrite <- app_assoc in IH.
    + auto.
    + apply has_In in Hc. intros x [<- | Hx].
      * rewrite in_app_iff, <- in_rev. auto.
      * now apply IH.
    + apply has_In in Hc. intros x [<- | Hx].
      * rewrite in_app_iff, <- in_rev. auto.
      * now apply IH.
Qed.

Lemma filter_split_length {X : Type} (f : X -> bool) (l : list X) :
  length (filter f l) + length (filter (fun x => negb (f x)) l) = length l.
Proof.
  induction l as [| x l IH]; simpl; [reflexivity |].
  destruct (f x); simpl; lia.
Qed.

(** Taking the sockets [gone] out of a duplicate-free list that contains
    them all shortens it by the number of distinct sockets in [gone]. *)
Lemma length_filter_stays (gone l : list Conn) :
  NoDup l -> incl gone l ->
  length (filter (stays gone) l) = length l - length (nodup Nat.eq_dec gone).
Proof.
  intros Hnd Hincl.
  pose proof (filter_split_length (stays gone) l) as Hsplit.
  assert (length (filter (fun x => negb (stays gone x)) l)
          = length (nodup Nat.eq_dec gone)) as Hlen; [| lia].
  apply Nat.le_antisymm; apply NoDup_incl_length.
  - now apply NoDup_filter.
  - intros x Hx. apply filter_In in Hx. destruct Hx as [_ Hx].
    apply negb_true_iff in Hx. apply nodup_In.
    destruct (In_dec Nat.eq_dec x gone) as [H | H]; [assumption |].
    apply stays_true in H. congruence.
  - apply NoDup_nodup.
  - intros x Hx. apply nodup_In in Hx. apply filter_In. split; [auto |].
    apply negb_true_iff. destruct (stays gone x) eqn:E; [| reflexivity].
    apply stays_true in E. contradiction.
Qed.

Lemma activeCount_formula (ticks : list Tick) (r : Relay) :
  well_formed (map ev ticks) = true ->
  run ticks init = Normal r ->
  activeCount r
  = length (connected (map ev ticks))
    - length (nodup Nat.eq_dec (departed (map ev ticks))).
Proof.
  intros Hwf Hrun. unfold activeCount, ConnSet.size.
  rewrite (run_liveConnections ticks [] [] init r Hwf); simpl; auto.
  - apply length_filter_stays.
    + apply (well_formed_connected_NoDup _ [] Hwf). constructor.
    + apply (well_formed_departed_incl _ [] Hwf).
  - intros x [].
Qed.

Lemma map_ev_filter (ticks : list Tick) :
  map ev (filter (fun k => not_message (ev k)) ticks) = filter not_message (map ev ticks).
Proof.
  induction ticks as [| k ticks IH]; simpl; [reflexivity |].
  destruct (not_message (ev k)); simpl; now rewrite IH.
Qed.

Lemma connected_without_messages (es : list Event) :
  connected (filter not_message es) = connected es.
Proof.
  induction es as [| e es IH]; simpl; [reflexivity |].
  destruct e; simpl; now rewrite IH.
Qed.

Lemma departed_without_messages (es : list Event) :
  departed (filter not_message es) = departed es.
Proof.
  induction es as [| e es IH]; simpl; [reflexivity |].
  destruct e; simpl; now rewrite IH.
Qed.

Lemma well_formed_without_messages (es : list Event) :
  forall seen, well_formed_from seen es = true ->
               well_formed_from seen (filter not_message es) = true.
Proof.
  induction es as [| e es IH]; intros seen Hwf; simpl in *; [reflexivity |].
  destruct e; simpl; apply andb_prop in Hwf; destruct Hwf as [Hc Hwf];
    rewrite ?Hc; simpl; auto.
Qed.

Lemma run_without_messages_returns (ticks : list Tick) :
  forall r1 r1' r2,
    run ticks r1 = Normal r1' ->
    exists r2', run (filter (fun k => not_message (ev k)) ticks) r2 = Normal r2'.
Proof.
  induction ticks as [| k ticks IH]; intros r1 r1' r2 Hrun; simpl in *; [eauto |].
  destruct (dispatch (env k) (ev k) r1) as [r1'' | r1''] eqn:E1; [| discriminate].
  destruct (not_message (ev k)); simpl.
  - destruct (dispatch_returns_anywhere (env k) (ev k) r1 r1'' r2 E1) as [r2'' ->].
    eauto.
  - eauto.
Qed.

(** C5, as the code has it.  After a sequence of events the server can
    see, handled without the process ending, [activeCount()] is the
    number of [connection] events minus the number of distinct sockets
    that had a [close] or an [error] event: a socket that reports both
    leaves once.  Message events do not enter the count: the same
    sequence without them gives the same value. *)
Theorem active_count_counts_each_departure_once (ticks : list Tick) (r : Relay) :
  well_formed (map ev ticks) = true ->
  run ticks init = Normal r ->
  activeCount r
  = length (connected (map ev ticks))
    - length (nodup Nat.eq_dec (departed (map ev ticks)))
  /\ activeCount
       (state_of (run (filter (fun k => negb (is_message (ev k))) ticks) init))
     = activeCount r.
Proof.
  intros Hwf Hrun.
  pose proof (activeCount_formula ticks r Hwf Hrun) as Hcount.
  split; [assumption |].
  destruct (run_without_messages_returns ticks init r init Hrun) as [r2 Hrun2].
  change (fun k => negb (is_message (ev k))) with (fun k => not_message (ev k)).
  rewrite Hrun2. simpl.
  rewrite (activeCount_formula (filter (fun k => not_message (ev k)) ticks) r2), Hcount;
    auto.
  - now rewrite map_ev_filter, connected_without_messages, departed_without_messages.
  - rewrite map_ev_filter. now apply well_formed_without_messages.
Qed.

Lemma active_count_counts_each_departure_once_witness :
  activeCount (state_of (run error_then_close init))
  = length (connected (map ev error_then_close))
    - length (nodup Nat.eq_dec (departed (map ev error_then_close))).
Proof.
  apply (active_count_counts_each_departure_once error_then_close
           (state_of (run error_then_close init)));
    vm_compute; reflexivity.
Defined.

(** C5, as stated, fails.  [A] and [B] connect, then the socket of [A]
    reports an error and its closure: two [connection] events and two
    [close]/[error] events, and [B] is still in the set. *)
Lemma error_then_close_is_one_departure :
  well_formed (map ev error_then_close) = true
  /\ (exists r, run error_then_close init = Normal r /\ activeCount r = 1)
  /\ length (connected (map ev error_then_close))
     - length (departed (map ev error_then_close)) = 0.
Proof.
  split; [reflexivity |]. split; [| reflexivity].
  eexists. split; [vm_compute; reflexivity | reflexivity].
Qed.

(** ** The welcome comes first *)

Lemma onMessage_calls (t : Transport) (ws : Conn) (message : JSString) (r : Relay) :
  exists calls,
    wire (state_of (onMessage t ws message r)) = wire r ++ calls
    /\ forall k, In k calls ->
         In (target k) (liveConnections r) /\ site k = BroadcastSend.
Proof.
  destruct (JSON.parse message) as [data |] eqn:Hp.
  - exists (match JSON.stringify_in (stackRoom t) data with
            | Some text => fanout_calls t (liveConnections r) text
            | None => []
            end).
    split; [now apply onMessage_wire_any |].
    destruct (JSON.stringify_in (stackRoom t) data); [| intros k []].
    intros k Hk. destruct (fanout_calls_In t _ _ k Hk) as (H1 & _ & ->). auto.
  - exists []. rewrite (onMessage_malformed t ws message r Hp). simpl.
    split; [now rewrite app_nil_r | contradiction].
Qed.

Lemma onConnection_wire (t : Transport) (ws : Conn) (r : Relay) :
  wire (state_of (onConnection t ws r))
  = wire r ++ [welcome_call ws (sendOutcome t ws)].
Proof.
  unfold onConnection. cbv zeta.
  now destruct (send_spec t WelcomeSend ws (JSON.stringify welcome)
                  (log NewClientConnected
                     (with_connections (ConnSet.add (liveConnections r) ws) r)))
    as (_ & _ & H3).
Qed.

Lemma calls_to_welcome_call (c ws : Conn) (o : SendOutcome) :
  calls_to c [welcome_call ws o] = if Nat.eqb ws c then [welcome_call ws o] else [].
Proof. reflexivity. Qed.

Lemma dispatch_welcome_order (t : Transport) (e : Event) (seen : list Conn) (r : Relay) :
  welcome_order seen r ->
  (forall c, e = Connection c -> ~ In c seen) ->
  welcome_order (seen_after e seen) (state_of (dispatch t e r)).
Proof.
  intros (Hset & Hnone & Hsome) Hfresh.
  destruct e as [ws | ws message | ws | ws]; cbn [dispatch seen_after].
  - specialize (Hfresh ws eq_refl).
    unfold welcome_order. rewrite onConnection_liveConnections, onConnection_wire.
    split; [| split].
    + intros c Hc. apply In_add in Hc. simpl. destruct Hc as [Hc | ->]; auto.
    + intros c Hc. simpl in Hc. rewrite calls_to_app, calls_to_welcome_call.
      destruct (Nat.eqb_spec ws c) as [-> | _]; [tauto |].
      rewrite Hnone by tauto. reflexivity.
    + intros c Hc. unfold welcomed. rewrite calls_to_app, calls_to_welcome_call.
      destruct (Nat.eqb_spec ws c) as [-> | Hne].
      * rewrite (Hnone c Hfresh). simpl. eauto.
      * destruct Hc as [Hc | Hc]; [contradiction |].
        destruct (Hsome c Hc) as (o & rest & -> & Hrest).
        rewrite app_nil_r. eauto.
  - destruct (onMessage_calls t ws message r) as (calls & Hwire & Hcalls).
    unfold welcome_order. rewrite onMessage_liveConnections, Hwire.
    split; [assumption | split].
    + intros c Hc. rewrite calls_to_app, (Hnone c Hc). simpl.
      apply calls_to_none. intros k Hk E. apply Hc, Hset. rewrite <- E.
      now apply Hcalls.
    + intros c Hc. destruct (Hsome c Hc) as (o & rest & Hw & Hrest).
      exists o, (rest ++ calls_to c calls). rewrite calls_to_app, Hw.
      split; [reflexivity |].
      apply Forall_app. split; [assumption |].
      apply Forall_forall. intros k Hk. apply filter_In in Hk. now apply Hcalls.
  - split; [| split]; auto.
    intros c Hc. simpl in Hc. apply In_delete in Hc. now apply Hset.
  - split; [| split]; auto.
    intros c Hc. simpl in Hc. apply In_delete in Hc. now apply Hset.
Qed.

Lemma run_welcome_order (ticks : list Tick) :
  forall (seen : list Conn) (r : Relay),
    welcome_order seen r ->
    NoDup (connected (map ev ticks)) ->
    (forall c, In c (connected (map ev ticks)) -> ~ In c seen) ->
    exists seen',
      welcome_order seen' (state_of (run ticks r))
      /\ incl seen seen'
      /\ (forall r', run ticks r = Normal r' ->
            forall c, In c (connected (map ev ticks)) -> In c seen').
Proof.
  induction ticks as [| k ticks IH]; intros seen r Hinv Hnd Hfresh; simpl.
  - exists seen. split; [assumption |]. split; [apply incl_refl |]. intros _ _ c [].
  - assert (forall c, ev k = Connection c -> ~ In c seen) as Hk.
    { intros c E. apply Hfresh. simpl. rewrite E. now left. }
    pose proof (dispatch_welcome_order (env k) (ev k) seen r Hinv Hk) as Hinv'.
    assert (incl seen (seen_after (ev k) seen)) as Hgrow.
    { destruct (ev k); simpl; auto using incl_refl, incl_tl. }
    destruct (dispatch (env k) (ev k) r) as [r1 | r1]; simpl in Hinv'.
    + destruct (IH (seen_after (ev k) seen) r1 Hinv') as (seen' & H1 & H2 & H3).
      * simpl in Hnd. destruct (ev k); auto. now inversion Hnd.
      * intros c Hc. simpl in Hnd, Hfresh. destruct (ev k) as [c0 | | |]; simpl; auto.
        inversion Hnd as [| ? ? Hc0 Hnd']; subst.
        intros [<- | Hin]; [contradiction |].
        apply (Hfresh c); simpl; auto.
      * exists seen'. split; [assumption |].
        split; [eapply incl_tran; eassumption |].
        intros r' Hrun c Hc.
        destruct (ev k) as [c0 | | |]; simpl in Hc; eauto.
        destruct Hc as [<- | Hc]; eauto.
        apply H2. now left.
    + exists (seen_after (ev k) seen).
      split; [assumption |]. split; [assumption | discriminate].
Qed.

Lemma init_welcome_order : welcome_order [] init.
Proof. repeat split; auto; intros c []. Qed.

Lemma connected_app (es1 es2 : list Event) :
  connected (es1 ++ es2) = connected es1 ++ connected es2.
Proof.
  induction es1 as [| e es1 IH]; simpl; [reflexivity |].
  destruct e; simpl; now rewrite IH.
Qed.

Lemma connected_firstn_NoDup (n : nat) (ticks : list Tick) :
  NoDup (connected (map ev ticks)) ->
  NoDup (connected (map ev (firstn n ticks))).
Proof.
  intros Hnd. rewrite <- (firstn_skipn n ticks), map_app, connected_app in Hnd.
  now apply NoDup_app_remove_r in Hnd.
Qed.

(** C7.  In every sequence of events in which each [connection] event
    brings a socket of its own, and after every number [n] of its events,
    the calls of [send] made so far on a socket begin with its welcome,
    sent once, and everything after it is a broadcast: no broadcast is
    sent to a socket before its welcome.  A socket whose [connection]
    event has been handled has been sent its welcome. *)
Theorem welcome_precedes_every_broadcast (ticks : list Tick) (c : Conn) (n : nat) :
  NoDup (connected (map ev ticks)) ->
  let w := wire (state_of (run (firstn n ticks) init)) in
  (calls_to c w = [] \/ welcomed c w)
  /\ (forall r, run (firstn n ticks) init = Normal r ->
        In c (connected (map ev (firstn n ticks))) -> welcomed c w).
Proof.
  intros Hnd w. apply (connected_firstn_NoDup n) in Hnd.
  destruct (run_welcome_order (firstn n ticks) [] init init_welcome_order Hnd)
    as (seen' & (_ & Hnone & Hsome) & _ & Hall); [auto |].
  split.
  - destruct (In_dec Nat.eq_dec c seen') as [Hin | Hout]; [right | left]; auto.
  - intros r Hrun Hc. apply Hsome. eapply Hall; eassumption.
Qed.

Lemma welcome_precedes_every_broadcast_witness :
  welcomed B (wire (state_of (run (firstn 3 scenario) init))).
Proof.
  assert (NoDup (connected (map ev scenario))) as Hnd.
  { change (connected (map ev scenario)) with [A; B].
    repeat constructor; simpl; unfold A, B; intuition discriminate. }
  destruct (welcome_precedes_every_broadcast scenario B 3 Hnd) as [_ H].
  apply (H (state_of (run (firstn 3 scenario) init))).
  - vm_compute. reflexivity.
  - right. left. reflexivity.
Defined.

(** ** No schema *)

(** The Numbers that do not survive: the infinities, which [stringify]
    writes [null], and negative zero, which is written [0]. *)
Lemma numbers_that_do_not_survive :
  ~ number_survives (S754_infinity false)
  /\ ~ number_survives (S754_infinity true)
  /\ ~ number_survives (S754_zero true).
Proof.
  repeat split; intros [Hfin H]; try discriminate Hfin.
  specialize (H [] I). vm_compute in H. discriminate H.
Qed.

(** The Numbers that survive are the finite ones but negative zero. *)
Theorem number_survives_iff (x : Number) :
  binary64 x -> (number_survives x <-> plain_number x).
Proof.
  intros Hx. split.
  - intros Hs. destruct numbers_that_do_not_survive as (_ & _ & Hz).
    split; [apply Hs |]. intros ->. contradiction.
  - intros [Hf Hz]. now apply finite_numbers_survive.
Qed.

(** C8, as the code has it.  Whatever value the payload parses to, with
    or without a [name] or a [text], an object or not, the handler sends
    [JSON.stringify] of that value and nothing else: its calls of [send]
    are those of the loop over the set with that text.  A value nested
    too deep for [JSON.stringify] is the exception: nothing is sent.  The
    text that is sent parses to the value the payload parsed to, with
    every field and value, provided every number in it is finite and none
    is negative zero. *)
Theorem every_parsed_payload_is_reserialised
    (t : Transport) (ws : Conn) (message : JSString) (data : JSValue) (r : Relay) :
  JSON.parse message = Some data ->
  let r' := state_of (onMessage t ws message r) in
  (depth data <= S (stackRoom t) ->
     wire r' = wire r ++ fanout_calls t (liveConnections r) (JSON.stringify data))
  /\ (S (stackRoom t) < depth data -> wire r' = wire r)
  /\ (Forall code_unit message -> Forall plain_number (numbers_of data) ->
      JSON.parse (JSON.stringify data) = JSON.parse message).
Proof.
  intros Hp r'. split; [| split].
  - intros Hd. now apply onMessage_wire.
  - intros Hd. apply (onMessage_deep t ws message data r Hp Hd).
  - intros Hm Hn. rewrite Hp. now apply (reserialised_parses_back message).
Qed.

Lemma every_parsed_payload_is_reserialised_witness :
  wire (state_of (onMessage healthy A (jlit "{'room':'x','n':42}") room_ABC))
  = wire room_ABC
    ++ fanout_calls healthy (liveConnections room_ABC) (jlit "{'room':'x','n':42}")
  /\ JSON.parse
       (JSON.stringify
          (JSObject [ (lit "room", JSStr (lit "x"));
                      (lit "n", JSNumber (Num.of_decimal false 42 0)) ]))
     = JSON.parse (jlit "{'room':'x','n':42}").
Proof.
  set (data := JSObject [ (lit "room", JSStr (lit "x"));
                          (lit "n", JSNumber (Num.of_decimal false 42 0)) ]).
  assert (JSON.parse (jlit "{'room':'x','n':42}") = Some data) as Hp
    by (vm_compute; reflexivity).
  destruct (every_parsed_payload_is_reserialised
              healthy A (jlit "{'room':'x','n':42}") data room_ABC Hp)
    as (Hw & _ & Hback).
  assert (JSON.stringify data = jlit "{'room':'x','n':42}") as E
    by (vm_compute; reflexivity).
  split.
  - rewrite <- E. apply Hw. change (depth data) with 1. lia.
  - apply Hback; [apply jlit_code_units |].
    change (numbers_of data) with [Num.of_decimal false 42 0].
    constructor; [| constructor].
    split; [reflexivity |]. intros H. vm_compute in H. discriminate H.
Defined.

(** C8, as stated, fails.  The payload [1e400] parses, to a Number, and
    the Number it parses to is [Infinity], which [JSON.stringify] writes
    [null]: the receivers are given [null].  The same happens to a field
    of an object. *)
Lemma number_beyond_binary64_is_forwarded_as_null :
  JSON.parse (lit "1e400") = Some (JSNumber (S754_infinity false))
  /\ inbox B (wire (state_of (onMessage healthy A (lit "1e400") room_ABC)))
     = inbox B (wire room_ABC) ++ [lit "null"]
  /\ JSON.parse (lit "null") = Some JSNull
  /\ inbox B (wire (state_of (onMessage healthy A
                                (jlit "{'name':'A','text':'hi','n':1e400}") room_ABC)))
     = inbox B (wire room_ABC) ++ [jlit "{'name':'A','text':'hi','n':null}"].
Proof. repeat split; vm_compute; reflexivity. Qed.

(** ** More on the relay *)

(** X1.  Whatever the events, in whatever order, the active set never
    holds a socket twice. *)
Theorem active_set_never_holds_a_socket_twice (ticks : list Tick) :
  NoDup (liveConnections (state_of (run ticks init))).
Proof. apply run_NoDup. constructor. Qed.

(** X2.  After a sequence of events the server can see, handled without
    the process ending, the active set is the sockets that connected, in
    the order they connected, without those for which a [close] or an
    [error] was handled: a socket is in the set exactly when it connected
    and has not departed. *)
Theorem active_set_is_connected_minus_departed (ticks : list Tick) (r : Relay) :
  well_formed (map ev ticks) = true ->
  run ticks init = Normal r ->
  liveConnections r
  = filter (stays (departed (map ev ticks))) (connected (map ev ticks))
  /\ forall c, In c (liveConnections r)
               <-> In c (connected (map ev ticks)) /\ ~ In c (departed (map ev ticks)).
Proof.
  intros Hwf Hrun.
  assert (liveConnections r
          = filter (stays (departed (map ev ticks))) (connected (map ev ticks))) as E.
  { rewrite (run_liveConnections ticks [] [] init r Hwf); simpl; auto. intros x []. }
  split; [assumption |].
  intros c. rewrite E, filter_In, stays_true. tauto.
Qed.

Lemma active_set_is_connected_minus_departed_witness :
  liveConnections (state_of (run scenario init))
  = filter (stays (departed (map ev scenario))) (connected (map ev scenario)).
Proof.
  assert (well_formed (map ev scenario) = true) as Hwf by (vm_compute; reflexivity).
  assert (run scenario init = Normal (state_of (run scenario init))) as Hrun
    by (vm_compute; reflexivity).
  exact (proj1 (active_set_is_connected_minus_departed scenario _ Hwf Hrun)).
Defined.

(** A socket that is not in the set and does not connect is sent
    nothing. *)
Lemma outsider_is_sent_nothing (ticks : list Tick) (c : Conn) :
  forall r, ~ In c (liveConnections r) ->
            ~ In c (connected (map ev ticks)) ->
            ~ In c (liveConnections (state_of (run ticks r)))
            /\ calls_to c (wire (state_of (run ticks r))) = calls_to c (wire r).
Proof.
  induction ticks as [| k ticks IH]; intros r Hout Hnew; simpl; [auto |].
  assert (~ In c (liveConnections (state_of (dispatch (env k) (ev k) r)))
          /\ calls_to c (wire (state_of (dispatch (env k) (ev k) r)))
             = calls_to c (wire r)) as [Hout' Hcalls].
  { simpl in Hnew. rewrite dispatch_liveConnections.
    destruct (ev k) as [ws | ws message | ws | ws]; cbn [dispatch].
    - assert (ws <> c) as Hne by (intros ->; apply Hnew; now left).
      split; [rewrite In_add; intros [H | H]; congruence |].
      rewrite onConnection_wire, calls_to_app, calls_to_welcome_call.
      destruct (Nat.eqb_spec ws c); [contradiction | apply app_nil_r].
    - split; [assumption |].
      destruct (onMessage_calls (env k) ws message r) as (calls & -> & Hcalls).
      rewrite calls_to_app, (calls_to_none c calls); [apply app_nil_r |].
      intros x Hx E. apply Hout. rewrite <- E. now apply Hcalls.
    - split; [rewrite In_delete; tauto | reflexivity].
    - split; [rewrite In_delete; tauto | reflexivity]. }
  assert (~ In c (connected (map ev ticks))) as Hnew'.
  { simpl in Hnew. destruct (ev k); simpl in Hnew; tauto. }
  destruct (dispatch (env k) (ev k) r) as [r' | r']; simpl in *; [| auto].
  destruct (IH r' Hout' Hnew') as [H1 H2]. split; [assumption | congruence].
Qed.

(** X3.  Once the [close] or the [error] handler of a socket has run, no
    later event makes the relay call [send] on that socket, as long as the
    socket does not connect again. *)
Theorem departed_socket_is_sent_nothing (ticks : list Tick) (c : Conn) (r : Relay) :
  ~ In c (connected (map ev ticks)) ->
  calls_to c (wire (state_of (run ticks (state_of (onClose c r))))) = calls_to c (wire r)
  /\ calls_to c (wire (state_of (run ticks (state_of (onError c r))))) = calls_to c (wire r).
Proof.
  intros Hnew. split.
  - destruct (outsider_is_sent_nothing ticks c (state_of (onClose c r))) as [_ H]; auto.
    simpl. rewrite In_delete. tauto.
  - destruct (outsider_is_sent_nothing ticks c (state_of (onError c r))) as [_ H]; auto.
    simpl. rewrite In_delete. tauto.
Qed.

Lemma departed_socket_is_sent_nothing_witness :
  calls_to B (wire (state_of (run [tick (Message A hi); tick (Message C hi)]
                                  (state_of (onClose B room_ABC)))))
  = calls_to B (wire room_ABC).
Proof.
  apply (departed_socket_is_sent_nothing [tick (Message A hi); tick (Message C hi)] B room_ABC).
  simpl. tauto.
Defined.

Lemma fanout_calls_no_throw (t : Transport) (data : JSString) (clients : list Conn) :
  (forall c, In c clients -> readyState t c = OPEN -> sendOutcome t c <> Thrown) ->
  fanout_calls t clients data = map (broadcast_call t data) (filter (is_open t) clients).
Proof.
  induction clients as [| c clients IH]; simpl; intros H; [reflexivity |].
  unfold is_open at 1. destruct (ReadyState_eqb (readyState t c) OPEN) eqn:E.
  - apply ReadyState_eqb_OPEN in E.
    assert (sendOutcome t c <> Thrown) as Hc by (apply H; auto).
    simpl. unfold broadcast_call at 1.
    destruct (sendOutcome t c); try congruence; f_equal; apply IH; auto.
  - apply IH; auto.
Qed.

(** X4.  When [JSON.stringify] has room for the value and no send on an
    open element throws, the handler of a payload that parses calls
    [send] exactly once on each open element of the set, in the order the
    set holds them, with the same text, and on nothing else. *)
Theorem broadcast_follows_insertion_order
    (t : Transport) (ws : Conn) (message : JSString) (data : JSValue) (r : Relay) :
  JSON.parse message = Some data ->
  depth data <= S (stackRoom t) ->
  (forall c, In c (liveConnections r) -> readyState t c = OPEN ->
             sendOutcome t c <> Thrown) ->
  wire (state_of (onMessage t ws message r))
  = wire r ++ map (broadcast_call t (JSON.stringify data))
                  (filter (is_open t) (liveConnections r)).
Proof.
  intros Hp Hd Hnt. rewrite (onMessage_wire t ws message data r Hp Hd). f_equal.
  now apply fanout_calls_no_throw.
Qed.

Lemma broadcast_follows_insertion_order_witness :
  wire (state_of (onMessage (closing B) A hi room_ABC))
  = wire room_ABC ++ [ broadcast_call (closing B) hi A; broadcast_call (closing B) hi C ].
Proof.
  assert (JSON.stringify hi_data = hi) as E by (vm_compute; reflexivity).
  rewrite (broadcast_follows_insertion_order (closing B) A hi hi_data room_ABC
             hi_parses (hi_fits _)).
  - rewrite E. reflexivity.
  - intros c _ _. discriminate.
Defined.

(** X5.  When no send on an open element throws, messages handled one
    after the other reach, in that order, every open element whose sends
    the transport accepts: its inbox grows by the re-serialised texts of
    the payloads that parse and that [JSON.stringify] has room for, first
    handled first.  A payload that does not parse, or that parses to a
    value too deep to be written, leaves no trace in it. *)
Theorem broadcasts_arrive_in_order
    (t : Transport) (arrivals : list (Conn * JSString)) (c : Conn) :
  forall r : Relay,
    NoDup (liveConnections r) ->
    (forall c', In c' (liveConnections r) ->
                readyState t c' = OPEN -> sendOutcome t c' <> Thrown) ->
    In c (liveConnections r) -> readyState t c = OPEN -> sendOutcome t c = Delivered ->
    inbox c (wire (state_of (run (message_ticks t arrivals) r)))
    = inbox c (wire r) ++ forwarded t (map snd arrivals).
Proof.
  induction arrivals as [| [ws message] arrivals IH]; intros r Hnd Hok Hin Ho Hdel.
  - simpl. now rewrite app_nil_r.
  - cbn [message_ticks map run env ev dispatch fst snd forwarded].
    pose proof (onMessage_liveConnections t ws message r) as Hset.
    rewrite (onMessage_returns t ws message r).
    fold (message_ticks t arrivals).
    rewrite IH; rewrite ?Hset; auto.
    destruct (JSON.parse message) as [data |] eqn:Hp.
    + rewrite (onMessage_wire_any t ws message data r Hp), inbox_app.
      destruct (JSON.stringify_in (stackRoom t) data) as [text |].
      * rewrite (inbox_fanout_delivered t text (liveConnections r) c); auto.
        now rewrite <- !app_assoc.
      * cbn [inbox filter map]. now rewrite app_nil_r.
    + now rewrite (onMessage_malformed t ws message r Hp).
Qed.

Lemma broadcasts_arrive_in_order_witness :
  inbox C (wire (state_of (run (message_ticks healthy
                                  [ (A, hi); (B, lit "{oops"); (A, deep_payload);
                                    (B, lit "[1, 2]") ])
                               room_ABC)))
  = inbox C (wire room_ABC) ++ [hi; lit "[1,2]"].
Proof.
  assert (forwarded healthy
            (map snd [ (A, hi); (B, lit "{oops"); (A, deep_payload);
                       (B, lit "[1, 2]") ])
          = [hi; lit "[1,2]"]) as E.
  { cbn [map snd forwarded]. unfold deep_payload.
    rewrite (parse_deep_text 4999).
    rewrite (stringify_in_deep (stackRoom healthy) (deep_value 4999))
      by apply (deep_payload_is_deep healthy eq_refl).
    vm_compute. reflexivity. }
  rewrite <- E.
  apply (broadcasts_arrive_in_order healthy _ C room_ABC room_ABC_NoDup).
  - intros c' _ _. discriminate.
  - right; right; left; reflexivity.
  - reflexivity.
  - reflexivity.
Defined.

Lemma dispatch_throws (t : Transport) (e : Event) (r : Relay) :
  (exists r', dispatch t e r = Throw r')
  <-> exists ws, e = Connection ws /\ sendOutcome t ws = Thrown.
Proof.
  split.
  - intros [r' H]. destruct e as [ws | ws message | ws | ws]; simpl in H.
    + exists ws. split; [reflexivity|].
      unfold onConnection, send in H. cbv zeta in H.
      destruct (sendOutcome t ws); try discriminate. reflexivity.
    + rewrite onMessage_returns in H. discriminate.
    + discriminate.
    + discriminate.
  - intros [ws [-> H]]. simpl. unfold onConnection, send. cbv zeta.
    rewrite H. eauto.
Qed.

(** X6.  The relay is stopped by an exception in one way only: the send
    of a welcome throws.  No message, parsable or not, no broadcast send
    that throws, no close and no error stops it. *)
Theorem only_a_failed_welcome_stops_the_relay (ticks : list Tick) (r : Relay) :
  (exists r', run ticks r = Throw r')
  <-> exists k ws,
        In k ticks /\ ev k = Connection ws /\ sendOutcome (env k) ws = Thrown.
Proof.
  revert r. induction ticks as [|k rest IH]; intros r.
  - simpl. split; [intros [r' H]; discriminate | intros [k [ws [[] _]]]].
  - simpl. destruct (dispatch (env k) (ev k) r) as [r1|r1] eqn:Hd.
    + rewrite IH. split.
      * intros [k' [ws [Hin H]]]. exists k', ws. auto.
      * intros [k' [ws [[<-|Hin] [He Ho]]]].
        -- assert (exists r', dispatch (env k) (ev k) r = Throw r') as [r' Ht]
             by (apply dispatch_throws; eauto).
           rewrite Hd in Ht. discriminate.
        -- exists k', ws. auto.
    + split; [|eauto]. intros _.
      destruct (proj1 (dispatch_throws (env k) (ev k) r)) as [ws [He Ho]]; [eauto|].
      exists k, ws. auto.
Qed.

(** ** The HTTP API *)

Lemma ToBoolean_defined (v : option JSValue) :
  ToBoolean v = true -> exists x, v = Some x.
Proof. destruct v as [x|]; [eauto | discriminate]. Qed.

Lemma is_undefined_false (v : option JSValue) :
  is_undefined v = false -> exists x, v = Some x.
Proof. destruct v as [x|]; [eauto | discriminate]. Qed.

Ltac post_cases b :=
  destruct b as [[ | | | | | ]|]; try (apply post_thrown; reflexivity).

Ltac post_accept :=
  match goal with
  | |- post_outcome _ (if ?c then _ else _) =>
      let H := fresh "Hc" in
      destruct c eqn:H;
      [ apply post_missing; reflexivity
      | apply orb_false_elim in H; destruct H as [H ?];
        try (apply orb_false_elim in H; destruct H as [H ?]);
        repeat match goal with
               | X : negb _ = false |- _ => apply negb_false_iff in X
               end;
        eapply post_insert;
        [ reflexivity | reflexivity | reflexivity
        | cbn [bound];
          repeat match goal with
                 | X : ToBoolean _ = true |- _ =>
                     let x := fresh "x" in
                     let E := fresh "E" in
                     pose proof (ToBoolean_defined _ X) as [x E]; revert X
                 | X : is_undefined _ = false |- _ =>
                     let x := fresh "x" in
                     let E := fresh "E" in
                     pose proof (is_undefined_false _ X) as [x E]; clear X
                 end; intros;
          repeat (constructor; eauto)
        | cbn [bound hd_error]; eauto ] ]
  end.

Lemma postQuizResults_outcome (db : Database) (b : option JSValue) :
  post_outcome db (postQuizResults db b).
Proof. post_cases b; unfold postQuizResults; cbv zeta; post_accept. Qed.

Lemma postWellbeingCheck_outcome (db : Database) (b : option JSValue) :
  post_outcome db (postWellbeingCheck db b).
Proof. post_cases b; unfold postWellbeingCheck; cbv zeta; post_accept. Qed.

Lemma postStudySessions_outcome (db : Database) (b : option JSValue) :
  post_outcome db (postStudySessions db b).
Proof. post_cases b; unfold postStudySessions; cbv zeta; post_accept. Qed.

Lemma posted_outcome (db : Database) (ex : Exchange) :
  posted db ex -> post_outcome db ex.
Proof.
  intros [b|b|b];
    [ apply postQuizResults_outcome
    | apply postWellbeingCheck_outcome
    | apply postStudySessions_outcome ].
Qed.

Lemma insert_queries (db : Database) (q : Query) (saved : JSString) :
  queries (insert db q saved) = [q].
Proof. unfold insert. destruct (db_run db q); reflexivity. Qed.

Lemma select_queries (db : Database) (q : Query) :
  queries (select db q) = [q].
Proof. unfold select. destruct (db_all db q); reflexivity. Qed.

Lemma insert_response (db : Database) (q : Query) (saved : JSString) :
  exists r, response (insert db q saved) = Some r
            /\ (status r = 200%Z \/ status r = 500%Z).
Proof.
  unfold insert. destruct (db_run db q); eexists; (split; [reflexivity|]);
    cbn; auto.
Qed.

(** X7.  A request to save that is turned down, with [400] or by an
    exception, has not reached the database, and one that is not turned
    down has made exactly one insert and is answered [200] or [500]:
    for the three handlers that save. *)
Theorem rejected_post_never_reaches_the_database
    (db : Database) (ex : Exchange) :
  posted db ex ->
  (queries ex = []
   /\ (response ex = None \/ response ex = response missing_fields))
  \/ (exists q r,
        queries ex = [q] /\ is_insert (statement q) = true
        /\ response ex = Some r /\ (status r = 200%Z \/ status r = 500%Z)).
Proof.
  intros Hp. destruct (posted_outcome db ex Hp) as [->| ->|q saved -> Hi _ _ _].
  - left. split; [reflexivity | left; reflexivity].
  - left. split; [reflexivity | right; reflexivity].
  - right. destruct (insert_response db q saved) as [r [Hr Hs]].
    exists q, r. rewrite insert_queries. auto.
Qed.

Lemma rejected_post_never_reaches_the_database_witness :
  (queries (postWellbeingCheck fresh_db (body_of "{'studentName':'Asha','mood':'','stressLevel':3}")) = []
   /\ (response (postWellbeingCheck fresh_db (body_of "{'studentName':'Asha','mood':'','stressLevel':3}")) = None
       \/ response (postWellbeingCheck fresh_db (body_of "{'studentName':'Asha','mood':'','stressLevel':3}"))
          = response missing_fields))
  \/ (exists q r,
        queries (postWellbeingCheck fresh_db (body_of "{'studentName':'Asha','mood':'','stressLevel':3}")) = [q]
        /\ is_insert (statement q) = true
        /\ response (postWellbeingCheck fresh_db (body_of "{'studentName':'Asha','mood':'','stressLevel':3}")) = Some r
        /\ (status r = 200%Z \/ status r = 500%Z)).
Proof.
  apply (rejected_post_never_reaches_the_database fresh_db).
  constructor.
Defined.

Lemma getDashboardStats_queries (db : Database) (q : Query) :
  In q (queries (getDashboardStats db)) -> bound q = [].
Proof.
  unfold getDashboardStats, get_failed, dashboard_statements.
  destruct (db_get db CountQuizResults);
    [|destruct (db_get db AvgStressLevel);
      [|destruct (db_get db SumDurationMinutes);
        [|destruct (db_get db CountWellbeingChecks)]]];
    cbn [queries map In]; intros H;
    repeat (destruct H as [<-|H]; [reflexivity|]); destruct H.
Qed.

(** X8.  Whatever the request, a query that reaches the database has a
    defined value for each [?] of its SQL text, no more and no fewer, and
    an insert has a truthy student name as its first value. *)
Theorem every_placeholder_gets_a_value
    (db : Database) (ex : Exchange) (q : Query) :
  served db ex ->
  In q (queries ex) ->
  length (bound q) = placeholders (statement q)
  /\ Forall (fun p => exists x, p = Some x) (bound q)
  /\ (is_insert (statement q) = true ->
      exists name, hd_error (bound q) = Some name /\ ToBoolean name = true).
Proof.
  assert (Hpost : forall ex, post_outcome db ex -> In q (queries ex) ->
            length (bound q) = placeholders (statement q)
            /\ Forall (fun p => exists x, p = Some x) (bound q)
            /\ (is_insert (statement q) = true ->
                exists name, hd_error (bound q) = Some name /\ ToBoolean name = true)).
  { intros ex' [->| ->|q' saved -> Hi Hl Hd Hn]; try (intros []).
    rewrite insert_queries. intros [<-|[]]. auto. }
  intros [b|b|b| |name|name|] Hin.
  - apply (Hpost _ (postQuizResults_outcome db b) Hin).
  - apply (Hpost _ (postWellbeingCheck_outcome db b) Hin).
  - apply (Hpost _ (postStudySessions_outcome db b) Hin).
  - unfold getQuizResults in Hin. rewrite select_queries in Hin.
    destruct Hin as [<-|[]]. cbn. repeat split; auto. discriminate.
  - unfold getWellbeingChecks in Hin. rewrite select_queries in Hin.
    destruct Hin as [<-|[]]. cbn. repeat split; eauto. discriminate.
  - unfold getStudySessions in Hin. rewrite select_queries in Hin.
    destruct Hin as [<-|[]]. cbn. repeat split; eauto. discriminate.
  - pose proof (getDashboardStats_queries db q Hin) as Hb.
    assert (Hs : In (statement q) dashboard_statements).
    { revert Hin. unfold getDashboardStats, get_failed, dashboard_statements.
      destruct (db_get db CountQuizResults);
        [|destruct (db_get db AvgStressLevel);
          [|destruct (db_get db SumDurationMinutes);
            [|destruct (db_get db CountWellbeingChecks)]]];
        cbn [queries map In]; intros H;
        repeat (destruct H as [<-|H]; [cbn; tauto|]); destruct H. }
    rewrite Hb. cbn [length].
    repeat split.
    + destruct Hs as [<-|[<-|[<-|[<-|[]]]]]; reflexivity.
    + constructor.
    + destruct Hs as [<-|[<-|[<-|[<-|[]]]]]; discriminate.
Qed.

Lemma every_placeholder_gets_a_value_witness :
  length [Some (JSStr (lit "Asha")); Some (JSNumber zero); Some JSNull;
          Some (JSStr (lit "general"))]
  = placeholders InsertQuizResult
  /\ Forall (fun p => exists x, p = Some x)
       [Some (JSStr (lit "Asha")); Some (JSNumber zero); Some JSNull;
        Some (JSStr (lit "general"))]
  /\ (is_insert InsertQuizResult = true ->
      exists name,
        hd_error [Some (JSStr (lit "Asha")); Some (JSNumber zero); Some JSNull;
                  Some (JSStr (lit "general"))] = Some name
        /\ ToBoolean name = true).
Proof.
  apply (every_placeholder_gets_a_value fresh_db
           (postQuizResults fresh_db
              (body_of "{'studentName':'Asha','score':0,'total':null}"))
           {| statement := InsertQuizResult;
              bound := [Some (JSStr (lit "Asha")); Some (JSNumber zero); Some JSNull;
                        Some (JSStr (lit "general"))] |}).
  - constructor.
  - vm_compute. left. reflexivity.
Defined.

Lemma or_else_cases (a : option JSValue) (b : JSValue) :
  (ToBoolean a = true /\ a = Some (or_else a b))
  \/ (ToBoolean a = false /\ or_else a b = b).
Proof.
  unfold or_else. destruct a as [v|]; [|auto].
  destruct (ToBoolean (Some v)); auto.
Qed.

(** X9.  The optional columns are never left out.  The quiz type that is
    stored is truthy: the one of the request if that is truthy, else
    ['general'].  The message of a wellbeing check that is stored is the
    one of the request if that is truthy, else the empty string: [null],
    [0] and [false] are stored as [''] too. *)
Theorem optional_columns_get_their_default
    (db : Database) (body : JSValue) (q : Query) :
  (In q (queries (postQuizResults db (Some body))) ->
   exists v, nth_error (bound q) 3 = Some (Some v)
             /\ ToBoolean (Some v) = true
             /\ (field body (lit "quizType") = Some v
                 \/ ToBoolean (field body (lit "quizType")) = false
                    /\ v = JSStr (lit "general")))
  /\ (In q (queries (postWellbeingCheck db (Some body))) ->
      exists v, nth_error (bound q) 3 = Some (Some v)
                /\ (ToBoolean (Some v) = true
                    /\ field body (lit "message") = Some v
                    \/ ToBoolean (field body (lit "message")) = false
                       /\ v = JSStr [])).
Proof.
  split.
  - assert (forall (c : bool) (x y : Exchange), (In q (queries (if c then x else y)) ->
              In q (queries x) \/ In q (queries y))) as Hif
        by (intros [] ? ?; auto).
    assert (In q (queries (postQuizResults db (Some body))) ->
            In q (queries (insert db
              {| statement := InsertQuizResult;
                 bound := [field body (lit "studentName"); field body (lit "score");
                           field body (lit "total");
                           Some (or_else (field body (lit "quizType"))
                                         (JSStr (lit "general")))] |}
              (lit "Quiz result saved successfully")))) as Hq.
    { unfold postQuizResults. cbv zeta.
      destruct body; try (intros []);
        intros H; apply Hif in H; destruct H as [[]|H]; exact H. }
    intros H. apply Hq in H. rewrite insert_queries in H.
    destruct H as [<-|[]]. cbn [bound nth_error].
    eexists; split; [reflexivity|].
    destruct (or_else_cases (field body (lit "quizType")) (JSStr (lit "general")))
      as [[Ht He]|[Hf He]].
    + rewrite <- He. auto.
    + rewrite He. auto.
  - assert (forall (c : bool) (x y : Exchange), (In q (queries (if c then x else y)) ->
              In q (queries x) \/ In q (queries y))) as Hif
        by (intros [] ? ?; auto).
    assert (In q (queries (postWellbeingCheck db (Some body))) ->
            In q (queries (insert db
              {| statement := InsertWellbeingCheck;
                 bound := [field body (lit "studentName"); field body (lit "mood");
                           field body (lit "stressLevel");
                           Some (or_else (field body (lit "message")) (JSStr []))] |}
              (lit "Wellbeing check saved successfully")))) as Hq.
    { unfold postWellbeingCheck. cbv zeta.
      destruct body; try (intros []);
        intros H; apply Hif in H; destruct H as [[]|H]; exact H. }
    intros H. apply Hq in H. rewrite insert_queries in H.
    destruct H as [<-|[]]. cbn [bound nth_error].
    eexists; split; [reflexivity|].
    destruct (or_else_cases (field body (lit "message")) (JSStr []))
      as [[Ht He]|[Hf He]].
    + rewrite <- He. auto.
    + rewrite He. auto.
Qed.

(** X10.  A quiz result is checked for presence only: with a truthy
    student name and any score and total that are not [undefined], a
    zero or a [null] among them, the values go to the insert as they
    came, in the order of the columns, and the answer is [200] with the
    new id, or [500] with the message of the database. *)
Theorem quiz_result_is_stored_as_sent
    (db : Database) (props : list (JSString * JSValue))
    (name score total : JSValue) :
  own_property (lit "studentName") props = Some name ->
  ToBoolean (Some name) = true ->
  own_property (lit "score") props = Some score ->
  own_property (lit "total") props = Some total ->
  let q := {| statement := InsertQuizResult;
              bound := [ Some name; Some score; Some total;
                         Some (or_else (own_property (lit "quizType") props)
                                       (JSStr (lit "general"))) ] |} in
  let ex := postQuizResults db (Some (JSObject props)) in
  queries ex = [q]
  /\ (forall lastID, db_run db q = RunDone lastID ->
        logged ex = []
        /\ response ex
           = Some {| status := 200;
                     body := JSObject
                       [ (lit "message", JSStr (lit "Quiz result saved successfully"));
                         (lit "id", JSNumber lastID) ] |})
  /\ (forall message, db_run db q = RunFailed message ->
        logged ex = [message]
        /\ response ex = Some {| status := 500; body := error_body message |}).
Proof.
  intros Hn Ht Hs Htot q ex. subst ex.
  unfold postQuizResults. cbv zeta. unfold field.
  rewrite Hn, Hs, Htot, Ht. cbn [negb is_undefined orb].
  fold q. rewrite insert_queries. split; [reflexivity|].
  unfold insert. split.
  - intros lastID ->. auto.
  - intros message ->. auto.
Qed.

Lemma quiz_result_is_stored_as_sent_witness :
  queries (postQuizResults fresh_db
             (Some (JSObject [ (lit "studentName", JSStr (lit "Asha"));
                               (lit "score", JSNumber zero);
                               (lit "total", JSNull) ])))
  = [ {| statement := InsertQuizResult;
         bound := [ Some (JSStr (lit "Asha")); Some (JSNumber zero); Some JSNull;
                    Some (JSStr (lit "general")) ] |} ].
Proof.
  exact (proj1 (quiz_result_is_stored_as_sent fresh_db
                  [ (lit "studentName", JSStr (lit "Asha"));
                    (lit "score", JSNumber zero);
                    (lit "total", JSNull) ]
                  (JSStr (lit "Asha")) (JSNumber zero) JSNull
                  eq_refl eq_refl eq_refl eq_refl)).
Defined.

Lemma insert_failure (db : Database) (q : Query) (saved : JSString) :
  is_insert (statement q) = true ->
  (failure db q = None /\ logged (insert db q saved) = []
   /\ exists r, response (insert db q saved) = Some r /\ status r = 200%Z)
  \/ (exists m, failure db q = Some m /\ logged (insert db q saved) = [m]
      /\ response (insert db q saved)
         = Some {| status := 500; body := error_body m |}).
Proof.
  intros Hi. unfold failure, insert.
  destruct (statement q); try discriminate;
    destruct (db_run db q);
    [ right; eexists; repeat split
    | left; repeat split; eexists; split; reflexivity
    | right; eexists; repeat split
    | left; repeat split; eexists; split; reflexivity
    | right; eexists; repeat split
    | left; repeat split; eexists; split; reflexivity ].
Qed.

Lemma select_failure (db : Database) (q : Query) :
  In (statement q) [SelectQuizResults; SelectWellbeingChecks; SelectStudySessions] ->
  (failure db q = None /\ logged (select db q) = []
   /\ exists r, response (select db q) = Some r /\ status r = 200%Z)
  \/ (exists m, failure db q = Some m /\ logged (select db q) = [m]
      /\ response (select db q)
         = Some {| status := 500; body := error_body m |}).
Proof.
  intros Hi. unfold failure, select.
  destruct Hi as [<-|[<-|[<-|[]]]];
    destruct (db_all db q);
    [ right; eexists; repeat split
    | left; repeat split; eexists; split; reflexivity
    | right; eexists; repeat split
    | left; repeat split; eexists; split; reflexivity
    | right; eexists; repeat split
    | left; repeat split; eexists; split; reflexivity ].
Qed.

(** What an exchange says of the database: nothing went wrong, nothing is
    logged and the answer is not [500]; or the last query failed, its
    message is logged and sent with [500], and no query before it
    failed. *)
Lemma served_failure (db : Database) (ex : Exchange) :
  served db ex ->
  ((forall q, In q (queries ex) -> failure db q = None)
   /\ logged ex = []
   /\ forall r, response ex = Some r -> status r <> 500%Z)
  \/ (exists asked q m,
        queries ex = asked ++ [q]
        /\ (forall q', In q' asked -> failure db q' = None)
        /\ failure db q = Some m
        /\ logged ex = [m]
        /\ response ex = Some {| status := 500; body := error_body m |}).
Proof.
  assert (Hins : forall q saved, is_insert (statement q) = true ->
            ((forall q', In q' (queries (insert db q saved)) -> failure db q' = None)
             /\ logged (insert db q saved) = []
             /\ forall r, response (insert db q saved) = Some r -> status r <> 500%Z)
            \/ (exists asked q' m,
                  queries (insert db q saved) = asked ++ [q']
                  /\ (forall q'', In q'' asked -> failure db q'' = None)
                  /\ failure db q' = Some m
                  /\ logged (insert db q saved) = [m]
                  /\ response (insert db q saved)
                     = Some {| status := 500; body := error_body m |})).
  { intros q saved Hi. rewrite insert_queries.
    destruct (insert_failure db q saved Hi) as [[Hf [Hl [r [Hr Hs]]]]|[m [Hf [Hl Hr]]]].
    - left. repeat split; auto.
      + intros q' [<-|[]]. exact Hf.
      + intros r' Hr'. rewrite Hr in Hr'. injection Hr' as <-. rewrite Hs. discriminate.
    - right. exists [], q, m. repeat split; auto. intros ? []. }
  assert (Hsel : forall q,
            In (statement q) [SelectQuizResults; SelectWellbeingChecks; SelectStudySessions] ->
            ((forall q', In q' (queries (select db q)) -> failure db q' = None)
             /\ logged (select db q) = []
             /\ forall r, response (select db q) = Some r -> status r <> 500%Z)
            \/ (exists asked q' m,
                  queries (select db q) = asked ++ [q']
                  /\ (forall q'', In q'' asked -> failure db q'' = None)
                  /\ failure db q' = Some m
                  /\ logged (select db q) = [m]
                  /\ response (select db q)
                     = Some {| status := 500; body := error_body m |})).
  { intros q Hi. rewrite select_queries.
    destruct (select_failure db q Hi) as [[Hf [Hl [r [Hr Hs]]]]|[m [Hf [Hl Hr]]]].
    - left. repeat split; auto.
      + intros q' [<-|[]]. exact Hf.
      + intros r' Hr'. rewrite Hr in Hr'. injection Hr' as <-. rewrite Hs. discriminate.
    - right. exists [], q, m. repeat split; auto. intros ? []. }
  assert (Hpost : forall ex', post_outcome db ex' ->
            ((forall q, In q (queries ex') -> failure db q = None)
             /\ logged ex' = []
             /\ forall r, response ex' = Some r -> status r <> 500%Z)
            \/ (exists asked q m,
                  queries ex' = asked ++ [q]
                  /\ (forall q', In q' asked -> failure db q' = None)
                  /\ failure db q = Some m
                  /\ logged ex' = [m]
                  /\ response ex' = Some {| status := 500; body := error_body m |})).
  { intros ex' [->| ->|q saved -> Hi _ _ _].
    - left. repeat split; [intros ? []|discriminate].
    - left. repeat split; [intros ? []|].
      intros r [= <-]. discriminate.
    - apply Hins, Hi. }
  intros [b|b|b| |name|name|].
  - apply Hpost, postQuizResults_outcome.
  - apply Hpost, postWellbeingCheck_outcome.
  - apply Hpost, postStudySessions_outcome.
  - apply Hsel. cbn. auto.
  - apply Hsel. cbn. auto.
  - apply Hsel. cbn. auto.
  - unfold getDashboardStats, get_failed, dashboard_statements.
    destruct (db_get db CountQuizResults) as [m1|r1] eqn:E1.
    { right. exists [], (get_query CountQuizResults), m1.
      unfold failure. cbn. rewrite E1. repeat split; auto. intros ? []. }
    destruct (db_get db AvgStressLevel) as [m2|r2] eqn:E2.
    { right. exists [get_query CountQuizResults], (get_query AvgStressLevel), m2.
      unfold failure. cbn. rewrite E2. repeat split; auto.
      intros ? [<-|[]]. cbn. rewrite E1. reflexivity. }
    destruct (db_get db SumDurationMinutes) as [m3|r3] eqn:E3.
    { right. exists [get_query CountQuizResults; get_query AvgStressLevel],
                    (get_query SumDurationMinutes), m3.
      unfold failure. cbn. rewrite E3. repeat split; auto.
      intros ? [<-|[<-|[]]]; cbn; [rewrite E1|rewrite E2]; reflexivity. }
    destruct (db_get db CountWellbeingChecks) as [m4|r4] eqn:E4.
    { right. exists [get_query CountQuizResults; get_query AvgStressLevel;
                     get_query SumDurationMinutes],
                    (get_query CountWellbeingChecks), m4.
      unfold failure. cbn. rewrite E4. repeat split; auto.
      intros ? [<-|[<-|[<-|[]]]]; cbn; [rewrite E1|rewrite E2|rewrite E3]; reflexivity. }
    left. cbn. repeat split.
    + unfold failure.
      intros ? [<-|[<-|[<-|[<-|[]]]]]; cbn;
        [rewrite E1|rewrite E2|rewrite E3|rewrite E4]; reflexivity.
    + intros r [= <-]. discriminate.
Qed.

(** A handler that uses the database and ends without an answer has
    asked nothing and logged nothing. *)
Lemma served_unanswered (db : Database) (ex : Exchange) :
  served db ex -> response ex = None -> queries ex = [] /\ logged ex = [].
Proof.
  assert (Hpost : forall ex', post_outcome db ex' -> response ex' = None ->
            queries ex' = [] /\ logged ex' = []).
  { intros ex' [-> | -> | q saved -> _ _ _ _] H; [auto | discriminate H |].
    destruct (insert_response db q saved) as [r [Hr _]]. congruence. }
  assert (Hsel : forall q, response (select db q) = None ->
            queries (select db q) = [] /\ logged (select db q) = []).
  { intros q. unfold select. destruct (db_all db q); discriminate. }
  intros [b | b | b | | name | name |].
  - apply Hpost, postQuizResults_outcome.
  - apply Hpost, postWellbeingCheck_outcome.
  - apply Hpost, postStudySessions_outcome.
  - apply Hsel.
  - apply Hsel.
  - apply Hsel.
  - unfold getDashboardStats, get_failed.
    destruct (db_get db CountQuizResults); [discriminate |].
    destruct (db_get db AvgStressLevel); [discriminate |].
    destruct (db_get db SumDurationMinutes); [discriminate |].
    destruct (db_get db CountWellbeingChecks); discriminate.
Qed.

(** X11.  A failure of the database is never swallowed and never made
    up.  When a query that was made fails, the request is answered [500]
    with the message of that failure, the error is logged once, and the
    query was the last one made.  A request is answered [500] in one other
    case only: an exception left the handler before any query was made,
    and the error middleware logged it and answered
    [Internal server error]. *)
Theorem database_failure_is_answered_with_its_message
    (db : Database) (ex : Exchange) :
  served db ex ->
  (forall q m,
     In q (queries ex) -> failure db q = Some m ->
     answer (express ex) = {| status := 500; body := error_body m |}
     /\ errors (express ex) = [DatabaseError m]
     /\ exists before, queries ex = before ++ [q])
  /\ (status (answer (express ex)) = 500%Z ->
      (exists q m, In q (queries ex) /\ failure db q = Some m
                   /\ answer (express ex) = {| status := 500; body := error_body m |}
                   /\ errors (express ex) = [DatabaseError m])
      \/ (response ex = None /\ queries ex = []
          /\ errors (express ex) = [ServerError]
          /\ answer (express ex) = internal_server_error)).
Proof.
  intros Hs.
  destruct (served_failure db ex Hs)
    as [[Hnone [Hl Hr]]|[before [q [m [Hq [Hbefore [Hf [Hl Hr]]]]]]]].
  - split.
    + intros q m Hin Hf. rewrite (Hnone q Hin) in Hf. discriminate.
    + intros H5. right. unfold express in *.
      destruct (response ex) as [r |] eqn:Er.
      * cbn [answer] in H5. destruct (Hr r eq_refl H5).
      * destruct (served_unanswered db ex Hs Er) as [Hq0 Hl0].
        rewrite Hl0. auto.
  - assert (answer (express ex) = {| status := 500; body := error_body m |}
            /\ errors (express ex) = [DatabaseError m]) as [Ha He].
    { unfold express. rewrite Hr, Hl. auto. }
    split.
    + intros q' m' Hin Hf'. rewrite Hq in Hin. apply in_app_or in Hin.
      destruct Hin as [Hin|[<-|[]]].
      * rewrite (Hbefore q' Hin) in Hf'. discriminate.
      * rewrite Hf in Hf'. injection Hf' as <-. eauto.
    + intros _. left.
      exists q, m. rewrite Hq. split; [apply in_or_app; right; left; reflexivity|].
      auto.
Qed.

Lemma database_failure_is_answered_with_its_message_witness :
  answer (express (getDashboardStats half_broken_db))
  = {| status := 500; body := error_body (lit "database is locked") |}
  /\ errors (express (getDashboardStats half_broken_db))
     = [DatabaseError (lit "database is locked")]
  /\ exists before,
       queries (getDashboardStats half_broken_db)
       = before ++ [get_query SumDurationMinutes].
Proof.
  apply (proj1 (database_failure_is_answered_with_its_message
                  half_broken_db (getDashboardStats half_broken_db)
                  (served_getDashboardStats half_broken_db))).
  - vm_compute. right. right. left. reflexivity.
  - reflexivity.
Defined.

(** X12.  The dashboard asks its four aggregates one after the other and
    stops at the first that fails: the aggregates after it are not asked,
    and the answer is [500] with the message of that failure, whatever
    the aggregates before it gave. *)
Theorem dashboard_stops_at_the_first_failure
    (db : Database) (asked rest : list Statement) (s : Statement)
    (message : JSString) :
  dashboard_statements = asked ++ s :: rest ->
  (forall s', In s' asked -> exists row, db_get db s' = GetRow row) ->
  db_get db s = GetFailed message ->
  getDashboardStats db = get_failed (asked ++ [s]) message.
Proof.
  unfold dashboard_statements. intros Hsplit Hok Hfail.
  assert (Hrow : forall s', In s' asked ->
            match db_get db s' with GetRow _ => True | GetFailed _ => False end).
  { intros s' Hin. destruct (Hok s' Hin) as [row ->]. exact I. }
  clear Hok. unfold getDashboardStats, dashboard_statements.
  destruct asked as [|a1 asked]; cbn [app] in Hsplit.
  { injection Hsplit as <- _. rewrite Hfail. reflexivity. }
  injection Hsplit as <- Hsplit.
  pose proof (Hrow _ (or_introl eq_refl)) as H1.
  destruct (db_get db CountQuizResults); [destruct H1|]. clear H1.
  destruct asked as [|a2 asked]; cbn [app] in Hsplit.
  { injection Hsplit as <- _. rewrite Hfail. reflexivity. }
  injection Hsplit as <- Hsplit.
  pose proof (Hrow _ (or_intror (or_introl eq_refl))) as H2.
  destruct (db_get db AvgStressLevel); [destruct H2|]. clear H2.
  destruct asked as [|a3 asked]; cbn [app] in Hsplit.
  { injection Hsplit as <- _. rewrite Hfail. reflexivity. }
  injection Hsplit as <- Hsplit.
  pose proof (Hrow _ (or_intror (or_intror (or_introl eq_refl)))) as H3.
  destruct (db_get db SumDurationMinutes); [destruct H3|]. clear H3.
  destruct asked as [|a4 asked]; cbn [app] in Hsplit.
  { injection Hsplit as <- _. rewrite Hfail. reflexivity. }
  injection Hsplit as <- Hsplit.
  destruct asked; discriminate.
Qed.

Lemma dashboard_stops_at_the_first_failure_witness :
  getDashboardStats half_broken_db
  = get_failed ([CountQuizResults; AvgStressLevel] ++ [SumDurationMinutes])
      (lit "database is locked").
Proof.
  apply (dashboard_stops_at_the_first_failure half_broken_db
           [CountQuizResults; AvgStressLevel] [CountWellbeingChecks]).
  - reflexivity.
  - intros s' [<-|[<-|[]]]; eexists; reflexivity.
  - reflexivity.
Defined.



(** X14.  The health endpoint reports the sockets that are in the room:
    after any well-formed run, the number of sockets that connected less
    the number of distinct sockets that left, a socket whose error was
    followed by its close counted once. *)
Theorem health_reports_the_sockets_in_the_room
    (ticks : list Tick) (r : Relay) (now : JSString) :
  well_formed (map ev ticks) = true ->
  run ticks init = Normal r ->
  status (getHealth r now) = 200%Z
  /\ field (body (getHealth r now)) (lit "liveConnections")
     = Some (JSNumber
               (Num.of_decimal false
                  (Z.of_nat (length (connected (map ev ticks))
                             - length (nodup Nat.eq_dec (departed (map ev ticks)))))
                  0)).
Proof.
  intros Hwf Hrun. split; [reflexivity|].
  rewrite <- (activeCount_formula ticks r Hwf Hrun).
  reflexivity.
Qed.

Lemma health_reports_the_sockets_in_the_room_witness :
  option_map JSON.stringify
    (field (body (getHealth (state_of (run scenario init)) (lit "2026-01-01T00:00:00.000Z")))
       (lit "liveConnections"))
  = Some (lit "1").
Proof.
  rewrite (proj2 (health_reports_the_sockets_in_the_room scenario
                    (state_of (run scenario init)) (lit "2026-01-01T00:00:00.000Z")
                    eq_refl eq_refl)).
  vm_compute. reflexivity.
Defined.

(** ** Worked examples *)

(** The builtins on sample texts: white space and number spellings are
    normalised, array indices come first among the keys, the last of two
    members with one name wins, escapes are decoded and written in their
    short form, and a text that is not JSON is refused. *)
Example reserialised_examples :
  reserialised (jlit " { 'b' : [1, 2.50, 1E2, 0.1, 1e21, 1e-7], '1' : null, 'b2' : true } ")
  = Some (jlit "{'1':null,'b':[1,2.5,100,0.1,1e+21,1e-7],'b2':true}")
  /\ reserialised (jlit "{'a':1,'a':2}") = Some (jlit "{'a':2}")
  /\ reserialised (jlit "'a\u0041\n\/'") = Some (jlit "'aA\n/'")
  /\ reserialised (lit "9007199254740993") = Some (lit "9007199254740992")
  /\ reserialised (lit "-0") = Some (lit "0")
  /\ reserialised (lit "[1,]") = None
  /\ reserialised (lit "{oops") = None
  /\ reserialised (lit "") = None.
Proof. repeat split; vm_compute; reflexivity. Qed.

(** The scenario of the spec, event by event: both are welcomed, the
    first message goes to [A] and [B], [B] leaves, the second message goes
    to [A] alone, and one connection is counted. *)
Example scenario_trace :
  exists r,
    run scenario init = Normal r
    /\ inbox A (wire r)
       = [ welcome_text; hi; jlit "{'name':'A','text':'hello?'}" ]
    /\ inbox B (wire r) = [ welcome_text; hi ]
    /\ liveConnections r = [A]
    /\ activeCount r = 1.
Proof. eexists. repeat split; vm_compute; reflexivity. Qed.

(** A send that returns without delivering stops nothing: with [B]
    dropping, [A] and [C] are given the message. *)
Example dropped_send_is_isolated :
  let r := state_of (onMessage (drops_on B) A hi room_ABC) in
  inbox A (wire r) = [welcome_text; hi]
  /\ inbox B (wire r) = [welcome_text]
  /\ inbox C (wire r) = [welcome_text; hi].
Proof. repeat split; vm_compute; reflexivity. Qed.

(** [Math.round] goes up on a tie, also below zero, and keeps the sign of
    a zero; [Math.round(x * 10) / 10] keeps one decimal. *)
Example Math_round_examples :
  map (fun x => Num.toString (Math_round (Num.of_decimal (fst (fst x)) (snd (fst x)) (snd x))))
      [ (false, 25, -1); (true, 25, -1); (false, 49999999999999994, -17);
        (false, 5, -1); (false, 7, 0) ]%Z
  = [ lit "3"; lit "-2"; lit "0"; lit "1"; lit "7" ]
  /\ Math_round (Num.of_decimal true 4 (-1)) = S754_zero true
  /\ map (fun x => Num.toString (round1 (Num.of_decimal false (fst x) (snd x))))
         [ (333333, -5); (666666, -5); (25, -2); (1, -3); (45, -1) ]%Z
     = [ lit "3.3"; lit "6.7"; lit "0.3"; lit "0"; lit "4.5" ].
Proof. vm_compute. repeat split. Qed.

(** The three validations on bodies that differ in one field. *)
Example validation_examples :
  map (fun text => option_map status (response (postQuizResults fresh_db (body_of text))))
      [ "{'studentName':'Asha','score':0,'total':0}";
        "{'studentName':'Asha','score':null,'total':10}";
        "{'studentName':'','score':7,'total':10}";
        "{'studentName':'Asha','total':10}";
        "[]" ]%string
  = [ Some 200; Some 200; Some 400; Some 400; Some 400 ]%Z
  /\ map (fun text => option_map status
                        (response (postWellbeingCheck fresh_db (body_of text))))
         [ "{'studentName':'Asha','mood':'calm','stressLevel':0}";
           "{'studentName':'Asha','mood':'','stressLevel':3}";
           "{'studentName':'Asha','mood':'calm'}" ]%string
     = [ Some 200; Some 400; Some 400 ]%Z
  /\ map (fun text => option_map status
                        (response (postStudySessions broken_db (body_of text))))
         [ "{'studentName':'Asha','sessionType':'focus','durationMinutes':0}";
           "{'studentName':'Asha','sessionType':'focus'}" ]%string
     = [ Some 500; Some 400 ]%Z.
Proof. vm_compute. repeat split. Qed.

(** A handler that throws is answered by the error middleware: a body
    that cannot be destructured gets [500] and [Internal server error],
    and no query is made. *)
Example thrown_is_answered_by_the_middleware :
  express (postQuizResults fresh_db None)
  = {| queried := []; errors := [ServerError]; answer := internal_server_error |}
  /\ option_map JSON.stringify (Some (body internal_server_error))
     = Some (jlit "{'error':'Internal server error'}").
Proof. split; vm_compute; reflexivity. Qed.

(** An average beyond the range of a Number times ten is rounded to
    [Infinity], which the response writes [null]. *)
Example dashboard_average_can_overflow :
  option_map (fun r => JSON.stringify (body r))
             (response (getDashboardStats huge_average_db))
  = Some (jlit "{'totalQuizzes':0,'averageStress':null,'totalStudyMinutes':null,'totalWellbeingChecks':0}").
Proof. vm_compute. reflexivity. Qed.

(** A payload five thousand arrays deep is read, and not written: the
    handler logs the error, sends nothing and leaves the set as it is. *)
Example deep_payload_trace :
  exists r,
    onMessage healthy A deep_payload room_ABC = Normal r
    /\ wire r = wire room_ABC
    /\ liveConnections r = [A; B; C]
    /\ console r = console room_ABC ++ [ReceivedMessage deep_data; ErrorParsingMessage].
Proof.
  pose proof (parse_deep_text 4999) as Hp. fold deep_payload deep_data in Hp.
  destruct (onMessage_deep healthy A deep_payload deep_data room_ABC Hp
              (deep_payload_is_deep healthy eq_refl)) as [_ Hlog].
  eexists. split; [apply Hlog; exists A; split; [left |]; reflexivity |].
  repeat split.
Qed.
